(** * csv.h: the dialects, the reader and the writer

    A shallow embedding of [include/csv.h] (namespace [csv]): the [Dialect]
    bundle with its setters, the [Reader] ([split] with its two nested loops,
    [ltrim], [rtrim] and [trim], [read] and [read_internal], the dialect
    registry behind [configure_dialect], [get_dialect], [list_dialects] and
    [use_dialect], and the accessors), and the [Writer] with the overloads of
    [write_row], [write_header], [close] and its own registry.

    Conventions of the embedding.
    - [std::string] is a [list ascii] (a sequence of C++ [char]s); the
      abbreviation [text] names it.
    - [size_t] counters ([columns_], [expected_number_of_rows_],
      [quotes_encountered], the loop indices) are [nat]: each of them is
      bounded by the length of a line or by the number of lines of a file,
      so the 64-bit wrap-around is never reached.
    - [std::unordered_map] is stdpp's [gmap]; [operator[]] on a missing key
      inserts a default value, which the model writes out where the source
      relies on it. The order in which a hash table iterates is left open by
      the standard; statements about [list_dialects] hold up to order.
    - A row is a map from [std::string_view] keys to strings, each key a view
      of an element of [headers_]; the model holds the keys by value, which is
      what the views denote while [headers_] is not assigned again. Every
      pass of [read_internal] assigns [headers_]: the keys of the rows a
      reader held before the pass then view strings that are gone, and the
      model's rows say nothing of them. The statements about the keys and
      values of rows are therefore about the rows the pass itself pushes
      ([pass_rows]); about the rows held before, only their number is used.
    - [input_string[i]] on a [const std::string&] is defined for
      [i <= size()] and yields the NUL character at [i = size()]; [char_at]
      is [nth] with default NUL.
    - A [Dialect&] that a member function returns is a way into the registry:
      the setters a caller applies through it are [update_dialect]. *)

From Stdlib Require Import Ascii String DecimalString.
From stdpp Require Import gmap strings list fin_maps.

Local Open Scope char_scope.
Local Open Scope nat_scope.

Abbreviation text := (list ascii).

(** A literal of the development: the characters of a Rocq string. *)
Definition txt (s : string) : text := list_ascii_of_string s.

Definition NUL : ascii := "000".
Definition DQUOTE : ascii := "034".
Definition NEWLINE : ascii := "010".
Definition CR : ascii := "013".
Definition TAB : ascii := "009".
Definition SPACE : ascii := " ".

(** [input_string[i]] *)
Definition char_at (s : text) (i : nat) : ascii := nth i s NUL.

(** ** struct Dialect *)

Record Dialect := mkDialect {
  delimiter_ : text;
  skip_initial_space_ : bool;
  line_terminator_ : ascii;
  quote_character_ : ascii;
  double_quote_ : bool;
  trim_characters_ : list ascii;
  header_ : bool;
  skip_empty_rows_ : bool;
  ignore_columns_ : gmap text bool;
  column_names_ : list text
}.

(** [Dialect::Dialect()] *)
Definition Dialect_default : Dialect :=
  {| delimiter_ := [","];
     skip_initial_space_ := false;
     line_terminator_ := NEWLINE;
     quote_character_ := DQUOTE;
     double_quote_ := true;
     trim_characters_ := [];
     header_ := true;
     skip_empty_rows_ := false;
     ignore_columns_ := ∅;
     column_names_ := [] |}.

(** The fluent setters. *)
Definition set_delimiter (x : text) (d : Dialect) : Dialect :=
  mkDialect x (skip_initial_space_ d) (line_terminator_ d) (quote_character_ d)
    (double_quote_ d) (trim_characters_ d) (header_ d) (skip_empty_rows_ d)
    (ignore_columns_ d) (column_names_ d).

Definition set_skip_initial_space (x : bool) (d : Dialect) : Dialect :=
  mkDialect (delimiter_ d) x (line_terminator_ d) (quote_character_ d)
    (double_quote_ d) (trim_characters_ d) (header_ d) (skip_empty_rows_ d)
    (ignore_columns_ d) (column_names_ d).

Definition set_skip_empty_rows (x : bool) (d : Dialect) : Dialect :=
  mkDialect (delimiter_ d) (skip_initial_space_ d) (line_terminator_ d)
    (quote_character_ d) (double_quote_ d) (trim_characters_ d) (header_ d) x
    (ignore_columns_ d) (column_names_ d).

Definition set_quote_character (x : ascii) (d : Dialect) : Dialect :=
  mkDialect (delimiter_ d) (skip_initial_space_ d) (line_terminator_ d) x
    (double_quote_ d) (trim_characters_ d) (header_ d) (skip_empty_rows_ d)
    (ignore_columns_ d) (column_names_ d).

Definition set_double_quote (x : bool) (d : Dialect) : Dialect :=
  mkDialect (delimiter_ d) (skip_initial_space_ d) (line_terminator_ d)
    (quote_character_ d) x (trim_characters_ d) (header_ d) (skip_empty_rows_ d)
    (ignore_columns_ d) (column_names_ d).

(** [trim_characters(c, ...)] pushes each character in turn. *)
Definition add_trim_characters (xs : list ascii) (d : Dialect) : Dialect :=
  mkDialect (delimiter_ d) (skip_initial_space_ d) (line_terminator_ d)
    (quote_character_ d) (double_quote_ d) (trim_characters_ d ++ xs) (header_ d)
    (skip_empty_rows_ d) (ignore_columns_ d) (column_names_ d).

(** [ignore_columns(c, ...)]: [ignore_columns_[c] = true] for each. *)
Definition add_ignore_columns (xs : list text) (d : Dialect) : Dialect :=
  mkDialect (delimiter_ d) (skip_initial_space_ d) (line_terminator_ d)
    (quote_character_ d) (double_quote_ d) (trim_characters_ d) (header_ d)
    (skip_empty_rows_ d)
    (foldl (λ m c, <[c := true]> m) (ignore_columns_ d) xs) (column_names_ d).

(** [column_names(...)] pushes each name in turn. *)
Definition add_column_names (xs : list text) (d : Dialect) : Dialect :=
  mkDialect (delimiter_ d) (skip_initial_space_ d) (line_terminator_ d)
    (quote_character_ d) (double_quote_ d) (trim_characters_ d) (header_ d)
    (skip_empty_rows_ d) (ignore_columns_ d) (column_names_ d ++ xs).

Definition set_header (x : bool) (d : Dialect) : Dialect :=
  mkDialect (delimiter_ d) (skip_initial_space_ d) (line_terminator_ d)
    (quote_character_ d) (double_quote_ d) (trim_characters_ d) x
    (skip_empty_rows_ d) (ignore_columns_ d) (column_names_ d).

(** ** Trimming: [ltrim], [rtrim], [trim] *)

Fixpoint drop_while {A} (p : A → bool) (l : list A) : list A :=
  match l with
  | [] => []
  | x :: l' => if p x then drop_while p l' else l
  end.

(** The predicate of the two lambdas, negated: [ch] is one of the
    [trim_characters_]. *)
Definition is_trim_character (d : Dialect) (ch : ascii) : bool :=
  bool_decide (ch ∈ trim_characters_ d).

Definition ltrim (d : Dialect) (input : text) : text :=
  drop_while (is_trim_character d) input.

Definition rtrim (d : Dialect) (input : text) : text :=
  rev (drop_while (is_trim_character d) (rev input)).

Definition trim (d : Dialect) (input : text) : text :=
  if length (trim_characters_ d) =? 0 then input else ltrim d (rtrim d input).

(** ** Outcomes of a member function

    A call returns normally, throws [std::runtime_error] (the object keeps the
    state it had when the exception left the function), indexes a vector out
    of range (undefined behaviour), or, in the model only, runs out of fuel;
    [split_total] shows that the last never happens. *)
Inductive outcome (S : Type) :=
| Returns (s : S)
| Throws (what : text) (s : S)
| Undefined
| OutOfFuel.
Arguments Returns {S} s.
Arguments Throws {S} what s.
Arguments Undefined {S}.
Arguments OutOfFuel {S}.

(** [dialects_[name]]: [operator[]] default-constructs a missing entry. *)
Definition subscript (dialects : gmap text Dialect) (name : text)
  : Dialect * gmap text Dialect :=
  match dialects !! name with
  | Some d => (d, dialects)
  | None => (Dialect_default, <[name := Dialect_default]> dialects)
  end.

(** The three dialects both constructors register. *)
Definition registered_dialects : gmap text Dialect :=
  <[txt "excel_tab" := set_delimiter [TAB] Dialect_default]>
    (<[txt "excel" := Dialect_default]>
       (<[txt "unix" := Dialect_default]> ∅)).

Module Reader.

(** The data members of [class Reader]. A row is a [string_map]. *)
Record t := mk {
  headers_ : list text;
  rows_ : list (gmap text text);
  columns_ : nat;
  expected_number_of_rows_ : nat;
  current_dialect_name_ : text;
  dialects_ : gmap text Dialect;
  current_dialect_ : Dialect;
  ignore_columns_enabled_ : bool;
  trimming_enabled_ : bool
}.

(** [Reader::Reader()] *)
Definition new : t :=
  {| headers_ := [];
     rows_ := [];
     columns_ := 0;
     expected_number_of_rows_ := 0;
     current_dialect_name_ := txt "excel";
     dialects_ := registered_dialects;
     current_dialect_ := Dialect_default;
     ignore_columns_enabled_ := false;
     trimming_enabled_ := false |}.

(** ** Reader::split *)

(** The variables of [split] that its loops update. [delimiter_detected] is
    local to one iteration of the outer loop in the source; the state keeps
    the value the last iteration left. *)
Record split_state := mkSplit {
  idx : nat;
  sub_result : text;
  quotes_encountered : nat;
  result : list text;
  delimiter_detected : bool
}.

Inductive flow := Continue | Break.

Section Split.
(** [current_dialect_], [trimming_enabled_], [columns_] and the argument. *)
Variable d : Dialect.
Variable trimming_enabled : bool.
Variable columns : nat.
Variable input_string : text.

Let input_string_size := length input_string.

(** [trimming_enabled_ ? trim(sub_result) : sub_result] *)
Definition flushed (sub : text) : text :=
  if trimming_enabled then trim d sub else sub.

(** One iteration of the inner [for (j ...)] loop, at index [j]. *)
Definition delimiter_body (j : nat) (st : split_state) : flow * split_state :=
  let i := idx st in
  let ch := char_at input_string i in
  if negb (bool_decide (ch = char_at (delimiter_ d) j)) then
    (Break, mkSplit i (sub_result st) (quotes_encountered st) (result st) false)
  else if j + 1 =? length (delimiter_ d) then
    if quotes_encountered st mod 2 =? 0 then
      let i' :=
        if (i + 1 <? input_string_size)
           && skip_initial_space_ d
           && bool_decide (char_at input_string (i + 1) = SPACE)
        then i + 1 else i in
      (Continue,
       mkSplit i' [] 0 (result st ++ [flushed (sub_result st)]) true)
    else
      let st' := mkSplit (i + 1) (sub_result st ++ [char_at input_string i])
                   (quotes_encountered st) (result st) (delimiter_detected st) in
      if i + 1 =? input_string_size then (Break, st') else (Continue, st')
  else
    let st' := mkSplit (i + 1) (sub_result st) (quotes_encountered st)
                 (result st) (delimiter_detected st) in
    if i + 1 =? input_string_size then (Break, st') else (Continue, st').

(** [for (size_t j = 0; j < delimiter_.size(); ++j)]: [fuel] counts the
    iterations left, [j + fuel = delimiter_.size()] throughout. *)
Fixpoint delimiter_loop (fuel j : nat) (st : split_state) : split_state :=
  match fuel with
  | 0 => st
  | S fuel' =>
      if j <? length (delimiter_ d) then
        match delimiter_body j st with
        | (Break, st') => st'
        | (Continue, st') => delimiter_loop fuel' (j + 1) st'
        end
      else st
  end.

(** The body of the outer loop, with the [++i] of the loop header. *)
Definition split_body (st : split_state) : split_state :=
  let st1 :=
    delimiter_loop (length (delimiter_ d)) 0
      (mkSplit (idx st) (sub_result st) (quotes_encountered st) (result st) false) in
  let i := idx st1 in
  let sub :=
    if negb (delimiter_detected st1)
    then sub_result st1 ++ [char_at input_string i]
    else sub_result st1 in
  let is_quote := bool_decide (char_at input_string i = quote_character_ d) in
  let q1 :=
    if is_quote then quotes_encountered st1 + 1 else quotes_encountered st1 in
  let q2 :=
    if is_quote && double_quote_ d && (2 <=? length sub)
       && bool_decide (char_at sub (length sub - 2) = char_at input_string i)
    then q1 - 1 else q1 in
  mkSplit (i + 1) sub q2 (result st1) (delimiter_detected st1).

(** [for (size_t i = 0; i < input_string_size; ++i)]. [None] is fuel
    exhausted; [split_loop_total] shows that the line's length is always
    enough. *)
Fixpoint split_loop (fuel : nat) (st : split_state) : option split_state :=
  if idx st <? input_string_size then
    match fuel with
    | 0 => None
    | S fuel' => split_loop fuel' (split_body st)
    end
  else Some st.

(** The state before the loop: [result] is [columns_] empty strings for an
    empty line. *)
Definition split_init : split_state :=
  mkSplit 0 [] 0
    (if bool_decide (input_string = []) then replicate columns [] else [])
    false.

(** [if (sub_result != "") result.push_back(...)] *)
Definition flush_last (st : split_state) : list text :=
  if bool_decide (sub_result st ≠ [])
  then result st ++ [flushed (sub_result st)]
  else result st.

(** The pad loop and the [resize]. *)
Definition pad_truncate (res : list text) : list text :=
  if length res <? columns then res ++ replicate (columns - length res) []
  else if (columns <? length res) && negb (columns =? 0) then take columns res
  else res.

(** The fields before the pad/truncate step. *)
Definition split_fields : option (list text) :=
  st ← split_loop input_string_size split_init;
  Some (flush_last st).

Definition split_with : option (list text) :=
  pad_truncate <$> split_fields.
End Split.

(** [split(input_string)] on a reader: the members it reads are
    [current_dialect_], [trimming_enabled_] and [columns_]. [None] is fuel
    exhausted. *)
Definition split (r : t) (input_string : text) : option (list text) :=
  split_with (current_dialect_ r) (trimming_enabled_ r) (columns_ r) input_string.

(** ** The input stream

    [std::getline] cuts the file at each newline; a last line without a newline
    is still a line, and nothing follows a final newline. *)
Fixpoint stream_lines (s : list ascii) : list text :=
  match s with
  | [] => []
  | c :: s' =>
      if bool_decide (c = NEWLINE) then [] :: stream_lines s'
      else match stream_lines s' with
           | [] => [[c]]
           | l :: ls => (c :: l) :: ls
           end
  end.

(** [if (line.size() > 0 && line[line.size() - 1] == '\r') line.pop_back();] *)
Definition strip_cr (line : text) : text :=
  if (0 <? length line) && bool_decide (char_at line (length line - 1) = CR)
  then take (length line - 1) line
  else line.

(** [line != "" || (!skip_empty_rows && line == "")] *)
Definition counted (skip_empty_rows : bool) (line : text) : bool :=
  bool_decide (line ≠ []) || (negb skip_empty_rows && bool_decide (line = [])).

(** The pre-scan loop of [read]: one increment per counted line. *)
Definition prescan (skip_empty_rows : bool) (lines : list text) (expected : nat) : nat :=
  foldl (λ e line, if counted skip_empty_rows (strip_cr line) then e + 1 else e)
        expected lines.

(** [std::to_string(i)] *)
Definition to_string (i : nat) : text :=
  txt (DecimalString.NilZero.string_of_uint (Nat.to_uint i)).

(** The row template: every header with an empty value, then the ignored
    columns erased when [ignore_columns_enabled_]. *)
Definition row_template (headers : list text) (enabled : bool)
    (ignore_columns : gmap text bool) : gmap text text :=
  let current_row := foldl (λ m header, <[header := []]> m) ∅ headers in
  if enabled
  then foldl (λ m kvpair, delete kvpair.1 m) current_row (map_to_list ignore_columns)
  else current_row.

(** [for (auto& value : split_result) { column_name = headers_[i++]; ... }];
    [None] when [headers_[i]] is out of range. *)
Fixpoint bind_row (headers : list text) (enabled : bool)
    (ignore_columns : gmap text bool) (i : nat) (values : list text)
    (current_row : gmap text text) : option (gmap text text) :=
  match values with
  | [] => Some current_row
  | value :: values' =>
      match headers !! i with
      | None => None
      | Some column_name =>
          bind_row headers enabled ignore_columns (i + 1) values'
            (if negb enabled || bool_decide (column_name ∉ dom ignore_columns)
             then <[column_name := value]> current_row
             else current_row)
      end
  end.

(** The [while (std::getline(stream, row))] loop of [read_internal] over the
    lines left in the stream; returns the rows pushed and [number_of_rows]. *)
Fixpoint parse_rows (r : t) (lines : list text) (number_of_rows : nat)
    (current_row : gmap text text) (rows : list (gmap text text))
  : outcome (list (gmap text text) * nat) :=
  match lines with
  | [] => Returns (rows, number_of_rows)
  | row :: lines' =>
      if number_of_rows =? expected_number_of_rows_ r then Returns (rows, number_of_rows)
      else
        let row := strip_cr row in
        if counted (skip_empty_rows_ (current_dialect_ r)) row then
          match split r row with
          | None => OutOfFuel
          | Some split_result =>
              match bind_row (headers_ r) (ignore_columns_enabled_ r)
                      (ignore_columns_ (current_dialect_ r)) 0 split_result current_row with
              | None => Undefined
              | Some current_row' =>
                  parse_rows r lines' (number_of_rows + 1) current_row'
                    (rows ++ [current_row'])
              end
          end
        else parse_rows r lines' number_of_rows current_row rows
  end.

Definition with_headers (r : t) (headers : list text) : t :=
  mk headers (rows_ r) (length headers) (expected_number_of_rows_ r)
     (current_dialect_name_ r) (dialects_ r) (current_dialect_ r)
     (ignore_columns_enabled_ r) (trimming_enabled_ r).

Definition with_rows (r : t) (rows : list (gmap text text)) : t :=
  mk (headers_ r) rows (columns_ r) (expected_number_of_rows_ r)
     (current_dialect_name_ r) (dialects_ r) (current_dialect_ r)
     (ignore_columns_enabled_ r) (trimming_enabled_ r).

(** The header [read_internal] derives from the first line, and the lines the
    row loop then reads: all of them again when there is no header row. *)
Definition derive_headers (r : t) (lines : list text) : option (list text) :=
  split_result ← split r (strip_cr (hd [] lines));
  Some (if header_ (current_dialect_ r) then split_result
        else if 0 <? length (column_names_ (current_dialect_ r))
             then column_names_ (current_dialect_ r)
             else to_string <$> seq 0 (length split_result)).

Definition data_lines (r : t) (lines : list text) : list text :=
  if header_ (current_dialect_ r) then tl lines else lines.

(** [read_internal(stream)], the stream given by its lines. The rows of the
    pass are pushed after the rows [rows_] held; those earlier rows stand in
    the result as they were, though the assignment to [headers_] has taken
    the strings their keys viewed (see the conventions above). *)
Definition read_internal (lines : list text) (r : t) : outcome t :=
  match derive_headers r lines with
  | None => OutOfFuel
  | Some headers =>
      let r1 := with_headers r headers in
      let current_row :=
        row_template headers (ignore_columns_enabled_ r1)
          (ignore_columns_ (current_dialect_ r1)) in
      match parse_rows r1 (data_lines r lines) 0 current_row (rows_ r1) with
      | Returns (rows, _) => Returns (with_rows r1 rows)
      | Throws what _ => Throws what r1
      | Undefined => Undefined
      | OutOfFuel => OutOfFuel
      end
  end.

(** [current_dialect_ = dialects_[current_dialect_name_];] *)
Definition load_dialect (r : t) : t :=
  let (dialect, dialects) := subscript (dialects_ r) (current_dialect_name_ r) in
  mk (headers_ r) (rows_ r) (columns_ r) (expected_number_of_rows_ r)
     (current_dialect_name_ r) dialects dialect
     (ignore_columns_enabled_ r) (trimming_enabled_ r).

(** The [if (rows > 0) ... else ...] of [read]: the caller's count, or the
    pre-scan of the whole stream, less one for a header row. *)
Definition count_rows (lines : list text) (rows : nat) (r : t) : t :=
  let expected :=
    if 0 <? rows then rows
    else
      let e := prescan (skip_empty_rows_ (current_dialect_ r)) lines
                 (expected_number_of_rows_ r) in
      if header_ (current_dialect_ r) && (0 <? e) then e - 1 else e in
  mk (headers_ r) (rows_ r) (columns_ r) expected
     (current_dialect_name_ r) (dialects_ r) (current_dialect_ r)
     (ignore_columns_enabled_ r) (trimming_enabled_ r).

(** The two [if (... .size() > 0) ..._enabled_ = true;] of [read]. *)
Definition enable_flags (r : t) : t :=
  mk (headers_ r) (rows_ r) (columns_ r) (expected_number_of_rows_ r)
     (current_dialect_name_ r) (dialects_ r) (current_dialect_ r)
     (if 0 <? size (ignore_columns_ (current_dialect_ r)) then true
      else ignore_columns_enabled_ r)
     (if 0 <? length (trim_characters_ (current_dialect_ r)) then true
      else trimming_enabled_ r).

(** The reader as [read] hands it to [read_internal]. *)
Definition prepare (lines : list text) (rows : nat) (r : t) : t :=
  enable_flags (count_rows lines rows (load_dialect r)).

(** [read(filename, rows)]; [fs] maps a file name to the file's bytes, [None]
    when it cannot be opened. *)
Definition read (fs : text → option (list ascii)) (filename : text) (rows : nat)
    (r : t) : outcome t :=
  match fs filename with
  | None => Throws (txt "error: Failed to open " ++ filename) (load_dialect r)
  | Some bytes =>
      let lines := stream_lines bytes in
      read_internal lines (prepare lines rows r)
  end.

(** [configure_dialect(dialect_name)]: the registry after the call; the
    reference it returns is the entry for [dialect_name]. *)
Definition configure_dialect (dialect_name : text) (r : t) : t :=
  match dialects_ r !! dialect_name with
  | Some _ => r
  | None =>
      mk (headers_ r) (rows_ r) (columns_ r) (expected_number_of_rows_ r)
         dialect_name (<[dialect_name := Dialect_default]> (dialects_ r))
         (current_dialect_ r) (ignore_columns_enabled_ r) (trimming_enabled_ r)
  end.

(** [use_dialect(dialect_name)] *)
Definition use_dialect (dialect_name : text) (r : t) : outcome t :=
  let r1 := mk (headers_ r) (rows_ r) (columns_ r) (expected_number_of_rows_ r)
              dialect_name (dialects_ r) (current_dialect_ r)
              (ignore_columns_enabled_ r) (trimming_enabled_ r) in
  match dialects_ r !! dialect_name with
  | None => Throws (txt "error: Dialect " ++ dialect_name ++ txt " not found") r1
  | Some _ => Returns r1
  end.

(** [list_dialects()]: the registered names, pushed in the order the hash
    table iterates, which the standard leaves open; the model lists them in the
    order of [map_to_list], and the statements about it hold up to order. *)
Definition list_dialects (r : t) : list text := (map_to_list (dialects_ r)).*1.

(** [get_dialect(dialect_name)] is [dialects_[dialect_name]]: the entry, and
    the reader whose registry holds it, default-constructed when it was
    missing. *)
Definition get_dialect (dialect_name : text) (r : t) : Dialect * t :=
  let (dialect, dialects) := subscript (dialects_ r) dialect_name in
  (dialect,
   mk (headers_ r) (rows_ r) (columns_ r) (expected_number_of_rows_ r)
      (current_dialect_name_ r) dialects (current_dialect_ r)
      (ignore_columns_enabled_ r) (trimming_enabled_ r)).

(** The setters [f] applied through the [Dialect&] that [configure_dialect]
    or [get_dialect] returned for [dialect_name]: the entry of the registry
    is updated in place. *)
Definition update_dialect (dialect_name : text) (f : Dialect → Dialect) (r : t) : t :=
  mk (headers_ r) (rows_ r) (columns_ r) (expected_number_of_rows_ r)
     (current_dialect_name_ r) (alter f dialect_name (dialects_ r))
     (current_dialect_ r) (ignore_columns_enabled_ r) (trimming_enabled_ r).

(** [rows()], [cols()] and [shape()] *)
Definition rows (r : t) : list (gmap text text) := rows_ r.

Definition cols (r : t) : list text := headers_ r.

Definition shape (r : t) : nat * nat := (expected_number_of_rows_ r, columns_ r).

End Reader.

(** ** class Writer *)

Module Writer.

(** The output stream: whether it is open, and the bytes inserted so far.
    An insertion into a stream that is not open is lost. *)
Record ofstream := mkStream {
  is_open : bool;
  written : list ascii
}.

Definition insert_text (s : ofstream) (row : text) : ofstream :=
  if is_open s then mkStream true (written s ++ row) else s.

Record t := mk {
  header_written_ : bool;
  stream_ : ofstream;
  current_row_entries_ : list text;
  current_dialect_name_ : text;
  dialects_ : gmap text Dialect
}.

(** [Writer::Writer(file_name)]; [opened] is whether [stream_.open] succeeded. *)
Definition new (opened : bool) : t :=
  {| header_written_ := false;
     stream_ := mkStream opened [];
     current_row_entries_ := [];
     current_dialect_name_ := txt "excel";
     dialects_ := registered_dialects |}.

(** The loop shared by [write_header] and [write_row]: each entry, and the
    delimiter after it unless it is the last. *)
Fixpoint join (delimiter : text) (entries : list text) : text :=
  match entries with
  | [] => []
  | entry :: entries' =>
      entry ++ (if 0 <? length entries' then delimiter else []) ++ join delimiter entries'
  end.

(** [write_header()] *)
Definition write_header (w : t) : t :=
  let (dialect, dialects) := subscript (dialects_ w) (current_dialect_name_ w) in
  let w1 := mk (header_written_ w) (stream_ w) (current_row_entries_ w)
              (current_dialect_name_ w) dialects in
  if length (column_names_ dialect) =? 0 then w1
  else
    let row := join (delimiter_ dialect) (column_names_ dialect)
               ++ [line_terminator_ dialect] in
    mk (header_written_ w1) (insert_text (stream_ w1) row) (current_row_entries_ w1)
       (current_dialect_name_ w1) dialects.

(** [write_row()]: writes [current_row_entries_] and clears it. *)
Definition write_current_row (w : t) : t :=
  let w1 :=
    if negb (header_written_ w) then
      let w' := write_header w in
      mk true (stream_ w') (current_row_entries_ w') (current_dialect_name_ w')
         (dialects_ w')
    else w in
  let (dialect, dialects) := subscript (dialects_ w1) (current_dialect_name_ w1) in
  let row := join (delimiter_ dialect) (current_row_entries_ w1)
             ++ [line_terminator_ dialect] in
  mk (header_written_ w1) (insert_text (stream_ w1) row) []
     (current_dialect_name_ w1) dialects.

(** [write_row(const std::vector<std::string>& row_entries)] *)
Definition write_row (row_entries : list text) (w : t) : t :=
  write_current_row
    (mk (header_written_ w) (stream_ w) row_entries (current_dialect_name_ w)
        (dialects_ w)).

(** [write_row(entry, ...)]: pushes each entry, then [write_row()]. *)
Definition write_row_entries (entries : list text) (w : t) : t :=
  write_current_row
    (mk (header_written_ w) (stream_ w) (current_row_entries_ w ++ entries)
        (current_dialect_name_ w) (dialects_ w)).

(** [close()] *)
Definition close (w : t) : t :=
  mk (header_written_ w) (mkStream false (written (stream_ w)))
     (current_row_entries_ w) (current_dialect_name_ w) (dialects_ w).

(** [configure_dialect(dialect_name)], as in the reader. *)
Definition configure_dialect (dialect_name : text) (w : t) : t :=
  match dialects_ w !! dialect_name with
  | Some _ => w
  | None =>
      mk (header_written_ w) (stream_ w) (current_row_entries_ w) dialect_name
         (<[dialect_name := Dialect_default]> (dialects_ w))
  end.

Definition list_dialects (w : t) : list text := (map_to_list (dialects_ w)).*1.

(** [get_dialect(dialect_name)] *)
Definition get_dialect (dialect_name : text) (w : t) : Dialect * t :=
  let (dialect, dialects) := subscript (dialects_ w) dialect_name in
  (dialect,
   mk (header_written_ w) (stream_ w) (current_row_entries_ w)
      (current_dialect_name_ w) dialects).

(** The setters [f] applied through a returned [Dialect&]. *)
Definition update_dialect (dialect_name : text) (f : Dialect → Dialect) (w : t) : t :=
  mk (header_written_ w) (stream_ w) (current_row_entries_ w)
     (current_dialect_name_ w) (alter f dialect_name (dialects_ w)).

(** [use_dialect(dialect_name)] *)
Definition use_dialect (dialect_name : text) (w : t) : outcome t :=
  let w1 := mk (header_written_ w) (stream_ w) (current_row_entries_ w)
              dialect_name (dialects_ w) in
  match dialects_ w !! dialect_name with
  | None => Throws (txt "error: Dialect " ++ dialect_name ++ txt " not found") w1
  | Some _ => Returns w1
  end.

(** [row_map[key]] on the copy of the map that [write_row(T row_map)] owns:
    a missing key is inserted with the empty string. *)
Definition map_subscript (row_map : gmap text text) (key : text)
  : text * gmap text text :=
  match row_map !! key with
  | Some value => (value, row_map)
  | None => ([], <[key := []]> row_map)
  end.

(** [for (i ...) current_row_entries_.push_back(row_map[column_names[i]]);] *)
Fixpoint push_entries (column_names : list text) (row_map : gmap text text)
    (entries : list text) : list text :=
  match column_names with
  | [] => entries
  | name :: column_names' =>
      let (value, row_map') := map_subscript row_map name in
      push_entries column_names' row_map' (entries ++ [value])
  end.

(** [write_row(T row_map)] for a [std::map] or [std::unordered_map] *)
Definition write_row_map (row_map : gmap text text) (w : t) : t :=
  let (dialect, dialects) := subscript (dialects_ w) (current_dialect_name_ w) in
  write_current_row
    (mk (header_written_ w) (stream_ w)
        (push_entries (column_names_ dialect) row_map (current_row_entries_ w))
        (current_dialect_name_ w) dialects).

End Writer.

(** * Vocabulary of the statements *)

(** One iteration of the outer loop of [split], as a relation on its states. *)
Definition split_step (d : Dialect) (trimming_enabled : bool) (input_string : text)
    (st st' : Reader.split_state) : Prop :=
  Reader.idx st < length input_string
  ∧ st' = Reader.split_body d trimming_enabled input_string st.

(** The open-quote counter after the two quote tests that end the loop body,
    for the character [c] just read and the accumulator [sub] it now ends. *)
Definition count_quote (d : Dialect) (c : ascii) (sub : text) (quotes : nat) : nat :=
  let q1 := if bool_decide (c = quote_character_ d) then quotes + 1 else quotes in
  if bool_decide (c = quote_character_ d) && double_quote_ d && (2 <=? length sub)
     && bool_decide (char_at sub (length sub - 2) = c)
  then q1 - 1 else q1.

(** Reference splitter: the naive split of a line on the substring [D],
    cutting at each leftmost occurrence of [D] and keeping every piece, the
    empty ones too. [skip] counts the characters of a matched [D] still to
    pass over; [cur] is the piece being collected. *)
Fixpoint naive_split_from (D : text) (skip : nat) (cur line : text) : list text :=
  match line with
  | [] => [cur]
  | c :: rest =>
      match skip with
      | S skip' => naive_split_from D skip' cur rest
      | 0 =>
          if bool_decide (D `prefix_of` line)
          then cur :: naive_split_from D (length D - 1) [] rest
          else naive_split_from D 0 (cur ++ [c]) rest
      end
  end.

Definition naive_split (D line : text) : list text := naive_split_from D 0 [] line.

(** The delimiter's first character occurs in the line only where the naive
    split cuts: no piece of the naive split holds it. Always so for a
    delimiter of one character. *)
Definition no_partial_match (D line : text) : Prop :=
  Forall (Forall (λ c, hd_error D ≠ Some c)) (naive_split D line).

(** A field sequence without its last field when that one is empty: what
    the end-of-line flush of [split] leaves of it. *)
Definition drop_last_empty (fields : list text) : list text :=
  if bool_decide (List.last fields [] = []) then removelast fields else fields.

(** A line of the shape the field lemmas scan: a field, then delimiter and
    field any number of times. *)
Definition fields_line (D : text) (f : text) (fs : list text) : text :=
  f ++ concat (map (app D) fs).

(** No character of the field starts the delimiter or is the quote character. *)
Definition plain_field (d : Dialect) (f : text) : Prop :=
  Forall (λ c, hd_error (delimiter_ d) ≠ Some c ∧ c ≠ quote_character_ d) f.

(** A field wrapped in the quote character, under a one-character delimiter
    other than the quote character: the text between the two quote characters
    holds no quote character (it may hold the delimiter) and, with
    double-quote escaping on, is not empty. *)
Definition quoted_field (d : Dialect) (f : text) : Prop :=
  ∃ c body,
    delimiter_ d = [c] ∧ c ≠ quote_character_ d
    ∧ f = quote_character_ d :: body ++ [quote_character_ d]
    ∧ (quote_character_ d ∉ body)
    ∧ (double_quote_ d = true → body ≠ []).

Definition scannable_field (d : Dialect) (f : text) : Prop :=
  plain_field d f ∨ quoted_field d f.

(** With [skip_initial_space_] set, no delimiter of the line is followed by a
    space: neither a later field nor the delimiter begins with one. *)
Definition no_space_skipped (d : Dialect) (fs : list text) : Prop :=
  skip_initial_space_ d = false
  ∨ (hd_error (delimiter_ d) ≠ Some SPACE
     ∧ Forall (λ g, hd_error g ≠ Some SPACE) fs).

(** [D] occurs in [s] as a substring. *)
Fixpoint has_substring (D s : text) : bool :=
  bool_decide (D `prefix_of` s)
  || match s with
     | [] => false
     | _ :: s' => has_substring D s'
     end.

(** The end-of-line step a tokenizer that keeps trailing empty fields would
    take: the accumulator is pushed whatever it holds. *)
Definition flush_always (d : Dialect) (trimming_enabled : bool)
    (st : Reader.split_state) : list text :=
  Reader.result st ++ [Reader.flushed d trimming_enabled (Reader.sub_result st)].

(** A reader that has established [headers] under the dialect [d]. *)
Definition reader_with (d : Dialect) (trimming_enabled : bool)
    (headers : list text) : Reader.t :=
  Reader.mk headers [] (length headers) 0 (txt "excel")
    (<[txt "excel" := d]> registered_dialects) d
    (bool_decide (ignore_columns_ d ≠ ∅)) trimming_enabled.

(** A text between two quote characters, and the lines of the two quoting
    scenarios: in the first the second field is [b,c] wrapped in quotes, in
    the second it is [b], a doubled quote and [c], wrapped in quotes. *)
Definition quoted (s : text) : text := [DQUOTE] ++ s ++ [DQUOTE].

Definition line_quoted_comma : text :=
  txt "a," ++ quoted (txt "b,c") ++ txt ",d".

Definition line_doubled_quote : text :=
  txt "a," ++ quoted (txt "b" ++ [DQUOTE; DQUOTE] ++ txt "c") ++ txt ",d".

(** The number of lines the readers' loops count: not empty once a trailing
    carriage return is stripped, or empty and not skipped. *)
Definition counted_lines (skip_empty_rows : bool) (lines : list text) : nat :=
  length (List.filter (λ line, Reader.counted skip_empty_rows (Reader.strip_cr line))
            lines).

(** A line that holds nothing, or nothing but a carriage return. *)
Definition blank_line (line : text) : bool :=
  bool_decide (line = []) || bool_decide (line = [CR]).

(** The lines a pass takes into account: all of them when [skip_empty_rows]
    is off, those that are not blank when it is on. *)
Definition lines_taken (skip_empty_rows : bool) (lines : list text) : list text :=
  List.filter (λ line, negb skip_empty_rows || negb (blank_line line)) lines.

(** The rows a pass has pushed when it takes the reader from [r] to [r']:
    the rows of [r'] after those [r] held. Their keys are views of the
    [headers_] the pass assigned. *)
Definition pass_rows (r r' : Reader.t) : list (gmap text text) :=
  drop (length (Reader.rows r)) (Reader.rows r').

(** The keys every row of a pass must have: the header's names less the
    ignored ones. *)
Definition row_keys (headers : list text) (ignore_columns : gmap text bool)
  : gset text :=
  list_to_set headers ∖ dom ignore_columns.

(** A reader just constructed whose "excel" dialect has been configured to
    [d] through the reference [configure_dialect] returns. *)
Definition configured_reader (d : Dialect) : Reader.t :=
  Reader.mk [] [] 0 0 (txt "excel") (<[txt "excel" := d]> registered_dialects)
    Dialect_default false false.

(** A file system with one file, whatever its name. *)
Definition one_file (bytes : list ascii) : text → option (list ascii) :=
  λ _, Some bytes.

(** Three lines: a header [a,b,c], a full row and a short one. *)
Definition abc_file : list ascii :=
  txt "a,b,c" ++ [NEWLINE] ++ txt "1,2,3" ++ [CR; NEWLINE] ++ txt "4,5" ++ [NEWLINE].

(** The same three lines with an empty line after the header and a line of
    a lone carriage return after the first row. *)
Definition gaps_file : list ascii :=
  txt "a,b,c" ++ [NEWLINE; NEWLINE] ++ txt "1,2,3" ++ [CR; NEWLINE; CR; NEWLINE]
  ++ txt "4,5" ++ [NEWLINE].

(** The dialect a writer works under: [dialects_[current_dialect_name_]]. *)
Definition writer_dialect (w : Writer.t) : Dialect :=
  (subscript (Writer.dialects_ w) (Writer.current_dialect_name_ w)).1.

(** A written line: the entries joined by the delimiter, then the line
    terminator. *)
Definition written_line (d : Dialect) (entries : list text) : text :=
  Writer.join (delimiter_ d) entries ++ [line_terminator_ d].

(** The header line of a dialect: nothing without column names. *)
Definition header_line (d : Dialect) : text :=
  match column_names_ d with
  | [] => []
  | _ => written_line d (column_names_ d)
  end.

(** A writer on an open stream, just constructed, whose "excel" dialect has
    been configured to [d]. *)
Definition configured_writer (d : Dialect) : Writer.t :=
  Writer.mk false (Writer.mkStream true []) [] (txt "excel")
    (<[txt "excel" := d]> registered_dialects).

(** The text a scan state stands for: each pushed field followed by the
    one-character delimiter [c], then the accumulator. *)
Definition rejoined (c : ascii) (st : Reader.split_state) : text :=
  concat ((λ f, f ++ [c]) <$> Reader.result st) ++ Reader.sub_result st.

(** A text that neither begins nor ends with a trim character of [d]. *)
Definition trimmed (d : Dialect) (f : text) : Prop :=
  ∀ c, head f = Some c ∨ last f = Some c → c ∉ trim_characters_ d.

(** The dialect a [read] loads: [dialects_[current_dialect_name_]]. *)
Definition reader_dialect (r : Reader.t) : Dialect :=
  (subscript (Reader.dialects_ r) (Reader.current_dialect_name_ r)).1.

(** The row a line's fields make under a header: each name that is not
    ignored bound to the field at its position, the last position when the
    name occurs more than once. *)
Definition row_of (headers : list text) (ignore_columns : gmap text bool)
    (fields : list text) : gmap text text :=
  list_to_map
    (reverse (filter (λ hv, hv.1 ∉ dom ignore_columns) (zip headers fields))).

(** The lines the readers' loops count, each without its carriage return. *)
Definition eligible_lines (skip_empty_rows : bool) (lines : list text) : list text :=
  List.filter (Reader.counted skip_empty_rows) (Reader.strip_cr <$> lines).

(** A reader without its two flags, and an outcome seen through a function
    of the state. *)
Definition forget_flags (r : Reader.t) : Reader.t :=
  Reader.mk (Reader.headers_ r) (Reader.rows_ r) (Reader.columns_ r)
    (Reader.expected_number_of_rows_ r) (Reader.current_dialect_name_ r)
    (Reader.dialects_ r) (Reader.current_dialect_ r) false false.

Definition outcome_map {S T} (f : S → T) (o : outcome S) : outcome T :=
  match o with
  | Returns s => Returns (f s)
  | Throws what s => Throws what (f s)
  | Undefined => Undefined
  | OutOfFuel => OutOfFuel
  end.

(** Two readers that differ in their flags only where the dialect gives the
    flag nothing to do. *)
Definition same_but_idle_flags (r r2 : Reader.t) : Prop :=
  forget_flags r = forget_flags r2
  ∧ (Reader.trimming_enabled_ r = Reader.trimming_enabled_ r2
     ∨ trim_characters_ (Reader.current_dialect_ r) = [])
  ∧ (Reader.ignore_columns_enabled_ r = Reader.ignore_columns_enabled_ r2
     ∨ ignore_columns_ (Reader.current_dialect_ r) = ∅).

(** A call of one of the overloads of [write_row]: the vector, the
    parameter pack, the map. *)
Inductive write_call :=
| WriteVector (row_entries : list text)
| WriteEntries (entries : list text)
| WriteMap (row_map : gmap text text).

Definition call (w : Writer.t) (c : write_call) : Writer.t :=
  match c with
  | WriteVector row_entries => Writer.write_row row_entries w
  | WriteEntries entries => Writer.write_row_entries entries w
  | WriteMap row_map => Writer.write_row_map row_map w
  end.

(** The values of a map at the column names of [d], the empty string for a
    name the map does not hold. *)
Definition map_entries (d : Dialect) (row_map : gmap text text) : list text :=
  (λ name, default [] (row_map !! name)) <$> column_names_ d.

(** The entries a call hands to the stream. *)
Definition call_entries (d : Dialect) (c : write_call) : list text :=
  match c with
  | WriteVector row_entries => row_entries
  | WriteEntries entries => entries
  | WriteMap row_map => map_entries d row_map
  end.

(** A field that survives the way to a file and back under the dialect [d]:
    no character that starts the delimiter, no quote character, no line
    break, and no trim character at either end. *)
Definition portable_field (d : Dialect) (f : text) : Prop :=
  plain_field d f ∧ (NEWLINE ∉ f) ∧ (CR ∉ f) ∧ trimmed d f.

Definition portable_row (d : Dialect) (fields : list text) : Prop :=
  Forall (portable_field d) fields ∧ no_space_skipped d (tl fields).

(** A dialect under which the writer's lines are the reader's lines: the
    reader cuts lines at the newline character whatever [line_terminator_]
    is, and takes the first line for the header. *)
Definition portable_dialect (d : Dialect) : Prop :=
  header_ d = true
  ∧ line_terminator_ d = NEWLINE
  ∧ delimiter_ d ≠ []
  ∧ (NEWLINE ∉ delimiter_ d)
  ∧ (CR ∉ delimiter_ d)
  ∧ char_at (delimiter_ d) (length (delimiter_ d) - 1) ≠ quote_character_ d.

(** The quote characters of [s] that the tokenizer counts: all of them
    without double-quote escaping, and with it those that do not follow a
    quote character; [prev] is the character before [s] in the accumulator. *)
Fixpoint counted_quotes (d : Dialect) (prev : option ascii) (s : text) : nat :=
  match s with
  | [] => 0
  | ch :: s' =>
      (if bool_decide (ch = quote_character_ d)
          && negb (double_quote_ d && bool_decide (prev = Some (quote_character_ d)))
       then 1 else 0)
      + counted_quotes d (Some ch) s'
  end.

(** * The scan loop of [Reader::split] *)

Lemma char_at_middle (pre s rest : text) k :
  k < length s → char_at (pre ++ s ++ rest) (length pre + k) = char_at s k.
Proof.
  intros Hk. unfold char_at.
  rewrite app_nth2, app_nth1; [f_equal; lia|lia|lia].
Qed.

Lemma last_cons_default {A} (x y : A) l : List.last (x :: l) y = List.last l x.
Proof.
  revert x y. induction l as [|z l IH]; intros x y; [done|].
  change (List.last (x :: z :: l) y) with (List.last (z :: l) y).
  by rewrite !IH.
Qed.

Lemma char_at_head (pre : text) c rest :
  char_at (pre ++ c :: rest) (length pre) = c.
Proof.
  pose proof (char_at_middle pre [c] rest 0 ltac:(simpl; lia)) as H.
  by rewrite Nat.add_0_r in H.
Qed.

Section ScanLoop.
Variable d : Dialect.
Variable trimming_enabled : bool.
Variable input_string : text.

Local Abbreviation n := (length input_string).
Local Abbreviation body := (Reader.split_body d trimming_enabled input_string).
Local Abbreviation loop := (Reader.split_loop d trimming_enabled input_string).
Local Abbreviation inner := (Reader.delimiter_loop d trimming_enabled input_string).
Local Abbreviation split_step := (split_step d trimming_enabled input_string).
Local Abbreviation count_quote := (count_quote d).

Lemma split_loop_eq fuel st :
  loop fuel st =
  if Reader.idx st <? n then
    match fuel with 0 => None | S fuel' => loop fuel' (body st) end
  else Some st.
Proof. destruct fuel; reflexivity. Qed.

(** The inner loop only moves the index forward. *)
Lemma delimiter_loop_idx_le fuel : ∀ j st,
  Reader.idx st ≤ Reader.idx (inner fuel j st).
Proof.
  induction fuel as [|fuel IH]; intros j st; simpl; [lia|].
  destruct (j <? length (delimiter_ d)); [|lia].
  unfold Reader.delimiter_body.
  repeat (case_match; simpl in *; simplify_eq); simpl; try lia;
    (etrans; [|apply IH]); simpl; lia.
Qed.

(** After the inner loop the index is at most the line's length: the loop
    body reads [input_string[i]] only where [std::string] defines it. *)
Lemma delimiter_loop_idx_bound fuel : ∀ j st,
  Reader.idx st < n → Reader.idx (inner fuel j st) ≤ n.
Proof.
  induction fuel as [|fuel IH]; intros j st Hlt; simpl; [lia|].
  destruct (j <? length (delimiter_ d)); [|lia].
  unfold Reader.delimiter_body.
  destruct (negb _); [simpl; lia|].
  destruct (_ =? length (delimiter_ d)).
  - destruct (_ =? 0).
    + destruct (Nat.ltb_spec (Reader.idx st + 1) n); simpl.
      * destruct (_ && _); apply IH; simpl; lia.
      * apply IH; simpl; lia.
    + destruct (Nat.eqb_spec (Reader.idx st + 1) n); simpl; [lia|].
      apply IH; simpl; lia.
  - destruct (Nat.eqb_spec (Reader.idx st + 1) n); simpl; [lia|].
    apply IH; simpl; lia.
Qed.

(** Every iteration of the outer loop advances the index. *)
Lemma split_body_idx_lt st : Reader.idx st < Reader.idx (body st).
Proof.
  unfold Reader.split_body; simpl.
  match goal with |- _ < Reader.idx (inner ?f ?j ?s) + 1 =>
    pose proof (delimiter_loop_idx_le f j s) as H end.
  simpl in H. lia.
Qed.

(** The line's length is fuel enough: the loop ends by its own test. *)
Lemma split_loop_total fuel : ∀ st,
  n - Reader.idx st ≤ fuel → is_Some (loop fuel st).
Proof.
  induction fuel as [|fuel IH]; intros st Hf; rewrite split_loop_eq.
  - destruct (Nat.ltb_spec (Reader.idx st) n); [lia|eauto].
  - destruct (Nat.ltb_spec (Reader.idx st) n); [|eauto].
    apply IH. pose proof (split_body_idx_lt st). lia.
Qed.

Lemma split_loop_steps st st' :
  rtc split_step st st' → n ≤ Reader.idx st' →
  ∀ fuel, n - Reader.idx st ≤ fuel → loop fuel st = Some st'.
Proof.
  induction 1 as [st|st st1 st' [Hlt ->] _ IH]; intros Hend fuel Hf;
    rewrite split_loop_eq.
  - destruct (Nat.ltb_spec (Reader.idx st) n); [lia|done].
  - destruct (Nat.ltb_spec (Reader.idx st) n); [|lia].
    destruct fuel as [|fuel]; [lia|].
    apply IH; [done|]. pose proof (split_body_idx_lt st). lia.
Qed.

(** *** What one iteration does *)

Local Abbreviation quote := (quote_character_ d).
Local Abbreviation flushed := (Reader.flushed d trimming_enabled).

Lemma count_quote_other c sub quotes :
  c ≠ quote → count_quote c sub quotes = quotes.
Proof.
  intros Hc. unfold count_quote.
  rewrite (bool_decide_eq_false_2 _ Hc). done.
Qed.

(** A character that does not start the delimiter is appended to the
    accumulator; no field is pushed. *)
Lemma body_no_delimiter st :
  (∀ d0 D', delimiter_ d = d0 :: D' → char_at input_string (Reader.idx st) ≠ d0) →
  body st =
  Reader.mkSplit (Reader.idx st + 1)
    (Reader.sub_result st ++ [char_at input_string (Reader.idx st)])
    (count_quote (char_at input_string (Reader.idx st))
       (Reader.sub_result st ++ [char_at input_string (Reader.idx st)])
       (Reader.quotes_encountered st))
    (Reader.result st) false.
Proof.
  intros Hc. unfold Reader.split_body, count_quote.
  destruct (delimiter_ d) as [|d0 D'] eqn:HD; simpl.
  - done.
  - unfold Reader.delimiter_body; simpl. rewrite HD; simpl.
    rewrite bool_decide_eq_false_2; [|by apply (Hc d0 D')]. done.
Qed.

(** The inner loop on a full delimiter match outside a quoted span: the
    field is pushed and the index rests on the delimiter's last character,
    or on the space skipped after it. *)
Lemma delimiter_loop_accept fuel : ∀ j st,
  0 < fuel → j + fuel = length (delimiter_ d) →
  (∀ k, k < fuel →
     char_at input_string (Reader.idx st + k) = char_at (delimiter_ d) (j + k)) →
  Reader.idx st + fuel ≤ n →
  Reader.quotes_encountered st mod 2 = 0 →
  inner fuel j st =
  let i := Reader.idx st + fuel - 1 in
  Reader.mkSplit
    (if (i + 1 <? n) && skip_initial_space_ d
        && bool_decide (char_at input_string (i + 1) = SPACE)
     then i + 1 else i)
    [] 0 (Reader.result st ++ [flushed (Reader.sub_result st)]) true.
Proof.
  induction fuel as [|fuel IH]; intros j st Hpos Hj Hmatch Hn Heven; [lia|].
  simpl. destruct (Nat.ltb_spec j (length (delimiter_ d))); [|lia].
  unfold Reader.delimiter_body.
  pose proof (Hmatch 0 ltac:(lia)) as H0. rewrite !Nat.add_0_r in H0.
  rewrite (bool_decide_eq_true_2 _ H0). cbn [negb].
  destruct (Nat.eqb_spec (j + 1) (length (delimiter_ d))) as [Hlast|Hmore].
  - assert (fuel = 0) as -> by lia.
    rewrite Heven. simpl.
    replace (Reader.idx st + 1 - 1) with (Reader.idx st) by lia. done.
  - destruct (Nat.eqb_spec (Reader.idx st + 1) n); [lia|].
    rewrite IH; simpl; try lia; try done.
    + replace (Reader.idx st + 1 + fuel - 1) with (Reader.idx st + S fuel - 1) by lia.
      done.
    + intros k Hk. specialize (Hmatch (S k) ltac:(lia)).
      replace (Reader.idx st + 1 + k) with (Reader.idx st + S k) by lia.
      replace (j + 1 + k) with (j + S k) by lia. done.
Qed.

Lemma body_delimiter_accept st :
  delimiter_ d ≠ [] →
  (∀ k, k < length (delimiter_ d) →
     char_at input_string (Reader.idx st + k) = char_at (delimiter_ d) k) →
  Reader.idx st + length (delimiter_ d) ≤ n →
  Reader.quotes_encountered st mod 2 = 0 →
  body st =
  let i := Reader.idx st + length (delimiter_ d) - 1 in
  let i' := if (i + 1 <? n) && skip_initial_space_ d
               && bool_decide (char_at input_string (i + 1) = SPACE)
            then i + 1 else i in
  Reader.mkSplit (i' + 1) []
    (if bool_decide (char_at input_string i' = quote) then 1 else 0)
    (Reader.result st ++ [flushed (Reader.sub_result st)]) true.
Proof.
  intros HD Hmatch Hn Heven. unfold Reader.split_body.
  rewrite delimiter_loop_accept; simpl; try done.
  - rewrite !andb_false_r. by case_bool_decide.
  - destruct (delimiter_ d); [done|simpl; lia].
Qed.

(** The inner loop never pushes a field when it is entered with an odd
    open-quote counter; it can only extend the accumulator. *)
Lemma delimiter_loop_odd fuel : ∀ j st,
  Reader.quotes_encountered st mod 2 = 1 →
  Reader.delimiter_detected st = false →
  let st' := inner fuel j st in
  Reader.result st' = Reader.result st
  ∧ Reader.quotes_encountered st' = Reader.quotes_encountered st
  ∧ Reader.delimiter_detected st' = false
  ∧ Reader.sub_result st `prefix_of` Reader.sub_result st'.
Proof.
  induction fuel as [|fuel IH]; intros j st Hodd Hdet; simpl; [done|].
  destruct (j <? length (delimiter_ d)); [|done].
  unfold Reader.delimiter_body. rewrite Hodd. simpl.
  repeat (case_match; simpl in *; simplify_eq); simpl; try done.
  - split_and!; try done. by apply prefix_app_r.
  - edestruct (IH (j + 1)) as (-> & -> & -> & Hp); [..|split_and!; try done].
    + done.
    + done.
    + simpl in Hp. etrans; [|exact Hp]. by apply prefix_app_r.
  - by edestruct (IH (j + 1)) as (-> & -> & -> & Hp).
Qed.

Lemma body_odd_no_push st :
  Reader.quotes_encountered st mod 2 = 1 →
  Reader.result (body st) = Reader.result st
  ∧ Reader.delimiter_detected (body st) = false
  ∧ ∃ s, s ≠ [] ∧ Reader.sub_result (body st) = Reader.sub_result st ++ s.
Proof.
  intros Hodd. unfold Reader.split_body.
  match goal with |- context [inner ?f ?j ?s] =>
    destruct (delimiter_loop_odd f j s Hodd eq_refl) as (Hr & _ & Hd & [s' Hs]) end.
  simpl in *. rewrite Hr, Hd, Hs. simpl. split_and!; try done.
  eexists (s' ++ [_]). rewrite <- app_assoc. split; [|done].
  by destruct s'.
Qed.

(** When the inner loop reports a delimiter, the accumulator has just been
    emptied. *)
Lemma delimiter_loop_detected fuel : ∀ j st,
  Reader.delimiter_detected st = false →
  Reader.delimiter_detected (inner fuel j st) = true →
  Reader.sub_result (inner fuel j st) = [].
Proof.
  induction fuel as [|fuel IH]; intros j st Hdet; simpl; [congruence|].
  destruct (j <? length (delimiter_ d)); [|congruence].
  unfold Reader.delimiter_body.
  destruct (negb _); [done|].
  destruct (Nat.eqb_spec (j + 1) (length (delimiter_ d))) as [Hlast|Hmore].
  - destruct (_ =? 0).
    + intros _. destruct fuel; simpl; [done|].
      destruct (Nat.ltb_spec (j + 1) (length (delimiter_ d))); [lia|done].
    + destruct (_ =? n); simpl; [congruence|]. by apply IH.
  - destruct (_ =? n); simpl; [congruence|]. by apply IH.
Qed.

Lemma body_detected st :
  Reader.delimiter_detected (body st) = true → Reader.sub_result (body st) = [].
Proof.
  unfold Reader.split_body. simpl. intros Hdet. rewrite Hdet. simpl.
  by apply delimiter_loop_detected.
Qed.

(** After at least one iteration the final state is the outcome of a loop
    body. *)
Lemma split_loop_last fuel : ∀ st st',
  loop fuel st = Some st' → Reader.idx st < n → ∃ prev, st' = body prev.
Proof.
  induction fuel as [|fuel IH]; intros st st'; rewrite split_loop_eq;
    destruct (Nat.ltb_spec (Reader.idx st) n); try done; try lia.
  intros Hloop _. rewrite split_loop_eq in Hloop.
  destruct (Nat.ltb_spec (Reader.idx (body st)) n).
  - destruct fuel; [done|]. apply (IH (body st)); [|done].
    by rewrite split_loop_eq, (proj2 (Nat.ltb_lt _ _)).
  - simplify_eq. by eexists.
Qed.

(** *** Scanning a line made of fields and delimiters *)

(** A run of characters none of which starts the delimiter or is the quote
    character goes to the accumulator as it is. *)
Lemma scan_plain f : ∀ pre rest st,
  input_string = pre ++ f ++ rest →
  Reader.idx st = length pre →
  Forall (λ c, hd_error (delimiter_ d) ≠ Some c ∧ c ≠ quote) f →
  rtc split_step st
    (Reader.mkSplit (Reader.idx st + length f) (Reader.sub_result st ++ f)
       (Reader.quotes_encountered st) (Reader.result st)
       (match f with [] => Reader.delimiter_detected st | _ => false end)).
Proof.
  induction f as [|c f IH]; intros pre rest st Hin Hidx Hclean.
  - simpl. rewrite Nat.add_0_r, app_nil_r. destruct st; apply rtc_refl.
  - apply Forall_cons in Hclean as [[Hc Hq] Hclean].
    assert (char_at input_string (Reader.idx st) = c) as Hch.
    { rewrite Hin, Hidx. apply char_at_head. }
    eapply rtc_l.
    { split; [|reflexivity]. rewrite Hin, Hidx, !length_app. simpl. lia. }
    rewrite body_no_delimiter, Hch, count_quote_other; try done.
    2:{ intros d0 D' HD. rewrite Hch. rewrite HD in Hc. simpl in Hc. congruence. }
    eapply rtc_trans.
    { apply (IH (pre ++ [c]) rest); simpl; [|rewrite length_app; simpl; lia|done].
      by rewrite Hin, <- app_assoc. }
    simpl. rewrite <- app_assoc. simpl.
    replace (Reader.idx st + 1 + length f) with (Reader.idx st + S (length f)) by lia.
    destruct f; apply rtc_refl.
Qed.

(** A run of characters none of which starts the delimiter goes to the
    accumulator as it is, the quote characters in it included. *)
Lemma scan_verbatim f : ∀ pre rest st,
  input_string = pre ++ f ++ rest →
  Reader.idx st = length pre →
  Forall (λ c, hd_error (delimiter_ d) ≠ Some c) f →
  ∃ q b, rtc split_step st
           (Reader.mkSplit (Reader.idx st + length f) (Reader.sub_result st ++ f)
              q (Reader.result st) b).
Proof.
  induction f as [|c f IH]; intros pre rest st Hin Hidx Hclean.
  - exists (Reader.quotes_encountered st), (Reader.delimiter_detected st).
    simpl. rewrite Nat.add_0_r, app_nil_r. destruct st; apply rtc_refl.
  - apply Forall_cons in Hclean as [Hc Hclean].
    assert (char_at input_string (Reader.idx st) = c) as Hch.
    { rewrite Hin, Hidx. apply char_at_head. }
    edestruct (IH (pre ++ [c]) rest (body st)) as (q & b & Hrun); [| |done|].
    { by rewrite Hin, <- app_assoc. }
    { rewrite body_no_delimiter; simpl; [rewrite length_app; simpl; lia|].
      intros d0 D' HD. rewrite Hch. rewrite HD in Hc. simpl in Hc. congruence. }
    exists q, b. eapply rtc_l.
    { split; [|reflexivity]. rewrite Hin, Hidx, !length_app. simpl. lia. }
    rewrite body_no_delimiter in Hrun |- *;
      try (intros d0 D' HD; rewrite Hch; rewrite HD in Hc; simpl in Hc; congruence).
    rewrite Hch in Hrun |- *. simpl in Hrun. rewrite <- app_assoc in Hrun.
    simpl in Hrun |- *.
    by replace (Reader.idx st + S (length f)) with (Reader.idx st + 1 + length f)
      by lia.
Qed.

(** A quote character appended after a character other than the quote
    character counts one. *)
Lemma count_quote_close sub quotes :
  double_quote_ d = false ∨ last sub ≠ Some quote →
  count_quote quote (sub ++ [quote]) quotes = quotes + 1.
Proof.
  intros Hprev. unfold count_quote. rewrite bool_decide_eq_true_2 by done.
  destruct Hprev as [->|Hprev]; [done|].
  destruct (double_quote_ d); [|done]. simpl.
  destruct sub as [|y sub _] using rev_ind; [done|].
  rewrite !length_app. simpl.
  replace (length sub + 1 + 1 - 2) with (length sub + 0) by lia.
  rewrite <- app_assoc, (char_at_middle sub [y] [quote] 0) by (simpl; lia).
  rewrite last_snoc in Hprev.
  rewrite (bool_decide_eq_false_2 (char_at [y] 0 = quote));
    [by rewrite andb_false_r|].
  unfold char_at. simpl. congruence.
Qed.

(** A one-character delimiter met inside a quoted span goes to the
    accumulator, and so does the character after it, whatever it is. *)
Lemma body_delimiter_literal st c :
  delimiter_ d = [c] →
  char_at input_string (Reader.idx st) = c →
  Reader.quotes_encountered st mod 2 = 1 →
  body st =
  Reader.mkSplit (Reader.idx st + 2)
    (Reader.sub_result st ++ [c; char_at input_string (Reader.idx st + 1)])
    (count_quote (char_at input_string (Reader.idx st + 1))
       (Reader.sub_result st ++ [c; char_at input_string (Reader.idx st + 1)])
       (Reader.quotes_encountered st))
    (Reader.result st) false.
Proof.
  intros HD Hc Hodd.
  assert (inner 1 0
            (Reader.mkSplit (Reader.idx st) (Reader.sub_result st)
               (Reader.quotes_encountered st) (Reader.result st) false)
          = Reader.mkSplit (Reader.idx st + 1) (Reader.sub_result st ++ [c])
              (Reader.quotes_encountered st) (Reader.result st) false) as Hinner.
  { cbn -[Nat.modulo]. unfold Reader.delimiter_body. cbn -[Nat.modulo].
    rewrite HD, Hc. cbn -[Nat.modulo].
    rewrite bool_decide_eq_true_2 by done. cbn -[Nat.modulo].
    rewrite Hodd. cbn. by destruct (_ =? n). }
  unfold Reader.split_body. rewrite HD. cbn [length]. rewrite Hinner.
  cbn [Reader.idx Reader.sub_result Reader.quotes_encountered Reader.result
       Reader.delimiter_detected negb].
  unfold count_quote. rewrite <- !app_assoc. cbn [app].
  by replace (Reader.idx st + 1 + 1) with (Reader.idx st + 2) by lia.
Qed.

(** *** No character is lost under a one-character delimiter *)

(** Without trimming and space skipping, an iteration moves characters from
    the line to the state and drops none; the one character it can add is
    the NUL read past the end of a line that ends with a delimiter inside an
    open quoted span. *)
Lemma body_preserves_line c st :
  delimiter_ d = [c] →
  skip_initial_space_ d = false →
  trimming_enabled = false →
  Reader.idx st < n →
  rejoined c st ++ drop (Reader.idx st) input_string = input_string →
  (Reader.idx (body st) ≤ n
   ∧ rejoined c (body st) ++ drop (Reader.idx (body st)) input_string = input_string)
  ∨ (Reader.idx (body st) = n + 1
     ∧ rejoined c (body st) = input_string ++ [NUL]).
Proof.
  intros HD Hskip Htrim Hlt Hinv.
  assert (∀ i, i < n →
            drop i input_string = char_at input_string i :: drop (S i) input_string)
    as Hdrop.
  { intros i Hi. unfold char_at.
    destruct (lookup_lt_is_Some_2 input_string i Hi) as [x Hx].
    erewrite drop_S by exact Hx. f_equal. symmetry.
    by apply nth_lookup_Some with (d := NUL) in Hx. }
  destruct (decide (char_at input_string (Reader.idx st) = c)) as [Hc|Hc].
  - destruct (decide (Reader.quotes_encountered st mod 2 = 0)) as [Heven|Hnz].
    + (* an accepted delimiter *)
      left. rewrite body_delimiter_accept; rewrite ?HD; simpl; try done; try lia.
      * rewrite Hskip, andb_false_r. simpl.
        replace (Reader.idx st + 1 - 1 + 1) with (S (Reader.idx st)) by lia.
        split; [lia|]. etrans; [|exact Hinv].
        rewrite (Hdrop (Reader.idx st)), Hc by done.
        unfold rejoined, Reader.flushed. simpl. rewrite Htrim.
        rewrite fmap_app, concat_app. simpl. rewrite !app_nil_r.
        by rewrite <- !app_assoc.
      * intros k Hk. assert (k = 0) as -> by lia.
        by rewrite Nat.add_0_r, Hc.
    + (* a delimiter inside a quoted span, and the character after it *)
      assert (Reader.quotes_encountered st mod 2 = 1) as Hodd.
      { pose proof (Nat.mod_upper_bound (Reader.quotes_encountered st) 2). lia. }
      rewrite (body_delimiter_literal st c HD Hc Hodd). simpl.
      replace (Reader.idx st + 2) with (S (S (Reader.idx st))) by lia.
      replace (Reader.idx st + 1) with (S (Reader.idx st)) by lia.
      destruct (decide (S (Reader.idx st) < n)) as [Hlt'|Hge].
      * left. split; [lia|]. etrans; [|exact Hinv].
        rewrite (Hdrop (Reader.idx st)), Hc, (Hdrop (S (Reader.idx st))) by done.
        unfold rejoined. simpl. by rewrite <- !app_assoc.
      * right. split; [lia|].
        assert (char_at input_string (S (Reader.idx st)) = NUL) as ->.
        { unfold char_at. apply nth_overflow. lia. }
        transitivity ((rejoined c st ++ drop (Reader.idx st) input_string) ++ [NUL]);
          [|by rewrite Hinv].
        rewrite (Hdrop (Reader.idx st)), Hc, (drop_ge _ (S (Reader.idx st))) by lia.
        unfold rejoined. simpl. by rewrite <- !app_assoc.
  - (* any other character *)
    left. rewrite body_no_delimiter.
    2:{ intros d0 D' HD'. rewrite HD in HD'. by simplify_eq. }
    simpl. replace (Reader.idx st + 1) with (S (Reader.idx st)) by lia.
    split; [lia|]. etrans; [|exact Hinv].
    rewrite (Hdrop (Reader.idx st)) by done.
    unfold rejoined. simpl. by rewrite <- !app_assoc.
Qed.

(** The index passes the end of the line only when the line's last
    character is the delimiter. *)
Lemma body_idx_past_end c st :
  delimiter_ d = [c] →
  skip_initial_space_ d = false →
  Reader.idx st < n →
  n < Reader.idx (body st) →
  last input_string = Some c.
Proof.
  intros HD Hskip Hlt Hpast.
  destruct (decide (char_at input_string (Reader.idx st) = c)) as [Hc|Hc].
  - destruct (decide (Reader.quotes_encountered st mod 2 = 0)) as [Heven|Hnz].
    + assert (Reader.idx (body st) = Reader.idx st + 1) as Hidx; [|lia].
      rewrite body_delimiter_accept; rewrite ?HD; simpl; try done; try lia.
      * rewrite Hskip, andb_false_r. simpl. lia.
      * intros k Hk. assert (k = 0) as -> by lia.
        by rewrite Nat.add_0_r, Hc.
    + assert (Reader.quotes_encountered st mod 2 = 1) as Hodd.
      { pose proof (Nat.mod_upper_bound (Reader.quotes_encountered st) 2). lia. }
      rewrite (body_delimiter_literal st c HD Hc Hodd) in Hpast. simpl in Hpast.
      rewrite last_lookup.
      replace (pred n) with (Reader.idx st) by lia.
      destruct (lookup_lt_is_Some_2 input_string (Reader.idx st) Hlt) as [x Hx].
      rewrite Hx. f_equal. rewrite <- Hc.
      symmetry. by apply nth_lookup_Some with (d := NUL) in Hx.
  - rewrite body_no_delimiter in Hpast.
    2:{ intros d0 D' HD'. rewrite HD in HD'. by simplify_eq. }
    simpl in Hpast. lia.
Qed.

(** On a line that does not end with the delimiter the scan neither drops
    nor adds a character. *)
Lemma split_loop_keeps_line c fuel : ∀ st st',
  delimiter_ d = [c] →
  skip_initial_space_ d = false →
  trimming_enabled = false →
  last input_string ≠ Some c →
  Reader.idx st ≤ n →
  rejoined c st ++ drop (Reader.idx st) input_string = input_string →
  loop fuel st = Some st' →
  rejoined c st' = input_string.
Proof.
  induction fuel as [|fuel IH]; intros st st' HD Hskip Htrim Hend Hle Hinv;
    rewrite split_loop_eq; destruct (Nat.ltb_spec (Reader.idx st) n) as [Hlt|Hge];
    try done.
  - intros [= <-]. etrans; [|exact Hinv]. rewrite drop_ge by lia.
    by rewrite app_nil_r.
  - destruct (body_preserves_line c st HD Hskip Htrim Hlt Hinv) as [[Hle' Hinv']|[Hi _]].
    + by apply IH.
    + destruct Hend. apply (body_idx_past_end c st HD Hskip Hlt). lia.
  - intros [= <-]. etrans; [|exact Hinv]. rewrite drop_ge by lia.
    by rewrite app_nil_r.
Qed.

(** Inside a quoted span: the text up to the closing quote character goes
    to the accumulator, delimiters included, and the closing quote makes
    the counter even again. *)
Lemma scan_quoted_body c :
  delimiter_ d = [c] → c ≠ quote →
  ∀ m body pre rest st,
    length body = m →
    input_string = pre ++ body ++ quote :: rest →
    Reader.idx st = length pre →
    Reader.quotes_encountered st = 1 →
    quote ∉ body →
    double_quote_ d = false ∨ last (Reader.sub_result st ++ body) ≠ Some quote →
    rtc split_step st
      (Reader.mkSplit (Reader.idx st + length body + 1)
         (Reader.sub_result st ++ body ++ [quote]) 2 (Reader.result st) false).
Proof.
  intros HD Hcq m. induction m as [m IH] using lt_wf_ind.
  intros body pre rest st Hm Hin Hidx Hq Hbody Hprev.
  assert (∀ d0 D', delimiter_ d = d0 :: D' → d0 = c) as Hd0.
  { intros d0 D' HD'. rewrite HD in HD'. by simplify_eq. }
  destruct body as [|x body].
  - (* the closing quote character *)
    simpl in *. rewrite app_nil_r in Hprev. apply rtc_once. split.
    { rewrite Hin, Hidx, length_app. simpl. lia. }
    rewrite body_no_delimiter.
    2:{ intros d0 D' HD'. rewrite Hin, Hidx, char_at_head, (Hd0 _ _ HD'). done. }
    rewrite Hin, Hidx, char_at_head, count_quote_close, Hq by done.
    by rewrite Nat.add_0_r.
  - apply not_elem_of_cons in Hbody as [Hxq Hbody].
    destruct (decide (x = c)) as [->|Hxc].
    + (* a delimiter inside the span, and the character after it *)
      assert (char_at input_string (Reader.idx st) = c) as Hch.
      { rewrite Hin, Hidx. apply char_at_head. }
      assert (Reader.idx st < n) as Hlt.
      { rewrite Hin, Hidx, length_app. simpl. lia. }
      eapply rtc_l; [by split|].
      rewrite (body_delimiter_literal st c HD Hch) by (by rewrite Hq).
      assert (char_at input_string (Reader.idx st + 1)
              = hd quote body) as Hnext.
      { rewrite Hin, Hidx. change (pre ++ (c :: body) ++ quote :: rest)
          with (pre ++ [c] ++ (body ++ quote :: rest)).
        rewrite app_assoc.
        replace (length pre + 1) with (length (pre ++ [c]))
          by (rewrite length_app; simpl; lia).
        destruct body; apply char_at_head. }
      rewrite Hnext. destruct body as [|y body]; simpl hd.
      * replace (Reader.sub_result st ++ [c; quote])
          with ((Reader.sub_result st ++ [c]) ++ [quote])
          by (by rewrite <- app_assoc).
        rewrite count_quote_close, Hq by (right; rewrite last_snoc; congruence).
        rewrite <- app_assoc. simpl.
        replace (Reader.idx st + 1 + 1) with (Reader.idx st + 2) by lia.
        apply rtc_refl.
      * apply not_elem_of_cons in Hbody as [Hyq Hbody].
        rewrite count_quote_other by done.
        eapply rtc_trans.
        { eapply (IH (length body) ltac:(simpl in Hm; lia) body (pre ++ [c; y]) rest);
            simpl; try done.
          - by rewrite Hin, <- app_assoc.
          - rewrite length_app. simpl. lia.
          - rewrite <- app_assoc. exact Hprev. }
        simpl. rewrite <- !app_assoc. simpl.
        replace (Reader.idx st + 2 + length body + 1)
          with (Reader.idx st + S (S (length body)) + 1) by lia.
        apply rtc_refl.
    + (* any other character of the span *)
      assert (char_at input_string (Reader.idx st) = x) as Hch.
      { rewrite Hin, Hidx. apply char_at_head. }
      eapply rtc_l.
      { split; [|done]. rewrite Hin, Hidx, length_app. simpl. lia. }
      rewrite body_no_delimiter, Hch, count_quote_other by
        (try done; intros d0 D' HD'; rewrite Hch, (Hd0 _ _ HD'); done).
      eapply rtc_trans.
      { eapply (IH (length body) ltac:(simpl in Hm; lia) body (pre ++ [x]) rest);
          simpl; try done.
        - by rewrite Hin, <- app_assoc.
        - rewrite length_app. simpl. lia.
        - rewrite <- app_assoc. exact Hprev. }
      simpl. rewrite <- !app_assoc. simpl.
      replace (Reader.idx st + 1 + length body + 1)
        with (Reader.idx st + S (length body) + 1) by lia.
      apply rtc_refl.
Qed.

(** A field, plain or wrapped in quotes, scanned from an empty accumulator
    and a zero counter, is in the accumulator as it was in the line, and
    the counter is even. *)
Lemma scan_field f pre rest st :
  scannable_field d f →
  input_string = pre ++ f ++ rest →
  Reader.idx st = length pre →
  Reader.sub_result st = [] →
  Reader.quotes_encountered st = 0 →
  ∃ q b, q mod 2 = 0
    ∧ (f = [] → b = Reader.delimiter_detected st)
    ∧ rtc split_step st
        (Reader.mkSplit (Reader.idx st + length f) f q (Reader.result st) b).
Proof.
  intros [Hplain|(c & body & HD & Hcq & -> & Hbody & Hdq)] Hin Hidx Hsub Hq.
  - exists 0, (match f with [] => Reader.delimiter_detected st | _ => false end).
    split_and!; [done|by intros ->|].
    pose proof (scan_plain f pre rest st Hin Hidx Hplain) as Hrun.
    by rewrite Hsub, Hq in Hrun.
  - exists 2, false. split_and!; [done|done|].
    assert (char_at input_string (Reader.idx st) = quote) as Hch.
    { rewrite Hin, Hidx. simpl. apply char_at_head. }
    eapply rtc_l.
    { split; [|done]. rewrite Hin, Hidx, length_app. simpl. lia. }
    rewrite body_no_delimiter.
    2:{ intros d0 D' HD'. rewrite Hch. rewrite HD in HD'. by simplify_eq. }
    rewrite Hch, Hsub, Hq, count_quote_close by (by right).
    eapply rtc_trans.
    { eapply (scan_quoted_body c HD Hcq (length body) body (pre ++ [quote]) rest);
        simpl; try done.
      - rewrite Hin. simpl. by rewrite <- !app_assoc.
      - rewrite Hidx, length_app. simpl. lia.
      - destruct (double_quote_ d); [right|by left].
        destruct body as [|y body _] using rev_ind; [by destruct Hdq|].
        rewrite app_comm_cons, last_snoc. intros ?; simplify_eq.
        apply Hbody. set_solver. }
    simpl. rewrite length_app. simpl.
    replace (Reader.idx st + 1 + length body + 1)
      with (Reader.idx st + S (length body + 1)) by lia.
    apply rtc_refl.
Qed.

(** The fields of a line joined by the delimiter: every field but the last
    is pushed, the last one is left in the accumulator. *)
Lemma scan_fields fs : ∀ f pre st,
  no_space_skipped d fs →
  delimiter_ d ≠ [] →
  fs = [] ∨ char_at (delimiter_ d) (length (delimiter_ d) - 1) ≠ quote →
  input_string = pre ++ f ++ concat (map (app (delimiter_ d)) fs) →
  Reader.idx st = length pre →
  Reader.sub_result st = [] →
  Reader.quotes_encountered st = 0 →
  scannable_field d f →
  Forall (scannable_field d) fs →
  ∃ st', rtc split_step st st'
    ∧ Reader.idx st' = n
    ∧ Reader.sub_result st' = List.last fs f
    ∧ Reader.result st' = Reader.result st ++ (flushed <$> removelast (f :: fs))
    ∧ (List.last fs f = [] →
       fs ≠ [] ∨ Reader.delimiter_detected st = true →
       Reader.delimiter_detected st' = true).
Proof.
  induction fs as [|g fs IH];
    intros f pre st Hskip HD Hlast Hin Hidx Hsub Hq Hf Hfs.
  - destruct (scan_field f pre [] st Hf Hin Hidx Hsub Hq) as (q & b & _ & Hb & Hrun).
    eexists. split; [exact Hrun|]. simpl.
    split_and!; try done.
    + rewrite Hin, Hidx, !length_app. simpl. lia.
    + by rewrite app_nil_r.
    + intros Hnil [|Hd]; [done|]. by rewrite (Hb Hnil).
  - apply Forall_cons in Hfs as [Hg Hfs]. simpl in Hin.
    destruct Hlast as [?|Hlast]; [done|].
    rewrite <- app_assoc in Hin.
    destruct (scan_field f pre _ st Hf Hin Hidx Hsub Hq) as (q & b & Heven & _ & Hrun1).
    set (st1 := Reader.mkSplit _ _ _ _ _) in Hrun1.
    assert (Reader.idx st1 + length (delimiter_ d) ≤ n) as Hn1.
    { subst st1; simpl. rewrite Hin, Hidx, !length_app. lia. }
    assert (∀ k, k < length (delimiter_ d) →
              char_at input_string (Reader.idx st1 + k) = char_at (delimiter_ d) k)
      as Hmatch.
    { intros k Hk. subst st1; simpl. rewrite Hin, Hidx.
      rewrite (app_assoc pre f), <- length_app. by apply char_at_middle. }
    assert (no_space_skipped d fs) as Hskip'.
    { destruct Hskip as [?|[? Hsp]]; [by left|right].
      by apply Forall_cons in Hsp as [_ ?]. }
    assert (Reader.idx st1 + length (delimiter_ d) - 1 + 1
            = length (pre ++ f ++ delimiter_ d)) as Hpos.
    { subst st1; simpl. rewrite !length_app.
      destruct (delimiter_ d); [done|simpl; lia]. }
    assert ((Reader.idx st1 + length (delimiter_ d) - 1 + 1 <? n)
            && skip_initial_space_ d
            && bool_decide
                 (char_at input_string
                    (Reader.idx st1 + length (delimiter_ d) - 1 + 1) = SPACE)
            = false) as Hnoskip.
    { destruct Hskip as [->|[Hd0 Hsp]]; [by rewrite andb_false_r|].
      apply Forall_cons in Hsp as [Hg0 _].
      rewrite Hpos.
      destruct (Nat.ltb_spec (length (pre ++ f ++ delimiter_ d)) n) as [Hlt|]; [|done].
      destruct (skip_initial_space_ d); [|done].
      apply bool_decide_eq_false_2.
      rewrite Hin, !(app_assoc pre), !(app_assoc (pre ++ f)).
      rewrite <- (app_assoc pre f).
      destruct g as [|c g].
      - destruct fs as [|g2 fs].
        + rewrite Hin, !length_app in Hlt. simpl in Hlt. lia.
        + simpl. destruct (delimiter_ d) as [|d0 D'] eqn:HDeq; [done|].
          simpl. rewrite char_at_head. simpl in Hd0. congruence.
      - simpl. rewrite char_at_head. simpl in Hg0. congruence. }
    pose proof (body_delimiter_accept st1 HD Hmatch Hn1 Heven) as Hacc.
    cbv zeta in Hacc.
    rewrite Hnoskip in Hacc. simpl in Hacc.
    rewrite bool_decide_eq_false_2 in Hacc.
    2:{ specialize (Hmatch (length (delimiter_ d) - 1)).
        replace (Reader.idx st + length f + length (delimiter_ d) - 1)
          with (Reader.idx st1 + (length (delimiter_ d) - 1)).
        - rewrite Hmatch; [done|]. destruct (delimiter_ d); [done|simpl; lia].
        - subst st1; simpl. destruct (delimiter_ d); [done|simpl; lia]. }
    set (st2 := Reader.mkSplit _ _ _ _ _) in Hacc.
    destruct (IH g (pre ++ f ++ delimiter_ d) st2) as (st' & Hrun & Hi & Hs & Hr & Hd);
      try done; try (by right).
    { by rewrite Hin, <- !app_assoc. }
    exists st'. split_and!; try done.
    + eapply rtc_trans; [exact Hrun1|].
      eapply rtc_l; [|exact Hrun]. split; [|done]. simpl.
      destruct (delimiter_ d); [done|simpl in *; lia].
    + by rewrite Hs, last_cons_default.
    + rewrite Hr. simpl. by rewrite <- app_assoc.
    + intros Hl _. apply Hd; [|by right]. by rewrite last_cons_default in Hl.
Qed.
End ScanLoop.

(** * From the scan to the fields *)

Lemma join_fields_line D f fs : Writer.join D (f :: fs) = fields_line D f fs.
Proof.
  unfold fields_line. revert f. induction fs as [|g fs IH]; intros f.
  - simpl. by rewrite app_nil_r.
  - change (Writer.join D (f :: g :: fs)) with (f ++ D ++ Writer.join D (g :: fs)).
    rewrite IH. simpl. by rewrite <- app_assoc.
Qed.

Lemma join_snoc D (l : list text) x :
  Writer.join D (l ++ [x]) = concat ((λ f, f ++ D) <$> l) ++ x.
Proof.
  induction l as [|a l IH]; simpl.
  - by rewrite !app_nil_r.
  - rewrite IH, length_app. simpl.
    replace (0 <? length l + 1) with true by (symmetry; apply Nat.ltb_lt; lia).
    by rewrite <- !app_assoc.
Qed.

Lemma fmap_fixed {A} (g : A → A) (l : list A) :
  Forall (λ x, g x = x) l → g <$> l = l.
Proof. induction 1 as [|x l Hx _ IH]; [done|]. csimpl. by rewrite Hx, IH. Qed.

Lemma removelast_snoc_last {A} (l : list A) x :
  l ≠ [] → removelast l ++ [List.last l x] = l.
Proof. intros Hl. symmetry. by apply app_removelast_last. Qed.

Section Fields.
Variable d : Dialect.
Variable trimming_enabled : bool.
Variable columns : nat.

Local Abbreviation flushed := (Reader.flushed d trimming_enabled).

Lemma flushed_nil : flushed [] = [].
Proof.
  unfold Reader.flushed, trim, ltrim, rtrim.
  destruct trimming_enabled; [|done]. by destruct (_ =? _).
Qed.

(** The state the loop ends in on a line of plain fields. *)
Lemma split_loop_fields f fs :
  no_space_skipped d fs →
  delimiter_ d ≠ [] →
  fs = [] ∨ char_at (delimiter_ d) (length (delimiter_ d) - 1) ≠ quote_character_ d →
  scannable_field d f → Forall (scannable_field d) fs →
  fields_line (delimiter_ d) f fs ≠ [] →
  ∃ st,
    Reader.split_loop d trimming_enabled (fields_line (delimiter_ d) f fs)
      (length (fields_line (delimiter_ d) f fs))
      (Reader.split_init columns (fields_line (delimiter_ d) f fs)) = Some st
    ∧ Reader.sub_result st = List.last fs f
    ∧ Reader.result st = flushed <$> removelast (f :: fs)
    ∧ (List.last fs f = [] → fs ≠ [] → Reader.delimiter_detected st = true).
Proof.
  intros Hskip HD Hlast Hf Hfs Hne.
  set (line := fields_line (delimiter_ d) f fs) in *.
  destruct (scan_fields d trimming_enabled line fs f [] (Reader.split_init columns line))
    as (st & Hrun & Hi & Hs & Hr & Hd); try done.
  exists st. split_and!.
  - eapply split_loop_steps; [exact Hrun|lia|simpl; lia].
  - done.
  - rewrite Hr. unfold Reader.split_init; simpl.
    by rewrite bool_decide_eq_false_2.
  - intros Hl Hfs'. apply Hd; [done|by left].
Qed.

(** The fields [split] holds before the pad step, on such a line. *)
Lemma split_fields_line f fs :
  no_space_skipped d fs →
  delimiter_ d ≠ [] →
  fs = [] ∨ char_at (delimiter_ d) (length (delimiter_ d) - 1) ≠ quote_character_ d →
  scannable_field d f → Forall (scannable_field d) fs →
  fields_line (delimiter_ d) f fs ≠ [] →
  Reader.split_fields d trimming_enabled columns (fields_line (delimiter_ d) f fs)
  = Some (flushed <$> drop_last_empty (f :: fs)).
Proof.
  intros Hskip HD Hlast Hf Hfs Hne.
  destruct (split_loop_fields f fs) as (st & Hloop & Hs & Hr & _); try done.
  unfold Reader.split_fields. rewrite Hloop. simpl. f_equal.
  unfold Reader.flush_last, drop_last_empty.
  rewrite Hs, Hr, last_cons_default.
  destruct (decide (List.last fs f = [])) as [Hl|Hl].
  - rewrite bool_decide_eq_false_2 by (by intros ?).
    by rewrite bool_decide_eq_true_2.
  - rewrite bool_decide_eq_true_2 by done.
    rewrite bool_decide_eq_false_2 by done.
    rewrite <- (removelast_snoc_last (f :: fs) []) at 2 by done.
    by rewrite fmap_app, last_cons_default.
Qed.

(** Padding gives back the empty field the flush dropped. *)
Lemma pad_truncate_drop_last_empty (l : list text) :
  0 < columns →
  Reader.pad_truncate columns (flushed <$> drop_last_empty l)
  = Reader.pad_truncate columns (flushed <$> l).
Proof.
  intros Hk. unfold drop_last_empty. case_bool_decide as Hl; [|done].
  destruct (decide (l = [])) as [->|Hne]; [done|].
  rewrite <- (removelast_snoc_last l [] Hne) at 2. rewrite Hl, fmap_app. simpl.
  rewrite flushed_nil.
  set (m := flushed <$> removelast l).
  unfold Reader.pad_truncate. rewrite length_app. simpl.
  destruct (Nat.ltb_spec (length m) columns) as [Hlt|Hge].
  - destruct (Nat.ltb_spec (length m + 1) columns) as [Hlt'|Hge'].
    + rewrite <- app_assoc. f_equal.
      replace (columns - length m) with (S (columns - (length m + 1))) by lia.
      done.
    + assert (columns = length m + 1) as Hc by lia.
      destruct (Nat.ltb_spec columns (length m + 1)); [lia|]. simpl.
      by replace (columns - length m) with 1 by lia.
  - destruct (Nat.ltb_spec (length m + 1) columns); [lia|].
    destruct (Nat.ltb_spec columns (length m + 1)); [|lia].
    destruct (Nat.eqb_spec columns 0); [lia|]. simpl.
    rewrite take_app_le by lia.
    destruct (Nat.ltb_spec columns (length m)); [done|].
    by rewrite take_ge by lia.
Qed.
End Fields.

(** * The reference splitter *)

Lemma naive_split_single (P : ascii → Prop) c line :
  Forall P line → ∀ cur,
  ∃ f fs, naive_split_from [c] 0 cur line = (cur ++ f) :: fs
          ∧ line = fields_line [c] f fs
          ∧ Forall (λ x, x ≠ c ∧ P x) f
          ∧ Forall (Forall (λ x, x ≠ c ∧ P x)) fs.
Proof.
  unfold fields_line.
  induction line as [|x rest IH]; intros HP cur.
  - exists [], []. simpl. by rewrite app_nil_r.
  - apply Forall_cons in HP as [Hx HP]. simpl. case_bool_decide as Hp.
    + destruct Hp as [k Hk]. simpl in Hk. simplify_eq.
      destruct (IH HP []) as (g & gs & -> & Hline & Hg & Hgs).
      exists [], (g :: gs). rewrite app_nil_r. simpl.
      split_and!; try done.
      * f_equal. exact Hline.
      * by constructor.
    + assert (x ≠ c) as Hne.
      { intros ->. apply Hp. by exists rest. }
      destruct (IH HP (cur ++ [x])) as (f & fs & -> & Hline & Hf & Hfs).
      exists (x :: f), fs. rewrite <- app_assoc. simpl.
      split_and!; try done.
      * f_equal. exact Hline.
      * by constructor.
Qed.

Lemma naive_split_skip D s : ∀ k cur tail,
  length s = k →
  naive_split_from D k cur (s ++ tail) = naive_split_from D 0 cur tail.
Proof.
  induction s as [|x s IH]; intros k cur tail Hk; simpl in *.
  - by subst k.
  - destruct k as [|k]; [done|]. apply IH. lia.
Qed.

(** The naive split cuts the line into pieces whose join is the line. *)
Lemma naive_split_join D :
  D ≠ [] →
  ∀ m line cur,
    length line ≤ m →
    ∃ f fs, naive_split_from D 0 cur line = (cur ++ f) :: fs
            ∧ line = fields_line D f fs.
Proof.
  intros HD. unfold fields_line.
  induction m as [|m IH]; intros line cur Hm.
  { destruct line; [|simpl in Hm; lia]. exists [], []. simpl. by rewrite app_nil_r. }
  destruct line as [|x rest].
  { exists [], []. simpl. by rewrite app_nil_r. }
  simpl. case_bool_decide as Hp.
  - destruct Hp as [tail Htail].
    destruct D as [|d0 D']; [done|]. simpl in Htail. simplify_eq. simpl.
    rewrite Nat.sub_0_r, naive_split_skip by done.
    destruct (IH tail []) as (g & gs & -> & Hline).
    { simpl in Hm. rewrite length_app in Hm. lia. }
    exists [], (g :: gs). rewrite app_nil_r. simpl. split; [done|].
    rewrite <- app_assoc. do 2 f_equal. exact Hline.
  - destruct (IH rest (cur ++ [x])) as (f & fs & -> & Hline); [simpl in Hm; lia|].
    exists (x :: f), fs. rewrite <- app_assoc. simpl. split; [done|].
    f_equal. exact Hline.
Qed.

Lemma no_partial_match_single D line : length D = 1 → no_partial_match D line.
Proof.
  intros HD. destruct D as [|c [|? ?]]; try done.
  unfold no_partial_match, naive_split.
  destruct (naive_split_single (λ _, True) c line) with (cur := @nil ascii)
    as (f & fs & -> & _ & Hf & Hfs).
  { by apply Forall_true. }
  simpl. constructor.
  - eapply Forall_impl; [exact Hf|]. simpl. intros x [? _]. congruence.
  - eapply Forall_impl; [exact Hfs|]. intros g Hg.
    eapply Forall_impl; [exact Hg|]. simpl. intros x [? _]. congruence.
Qed.

Lemma fields_line_elem D f fs x :
  x ∈ f ∨ (∃ g, g ∈ fs ∧ x ∈ g) ∨ (fs ≠ [] ∧ x ∈ D) → x ∈ fields_line D f fs.
Proof.
  unfold fields_line. intros [Hx|Hx]; [set_solver|].
  apply elem_of_app. right.
  induction fs as [|g fs IH]; simpl.
  - destruct Hx as [(g & Hg & _)|[? _]]; [by apply elem_of_nil in Hg|done].
  - destruct Hx as [(g' & Hg' & Hx)|[_ Hx]].
    + apply elem_of_cons in Hg' as [->|Hg']; [set_solver|].
      apply elem_of_app. right. apply IH. left. eauto.
    + set_solver.
Qed.

Lemma split_empty (r : Reader.t) :
  Reader.split r [] = Some (replicate (Reader.columns_ r) []).
Proof.
  unfold Reader.split, Reader.split_with, Reader.split_fields. simpl.
  unfold Reader.flush_last, Reader.pad_truncate. simpl.
  rewrite length_replicate, Nat.ltb_irrefl. done.
Qed.

Lemma pad_truncate_exact (l : list text) : Reader.pad_truncate (length l) l = l.
Proof. unfold Reader.pad_truncate. by rewrite !Nat.ltb_irrefl. Qed.

Lemma plain_field_scannable d f : plain_field d f → scannable_field d f.
Proof. by left. Qed.

(** Tokenizing the join of scannable fields, as many as the column count,
    gives each field back, trimmed as configured. *)
Lemma split_join_fields (r : Reader.t) (fields : list text) :
  let d := Reader.current_dialect_ r in
  delimiter_ d ≠ [] →
  char_at (delimiter_ d) (length (delimiter_ d) - 1) ≠ quote_character_ d →
  no_space_skipped d (tl fields) →
  Forall (scannable_field d) fields →
  Reader.columns_ r = length fields →
  Reader.split r (Writer.join (delimiter_ d) fields)
  = Some (Reader.flushed d (Reader.trimming_enabled_ r) <$> fields).
Proof.
  intros d HD Hlast Hskip Hok Hk.
  destruct fields as [|f fs].
  { rewrite split_empty, Hk. done. }
  apply Forall_cons in Hok as [Hf Hfs].
  rewrite join_fields_line.
  destruct (decide (fields_line (delimiter_ d) f fs = [])) as [Hnil|Hne].
  - rewrite Hnil, split_empty, Hk.
    unfold fields_line in Hnil. apply app_eq_nil in Hnil as [-> Hnil].
    destruct fs as [|g fs].
    + simpl. by rewrite flushed_nil.
    + simpl in Hnil. apply app_eq_nil in Hnil as [Hnil _].
      apply app_eq_nil in Hnil as [? _]. done.
  - unfold Reader.split, Reader.split_with. fold d.
    rewrite split_fields_line; try done; [|by right]. simpl. f_equal.
    rewrite pad_truncate_drop_last_empty by (rewrite Hk; simpl; lia).
    rewrite Hk, <- (length_fmap (Reader.flushed d (Reader.trimming_enabled_ r))).
    apply pad_truncate_exact.
Qed.

(** * Properties of the tokenizer *)

(** Closed goals are settled by running the model. *)
Ltac by_compute :=
  repeat match goal with
         | |- Forall _ _ => constructor
         | |- _ ∧ _ => split
         end;
  compute_done.

(** C6. For every column count [k] the reader has established, [split] on
    the empty line returns exactly [k] empty strings, not one empty field;
    with three columns established, three empty strings. *)
Theorem split_empty_line (r : Reader.t) :
  Reader.split r [] = Some (replicate (Reader.columns_ r) [])
  ∧ Reader.split (reader_with Dialect_default false [txt "x"; txt "y"; txt "z"]) []
    = Some [[]; []; []].
Proof. split; apply split_empty. Qed.

(** C8, amended. Take a field sequence as long as the established column
    count in which no field holds the delimiter's first character or the
    quote character and every field is left as it is by the configured
    trimming; let the delimiter be non-empty with a last character other than
    the quote character, and, when [skip_initial_space_] is set, let neither
    the delimiter nor a field after the first begin with a space. Then
    joining the fields with the delimiter, as [Writer::write_row] does, and
    tokenizing the line with [split] gives the fields back. *)
Theorem join_split_roundtrip (r : Reader.t) (fields : list text) :
  let d := Reader.current_dialect_ r in
  delimiter_ d ≠ [] →
  char_at (delimiter_ d) (length (delimiter_ d) - 1) ≠ quote_character_ d →
  no_space_skipped d (tl fields) →
  Forall (plain_field d) fields →
  Forall (λ f, Reader.flushed d (Reader.trimming_enabled_ r) f = f) fields →
  Reader.columns_ r = length fields →
  Reader.split r (Writer.join (delimiter_ d) fields) = Some fields.
Proof.
  intros d HD Hlast Hskip Hplain Htrim Hk. subst d.
  rewrite split_join_fields; try done.
  - f_equal. by apply fmap_fixed.
  - eapply Forall_impl; [exact Hplain|]. apply plain_field_scannable.
Qed.

(** C8, amended, on three fields under the default dialect, the last one
    empty. *)
Lemma join_split_roundtrip_witness :
  Reader.split (reader_with Dialect_default false [txt "x"; txt "y"; txt "z"])
    (Writer.join [","] [txt "1"; txt "two"; []])
  = Some [txt "1"; txt "two"; []].
Proof.
  apply (join_split_roundtrip
           (reader_with Dialect_default false [txt "x"; txt "y"; txt "z"])
           [txt "1"; txt "two"; []]).
  - discriminate.
  - discriminate.
  - left. reflexivity.
  - repeat constructor; discriminate.
  - repeat constructor.
  - reflexivity.
Defined.

(** C8 as stated fails: fields without delimiter and quote character that
    do not come back, under a trim set, under [skip_initial_space_], under a
    two-character delimiter, and under a delimiter that ends with the quote
    character. *)
Lemma join_split_roundtrip_counterexample :
  (* trimming configured: a field that begins with a trim character *)
  (Forall (λ f, has_substring [","] f = false ∧ DQUOTE ∉ f) [txt "a"; txt " b"]
   ∧ Reader.split
       (reader_with (add_trim_characters [SPACE] Dialect_default) true
          [txt "x"; txt "y"])
       (Writer.join [","] [txt "a"; txt " b"])
     ≠ Some [txt "a"; txt " b"])
  (* skip_initial_space_ set: a field that begins with a space *)
  ∧ (Forall (λ f, has_substring [","] f = false ∧ DQUOTE ∉ f) [txt "a"; txt " b"]
     ∧ Reader.split
         (reader_with (set_skip_initial_space true Dialect_default) false
            [txt "x"; txt "y"])
         (Writer.join [","] [txt "a"; txt " b"])
       ≠ Some [txt "a"; txt " b"])
  (* a two-character delimiter: a field that holds its first character *)
  ∧ (Forall (λ f, has_substring (txt "::") f = false ∧ DQUOTE ∉ f) [txt "a:b"]
     ∧ Reader.split
         (reader_with (set_delimiter (txt "::") Dialect_default) false [txt "x"])
         (Writer.join (txt "::") [txt "a:b"])
       ≠ Some [txt "a:b"])
  (* a delimiter that ends with the quote character *)
  ∧ (Forall (λ f, has_substring [","; DQUOTE] f = false ∧ DQUOTE ∉ f)
       [txt "a"; txt "b"; txt "c"]
     ∧ Reader.split
         (reader_with (set_delimiter [","; DQUOTE] Dialect_default) false
            [txt "x"; txt "y"; txt "z"])
         (Writer.join [","; DQUOTE] [txt "a"; txt "b"; txt "c"])
       ≠ Some [txt "a"; txt "b"; txt "c"]).
Proof.
  split_and!; by_compute.
Qed.

(** C4, amended. With [skip_initial_space_] off and an established column
    count [k > 0]: on every line that holds no quote character and in which
    the delimiter's first character occurs only where the naive split cuts
    (always so for a delimiter of one character), [split] returns the naive
    split of the line on the delimiter, each field trimmed as configured,
    padded or truncated to [k]. *)
Theorem split_refines_naive_split (r : Reader.t) (line : text) :
  let d := Reader.current_dialect_ r in
  delimiter_ d ≠ [] →
  length (delimiter_ d) = 1 ∨ no_partial_match (delimiter_ d) line →
  skip_initial_space_ d = false →
  quote_character_ d ∉ line →
  0 < Reader.columns_ r →
  Reader.split r line
  = Some (Reader.pad_truncate (Reader.columns_ r)
            (Reader.flushed d (Reader.trimming_enabled_ r)
               <$> naive_split (delimiter_ d) line)).
Proof.
  intros d HD Hmatch Hskip Hq Hk.
  assert (no_partial_match (delimiter_ d) line) as Hnpm.
  { destruct Hmatch as [?|?]; [by apply no_partial_match_single|done]. }
  unfold no_partial_match, naive_split in *.
  destruct (naive_split_join (delimiter_ d) HD (length line) line [])
    as (f & fs & Hnaive & Hline); [done|].
  rewrite Hnaive in Hnpm |- *. simpl in Hnpm |- *.
  apply Forall_cons in Hnpm as [Hf Hfs].
  destruct (decide (line = [])) as [->|Hne].
  - rewrite split_empty. f_equal.
    symmetry in Hline. unfold fields_line in Hline.
    apply app_eq_nil in Hline as [-> Hfs'].
    destruct fs as [|g fs].
    + simpl. rewrite flushed_nil. unfold Reader.pad_truncate. simpl.
      destruct (Reader.columns_ r) as [|[|k]]; [lia|done|]. done.
    + simpl in Hfs'. apply app_eq_nil in Hfs' as [Hfs' _].
      apply app_eq_nil in Hfs' as [? _]. done.
  - assert (∀ x, x ∈ line → x ≠ quote_character_ d) as Hnq by (by intros x Hx ->).
    unfold Reader.split, Reader.split_with. fold d.
    rewrite Hline. rewrite split_fields_line; rewrite <- ?Hline; try done.
    + simpl. f_equal. by apply pad_truncate_drop_last_empty.
    + by left.
    + destruct fs as [|g fs]; [by left|right]. apply Hnq.
      rewrite Hline. apply fields_line_elem. right. right. split; [done|].
      apply list_elem_of_In, nth_In. destruct (delimiter_ d); [done|simpl; lia].
    + left. unfold plain_field. rewrite Forall_forall in Hf |- *.
      intros x Hx. split; [by apply Hf|]. apply Hnq. rewrite Hline.
      apply fields_line_elem. by left.
    + rewrite Forall_forall in Hfs |- *. intros g Hg. left.
      unfold plain_field. specialize (Hfs g Hg).
      rewrite Forall_forall in Hfs |- *.
      intros x Hx. split; [by apply Hfs|]. apply Hnq. rewrite Hline.
      apply fields_line_elem. right. left. eauto.
Qed.

(** C4, amended, on a line with an empty field and a trailing delimiter,
    under the comma and under a two-character delimiter. *)
Lemma split_refines_naive_split_witness :
  Reader.split (reader_with Dialect_default false [txt "x"; txt "y"; txt "z"])
    (txt "1,,3,")
  = Some [txt "1"; []; txt "3"]
  ∧ Reader.split
      (reader_with (set_delimiter (txt "::") Dialect_default) false
         [txt "x"; txt "y"; txt "z"])
      (txt "1::::3::")
    = Some [txt "1"; []; txt "3"].
Proof.
  split.
  - apply (split_refines_naive_split
             (reader_with Dialect_default false [txt "x"; txt "y"; txt "z"])
             (txt "1,,3,")).
    + discriminate.
    + left. reflexivity.
    + reflexivity.
    + compute_done.
    + simpl. lia.
  - apply (split_refines_naive_split
             (reader_with (set_delimiter (txt "::") Dialect_default) false
                [txt "x"; txt "y"; txt "z"])
             (txt "1::::3::")).
    + discriminate.
    + right. repeat constructor; discriminate.
    + reflexivity.
    + compute_done.
    + simpl. lia.
Defined.

(** C4 as stated fails: lines without quote character on which [split]
    and the naive split differ. *)
Lemma split_refines_naive_split_counterexample :
  (* a two-character delimiter, one of its characters alone in the line *)
  ((DQUOTE ∉ txt "a:b")
   ∧ Reader.split
       (reader_with (set_delimiter (txt "::") Dialect_default) false [txt "x"])
       (txt "a:b")
     ≠ Some (Reader.pad_truncate 1 (naive_split (txt "::") (txt "a:b"))))
  (* skip_initial_space_ set, a space after the delimiter *)
  ∧ ((DQUOTE ∉ txt "a, b")
     ∧ Reader.split
         (reader_with (set_skip_initial_space true Dialect_default) false
            [txt "x"; txt "y"])
         (txt "a, b")
       ≠ Some (Reader.pad_truncate 2 (naive_split [","] (txt "a, b"))))
  (* no column count established yet, a delimiter at the end of the line *)
  ∧ ((DQUOTE ∉ txt "a,b,")
     ∧ Reader.split Reader.new (txt "a,b,")
       ≠ Some (Reader.pad_truncate 0 (naive_split [","] (txt "a,b,")))).
Proof.
  split_and!; by_compute.
Qed.

(** A line that ends with the delimiter: the loop ends on the accepted
    match, and the fields are those before the delimiter. *)
Lemma split_fields_trailing_delimiter d trimming_enabled columns f fs :
  no_space_skipped d (fs ++ [[]]) →
  delimiter_ d ≠ [] →
  char_at (delimiter_ d) (length (delimiter_ d) - 1) ≠ quote_character_ d →
  scannable_field d f → Forall (scannable_field d) fs →
  let line := fields_line (delimiter_ d) f (fs ++ [[]]) in
  (∃ st, Reader.split_loop d trimming_enabled line (length line)
           (Reader.split_init columns line) = Some st
         ∧ Reader.delimiter_detected st = true)
  ∧ Reader.split_fields d trimming_enabled columns line
    = Some (Reader.flushed d trimming_enabled <$> (f :: fs)).
Proof.
  intros Hskip HD Hlast Hf Hfs line.
  assert (line ≠ []) as Hne.
  { subst line. unfold fields_line. rewrite map_app, concat_app. simpl.
    destruct (delimiter_ d); [done|]. intros Heq.
    apply app_eq_nil in Heq as [_ Heq]. apply app_eq_nil in Heq as [_ Heq]. done. }
  assert (Forall (scannable_field d) (fs ++ [[]])) as Hfs'.
  { apply Forall_app. split; [done|]. constructor; [left; constructor|constructor]. }
  assert (List.last (fs ++ [[]]) f = []) as Hl by by rewrite last_last.
  split.
  - destruct (split_loop_fields d trimming_enabled columns f (fs ++ [[]]))
      as (st & Hloop & _ & _ & Hd); try done; [by right|].
    exists st. split; [done|]. apply Hd; [done|]. by destruct fs.
  - subst line. rewrite split_fields_line; try done; [|by right]. do 2 f_equal.
    unfold drop_last_empty. rewrite last_cons_default, Hl.
    rewrite bool_decide_eq_true_2 by done.
    change (f :: fs ++ [[]]) with ((f :: fs) ++ [[]]). by rewrite removelast_last.
Qed.

(** C5. On a non-empty line whose last loop iteration accepted a delimiter
    match, the accumulator is empty when the loop ends and the end-of-line
    step pushes nothing: the fields before the pad step are those already
    in [result], one fewer than a tokenizer that flushed the trailing empty
    field would give. The flush step pushes the accumulator exactly when it
    is non-empty. Every line of scannable fields that ends with the delimiter
    is such a line, and its fields are those before the last delimiter. *)
Theorem trailing_empty_field_dropped d trimming_enabled columns :
  (∀ line st,
     line ≠ [] →
     Reader.split_loop d trimming_enabled line (length line)
       (Reader.split_init columns line) = Some st →
     Reader.delimiter_detected st = true →
     Reader.sub_result st = []
     ∧ Reader.split_fields d trimming_enabled columns line = Some (Reader.result st)
     ∧ length (flush_always d trimming_enabled st) = S (length (Reader.result st)))
  ∧ (∀ st, Reader.flush_last d trimming_enabled st
           = if bool_decide (Reader.sub_result st = []) then Reader.result st
             else flush_always d trimming_enabled st)
  ∧ (∀ f fs,
       no_space_skipped d (fs ++ [[]]) →
       delimiter_ d ≠ [] →
       char_at (delimiter_ d) (length (delimiter_ d) - 1) ≠ quote_character_ d →
       scannable_field d f → Forall (scannable_field d) fs →
       (∃ st, Reader.split_loop d trimming_enabled
                (fields_line (delimiter_ d) f (fs ++ [[]]))
                (length (fields_line (delimiter_ d) f (fs ++ [[]])))
                (Reader.split_init columns (fields_line (delimiter_ d) f (fs ++ [[]])))
              = Some st
              ∧ Reader.delimiter_detected st = true)
       ∧ Reader.split_fields d trimming_enabled columns
           (fields_line (delimiter_ d) f (fs ++ [[]]))
         = Some (Reader.flushed d trimming_enabled <$> (f :: fs))).
Proof.
  split_and!.
  - intros line st Hne Hloop Hdet.
    assert (Reader.sub_result st = []) as Hsub.
    { destruct (split_loop_last d trimming_enabled line _ _ _ Hloop) as [prev ->].
      - simpl. destruct line; [done|simpl; lia].
      - by apply body_detected. }
    split_and!.
    + done.
    + unfold Reader.split_fields. rewrite Hloop. simpl.
      unfold Reader.flush_last. rewrite Hsub. done.
    + unfold flush_always. rewrite length_app. simpl. lia.
  - intros st. unfold Reader.flush_last, flush_always.
    destruct (decide (Reader.sub_result st = [])) as [Hs|Hs].
    + rewrite bool_decide_eq_false_2 by (by intros ?).
      by rewrite bool_decide_eq_true_2.
    + rewrite bool_decide_eq_true_2 by done.
      by rewrite bool_decide_eq_false_2.
  - intros f fs Hskip HD Hlast Hf Hfs.
    by apply split_fields_trailing_delimiter.
Qed.

(** C5 on a line of two fields and a trailing comma. *)
Lemma trailing_empty_field_dropped_witness :
  Reader.split_fields Dialect_default false 3 (txt "a,b,") = Some [txt "a"; txt "b"].
Proof.
  destruct (proj1 (trailing_empty_field_dropped Dialect_default false 3)
              (txt "a,b,") (Reader.mkSplit 4 [] 0 [txt "a"; txt "b"] true))
    as (_ & Hfields & _).
  - discriminate.
  - reflexivity.
  - reflexivity.
  - exact Hfields.
Defined.

(** C1, amended. An iteration of the scan that starts with an odd open-quote
    counter pushes no field and accepts no delimiter; the field in progress
    keeps its text and grows. Under a one-character delimiter, when such an
    iteration reads the delimiter before the last character of the line, it
    appends the delimiter and the character after it to the field. For a
    one-character delimiter other than the quote character, a column count
    equal to the number of fields and, when [skip_initial_space_] is set,
    neither the delimiter nor a field after the first beginning with a space:
    a line of fields joined by the delimiter, each either free of delimiter
    and quote characters or wrapped in quote characters around a text
    without quote characters (not empty when double-quote escaping is on),
    tokenizes to exactly these fields, each trimmed as configured and
    otherwise as it stands in the line, the wrapping quote characters
    included. So the line of [a], the quoted [b,c] and [d] yields, under the
    default dialect, the three fields [a], [b,c] with its two quote
    characters, and [d]. *)
Theorem quoted_delimiter_is_literal :
  (∀ d trimming_enabled line st st',
     split_step d trimming_enabled line st st' →
     Reader.quotes_encountered st mod 2 = 1 →
     Reader.result st' = Reader.result st
     ∧ Reader.delimiter_detected st' = false
     ∧ ∃ s, s ≠ [] ∧ Reader.sub_result st' = Reader.sub_result st ++ s)
  ∧ (∀ d trimming_enabled line st st' (c : ascii),
       delimiter_ d = [c] →
       split_step d trimming_enabled line st st' →
       Reader.quotes_encountered st mod 2 = 1 →
       char_at line (Reader.idx st) = c →
       Reader.idx st + 1 < length line →
       Reader.sub_result st'
       = Reader.sub_result st ++ [c; char_at line (Reader.idx st + 1)]
       ∧ Reader.idx st' = Reader.idx st + 2)
  ∧ (∀ (r : Reader.t) (c : ascii) (fields : list text),
       delimiter_ (Reader.current_dialect_ r) = [c] →
       c ≠ quote_character_ (Reader.current_dialect_ r) →
       no_space_skipped (Reader.current_dialect_ r) (tl fields) →
       Forall (scannable_field (Reader.current_dialect_ r)) fields →
       Reader.columns_ r = length fields →
       Reader.split r (Writer.join [c] fields)
       = Some (Reader.flushed (Reader.current_dialect_ r) (Reader.trimming_enabled_ r)
                 <$> fields))
  ∧ Reader.split (reader_with Dialect_default false [txt "x"; txt "y"; txt "z"])
      line_quoted_comma
    = Some [txt "a"; quoted (txt "b,c"); txt "d"]
  ∧ Reader.split Reader.new line_quoted_comma
    = Some [txt "a"; quoted (txt "b,c"); txt "d"].
Proof.
  split_and!.
  - intros d tr line st st' [_ ->] Hodd. by apply body_odd_no_push.
  - intros d tr line st st' c HD [_ ->] Hodd Hc _.
    by rewrite (body_delimiter_literal d tr line st c HD Hc Hodd).
  - intros r c fields HD Hcq Hskip Hok Hk.
    rewrite <- HD. apply split_join_fields; try done.
    + by rewrite HD.
    + by rewrite HD.
  - by vm_compute.
  - by vm_compute.
Qed.

(** C1, amended, on the fields of the scenario. *)
Lemma quoted_delimiter_is_literal_witness :
  Reader.split (reader_with Dialect_default false [txt "x"; txt "y"; txt "z"])
    (Writer.join [","] [txt "a"; quoted (txt "b,c"); txt "d"])
  = Some [txt "a"; quoted (txt "b,c"); txt "d"].
Proof.
  apply (proj1 (proj2 (proj2 quoted_delimiter_is_literal))
           (reader_with Dialect_default false [txt "x"; txt "y"; txt "z"]) ","
           [txt "a"; quoted (txt "b,c"); txt "d"]).
  - reflexivity.
  - discriminate.
  - left. reflexivity.
  - constructor; [|constructor; [|constructor; [|constructor]]].
    + left. repeat constructor; discriminate.
    + right. exists ",", (txt "b,c"). split; [reflexivity|].
      split; [discriminate|]. split; [reflexivity|]. split; [|discriminate].
      apply (bool_decide_unpack _). vm_compute. exact I.
    + left. repeat constructor; discriminate.
  - reflexivity.
Defined.

(** C1 as stated fails: the quote characters around [b,c] are not removed. *)
Lemma quoted_delimiter_is_literal_counterexample :
  Reader.split (reader_with Dialect_default false [txt "x"; txt "y"; txt "z"])
    line_quoted_comma
  ≠ Some [txt "a"; txt "b,c"; txt "d"]
  ∧ Reader.split Reader.new line_quoted_comma
    ≠ Some [txt "a"; txt "b,c"; txt "d"].
Proof. split; by_compute. Qed.

(** A line that a text followed by the character [c] makes ends with [c]. *)
Lemma rejoined_ends_with c (res : list text) :
  res ≠ [] → last (concat ((λ f, f ++ [c]) <$> res)) = Some c.
Proof.
  destruct res as [|f res _] using rev_ind; [done|]. intros _.
  rewrite fmap_app, concat_app. simpl. rewrite app_nil_r, !app_assoc.
  apply last_snoc.
Qed.

(** Under a one-character delimiter, without trimming and space skipping, a
    line that does not end with the delimiter is the join of its fields: no
    character is dropped or decoded. The fields are those before the pad
    step. *)
Lemma split_fields_rejoin d c columns line :
  delimiter_ d = [c] →
  skip_initial_space_ d = false →
  line ≠ [] →
  last line ≠ Some c →
  ∃ fields,
    Reader.split_fields d false columns line = Some fields
    ∧ Writer.join [c] fields = line.
Proof.
  intros HD Hskip Hne Hend.
  destruct (split_loop_total d false line (length line) (Reader.split_init columns line))
    as [st Hloop]; [simpl; lia|].
  assert (rejoined c st = line) as Hline.
  { apply (split_loop_keeps_line d false line c _ _ _ HD Hskip eq_refl Hend) in Hloop;
      [done|simpl; lia|].
    unfold rejoined, Reader.split_init. simpl.
    by rewrite bool_decide_eq_false_2. }
  assert (Reader.sub_result st ≠ []) as Hsub.
  { intros Hnil. unfold rejoined in Hline. rewrite Hnil, app_nil_r in Hline.
    destruct (decide (Reader.result st = [])) as [Hres|Hres].
    - rewrite Hres in Hline. simpl in Hline. by apply Hne.
    - apply Hend. rewrite <- Hline. by apply rejoined_ends_with. }
  exists (Reader.result st ++ [Reader.sub_result st]). split.
  - unfold Reader.split_fields. rewrite Hloop. simpl. f_equal.
    unfold Reader.flush_last, Reader.flushed.
    by rewrite bool_decide_eq_true_2.
  - by rewrite join_snoc.
Qed.

(** C2, amended. [split] has no step that decodes a doubled quote, with
    double-quote escaping on or off. A non-empty line in which no character
    starts the delimiter tokenizes to one field, the line itself, trimmed as
    configured, then padded or truncated to the column count: the two quote
    characters of a doubled quote are both in the field. Under a
    one-character delimiter, with trimming not enabled and
    [skip_initial_space_] off, the fields [split] makes of a non-empty line
    that does not end with the delimiter, taken before the pad step and
    joined by the delimiter, are the line, every quote character in its
    place. So the quoted [b], doubled quote, [c] yields one field with its
    four quote characters. *)
Theorem doubled_quote_kept_verbatim :
  (∀ (r : Reader.t) (line : text),
     line ≠ [] →
     Forall (λ c, hd_error (delimiter_ (Reader.current_dialect_ r)) ≠ Some c) line →
     Reader.split r line
     = Some (Reader.pad_truncate (Reader.columns_ r)
               [Reader.flushed (Reader.current_dialect_ r)
                  (Reader.trimming_enabled_ r) line]))
  ∧ (∀ (r : Reader.t) (c : ascii) (line : text),
       delimiter_ (Reader.current_dialect_ r) = [c] →
       skip_initial_space_ (Reader.current_dialect_ r) = false →
       Reader.trimming_enabled_ r = false →
       line ≠ [] →
       last line ≠ Some c →
       ∃ fields,
         Reader.split r line = Some (Reader.pad_truncate (Reader.columns_ r) fields)
         ∧ Writer.join [c] fields = line)
  ∧ Reader.split Reader.new (quoted (txt "b" ++ [DQUOTE; DQUOTE] ++ txt "c"))
    = Some [quoted (txt "b" ++ [DQUOTE; DQUOTE] ++ txt "c")].
Proof.
  split_and!.
  - intros r line Hne Hclean.
    destruct (scan_verbatim (Reader.current_dialect_ r) (Reader.trimming_enabled_ r)
                line line [] [] (Reader.split_init (Reader.columns_ r) line))
      as (q & b & Hrun); [by rewrite app_nil_r|done|done|].
    unfold Reader.split, Reader.split_with, Reader.split_fields.
    erewrite split_loop_steps; [|exact Hrun|simpl; lia|simpl; lia].
    simpl. unfold Reader.flush_last. simpl.
    rewrite bool_decide_eq_true_2 by done.
    by rewrite (bool_decide_eq_false_2 _ Hne).
  - intros r c line HD Hskip Htrim Hne Hend.
    destruct (split_fields_rejoin (Reader.current_dialect_ r) c (Reader.columns_ r)
                line HD Hskip Hne Hend) as (fields & Hfields & Hjoin).
    exists fields. split; [|done].
    unfold Reader.split, Reader.split_with. by rewrite Htrim, Hfields.
  - by vm_compute.
Qed.

(** C2, amended, on the quoted text of the scenario and on its whole line:
    the fields of the line, joined by the comma, are the line with its four
    quote characters. *)
Lemma doubled_quote_kept_verbatim_witness :
  Reader.split Reader.new (quoted (txt "b" ++ [DQUOTE; DQUOTE] ++ txt "c"))
  = Some [quoted (txt "b" ++ [DQUOTE; DQUOTE] ++ txt "c")]
  ∧ ∃ fields,
      Reader.split Reader.new line_doubled_quote
      = Some (Reader.pad_truncate 0 fields)
      ∧ Writer.join [","] fields = line_doubled_quote.
Proof.
  split.
  - apply (proj1 doubled_quote_kept_verbatim Reader.new
             (quoted (txt "b" ++ [DQUOTE; DQUOTE] ++ txt "c"))).
    + discriminate.
    + repeat constructor; discriminate.
  - apply (proj1 (proj2 doubled_quote_kept_verbatim) Reader.new ","
             line_doubled_quote).
    + reflexivity.
    + reflexivity.
    + reflexivity.
    + discriminate.
    + discriminate.
Defined.

(** C2 as stated fails: the doubled quote is not decoded to one quote
    character. *)
Lemma doubled_quote_kept_verbatim_counterexample :
  Reader.split (reader_with Dialect_default false [txt "x"; txt "y"; txt "z"])
    line_doubled_quote
  ≠ Some [txt "a"; txt "b" ++ [DQUOTE] ++ txt "c"; txt "d"]
  ∧ Reader.split Reader.new line_doubled_quote
    ≠ Some [txt "a"; txt "b" ++ [DQUOTE] ++ txt "c"; txt "d"].
Proof. split; by_compute. Qed.

(** * Row assembly: [read] and [read_internal] *)

Lemma split_total (r : Reader.t) (line : text) : is_Some (Reader.split r line).
Proof.
  unfold Reader.split, Reader.split_with, Reader.split_fields.
  destruct (split_loop_total (Reader.current_dialect_ r) (Reader.trimming_enabled_ r)
              line (length line) (Reader.split_init (Reader.columns_ r) line))
    as [st ->]; [simpl; lia|]. simpl. eauto.
Qed.

Lemma pad_truncate_take k (l : list text) :
  0 < k → Reader.pad_truncate k l = take k l ++ replicate (k - length l) [].
Proof.
  intros Hk. unfold Reader.pad_truncate.
  destruct (Nat.ltb_spec (length l) k).
  - by rewrite take_ge by lia.
  - replace (k - length l) with 0 by lia. simpl. rewrite app_nil_r.
    destruct (Nat.ltb_spec k (length l)); simpl.
    + by destruct (Nat.eqb_spec k 0); [lia|].
    + by rewrite take_ge by lia.
Qed.

Lemma split_length (r : Reader.t) line fields :
  0 < Reader.columns_ r →
  Reader.split r line = Some fields → length fields = Reader.columns_ r.
Proof.
  intros Hk. unfold Reader.split, Reader.split_with.
  destruct (Reader.split_fields _ _ _ _) as [l|]; [|done]. simpl.
  intros [= <-]. rewrite pad_truncate_take by done.
  rewrite length_app, length_take, length_replicate. lia.
Qed.

(** With a column count established, [split] gives the first [k] of the
    tokenized fields, padded with empty strings when there are fewer. *)
Lemma split_pads_truncates (r : Reader.t) line :
  0 < Reader.columns_ r →
  ∃ fields,
    Reader.split_fields (Reader.current_dialect_ r) (Reader.trimming_enabled_ r)
      (Reader.columns_ r) line = Some fields
    ∧ Reader.split r line
      = Some (take (Reader.columns_ r) fields
              ++ replicate (Reader.columns_ r - length fields) []).
Proof.
  intros Hk. destruct (split_total r line) as [fields Hsplit].
  unfold Reader.split, Reader.split_with in Hsplit |- *.
  destruct (Reader.split_fields _ _ _ line) as [fields0|]; [|done].
  exists fields0. split; [done|]. simpl. f_equal. by apply pad_truncate_take.
Qed.

Lemma strip_cr_snoc (l : text) : Reader.strip_cr (l ++ [CR]) = l.
Proof.
  unfold Reader.strip_cr. rewrite length_app. simpl.
  replace (length l + 1 - 1) with (length l) by lia.
  destruct (Nat.ltb_spec 0 (length l + 1)); [|lia]. simpl.
  rewrite char_at_head. rewrite bool_decide_eq_true_2 by done.
  by rewrite take_app_length.
Qed.

Lemma strip_cr_no_cr (l : text) : last l ≠ Some CR → Reader.strip_cr l = l.
Proof.
  intros Hlast. unfold Reader.strip_cr.
  destruct (Nat.ltb_spec 0 (length l)) as [Hlen|]; [|done]. simpl.
  rewrite bool_decide_eq_false_2; [done|].
  intros Heq. apply Hlast. rewrite last_lookup.
  unfold char_at in Heq. rewrite nth_lookup in Heq.
  replace (pred (length l)) with (length l - 1) by lia.
  destruct (lookup_lt_is_Some_2 l (length l - 1)) as [c Hc]; [lia|].
  rewrite Hc in Heq |- *. simpl in Heq. by subst c.
Qed.

(** The test of the two loops on a line of the stream: the line counts
    unless empty rows are skipped and it is blank. *)
Lemma counted_not_blank skip (line : text) :
  Reader.counted skip (Reader.strip_cr line) = negb skip || negb (blank_line line).
Proof.
  unfold Reader.counted, blank_line.
  destruct line as [|x l _] using rev_ind.
  { simpl. by destruct skip. }
  rewrite (bool_decide_eq_false_2 (l ++ [x] = [])) by (by destruct l).
  destruct (decide (x = CR)) as [->|Hx].
  - rewrite strip_cr_snoc. destruct l as [|y l]; simpl.
    + by destruct skip.
    + rewrite (bool_decide_eq_false_2 (y :: l ++ [CR] = [CR])) by (by destruct l).
      simpl. by rewrite orb_true_r.
  - rewrite strip_cr_no_cr by (rewrite last_snoc; congruence).
    rewrite bool_decide_eq_true_2 by (by destruct l).
    rewrite (bool_decide_eq_false_2 (l ++ [x] = [CR])).
    + simpl. by rewrite orb_true_r.
    + destruct l as [|y l]; simpl; [congruence|by destruct l].
Qed.

Lemma counted_lines_taken skip (lines : list text) :
  counted_lines skip lines = length (lines_taken skip lines).
Proof.
  unfold counted_lines, lines_taken. f_equal.
  induction lines as [|line lines IH]; [done|]. simpl.
  by rewrite counted_not_blank, IH.
Qed.

Lemma pass_rows_app (r r' : Reader.t) new :
  Reader.rows_ r' = Reader.rows_ r ++ new → pass_rows r r' = new.
Proof. unfold pass_rows, Reader.rows. intros ->. apply drop_app_length. Qed.

Lemma prescan_count skip lines : ∀ e,
  Reader.prescan skip lines e = e + counted_lines skip lines.
Proof.
  unfold Reader.prescan, counted_lines.
  induction lines as [|l lines IH]; intros e; simpl; [lia|].
  rewrite IH. destruct (Reader.counted _ _); simpl; lia.
Qed.

Section Rows.
Variable headers : list text.
Variable enabled : bool.
Variable ignore_columns : gmap text bool.
Hypothesis enabled_if_any : enabled = false → ignore_columns = ∅.

Local Abbreviation keys := (row_keys headers ignore_columns).

Lemma bind_row_defined values : ∀ i current_row,
  i + length values ≤ length headers →
  is_Some (Reader.bind_row headers enabled ignore_columns i values current_row).
Proof.
  induction values as [|v values IH]; intros i cur Hlen; simpl; [eauto|].
  destruct (lookup_lt_is_Some_2 headers i) as [name ->]; [simpl in Hlen; lia|].
  apply IH. simpl in Hlen. lia.
Qed.

(** Binding the fields writes only under keys the row already has. *)
Lemma bind_row_dom values : ∀ i current_row current_row',
  Reader.bind_row headers enabled ignore_columns i values current_row
  = Some current_row' →
  dom current_row = keys → dom current_row' = keys.
Proof.
  induction values as [|v values IH]; intros i cur cur'; simpl.
  { by intros [= <-]. }
  destruct (headers !! i) as [name|] eqn:Hname; [|done].
  intros Hbind Hdom. eapply IH; [exact Hbind|].
  destruct (negb enabled || bool_decide (name ∉ dom ignore_columns)) eqn:Hcond;
    [|done].
  rewrite dom_insert_L, Hdom. apply list_elem_of_lookup_2 in Hname.
  assert (name ∈ keys) as Hin; [|set_solver].
  unfold row_keys. apply elem_of_difference. split; [set_solver|].
  apply orb_true_iff in Hcond as [Hen|Hni].
  - rewrite enabled_if_any by (by destruct enabled). set_solver.
  - by apply bool_decide_eq_true in Hni.
Qed.

Lemma row_template_dom :
  dom (Reader.row_template headers enabled ignore_columns) = keys.
Proof.
  unfold Reader.row_template, row_keys.
  assert (∀ l (m : gmap text text),
            dom (foldl (λ m header, <[header := []]> m) m l)
            = list_to_set l ∪ dom m) as Hins.
  { induction l as [|h l IH]; intros m; simpl; [set_solver|].
    rewrite IH, dom_insert_L. set_solver. }
  assert (∀ (l : list (text * bool)) (m : gmap text text),
            dom (foldl (λ m kvpair, delete kvpair.1 m) m l)
            = dom m ∖ list_to_set l.*1) as Hdel.
  { induction l as [|kv l IH]; intros m; simpl; [set_solver|].
    rewrite IH, dom_delete_L. set_solver. }
  destruct enabled.
  - pose proof (dom_alt (D := gset text) ignore_columns) as Halt.
    apply leibniz_equiv in Halt.
    rewrite Hdel, Hins, dom_empty_L, <- Halt. set_solver.
  - rewrite Hins, dom_empty_L, enabled_if_any by done. set_solver.
Qed.
End Rows.

Lemma counted_lines_cons skip line lines :
  counted_lines skip (line :: lines)
  = (if Reader.counted skip (Reader.strip_cr line) then 1 else 0)
    + counted_lines skip lines.
Proof. unfold counted_lines. simpl. by destruct (Reader.counted _ _). Qed.

Section ParseRows.
Variable r : Reader.t.
Hypothesis enabled_if_any :
  Reader.ignore_columns_enabled_ r = false →
  ignore_columns_ (Reader.current_dialect_ r) = ∅.

Local Abbreviation keys :=
  (row_keys (Reader.headers_ r) (ignore_columns_ (Reader.current_dialect_ r))).
Local Abbreviation skip := (skip_empty_rows_ (Reader.current_dialect_ r)).
Local Abbreviation expected := (Reader.expected_number_of_rows_ r).

(** What the row loop has pushed when it returns: one row for each counted
    line until [expected_number_of_rows_] is reached, each with the keys of
    the template. *)
Lemma parse_rows_returns lines : ∀ number_of_rows current_row rows res,
  Reader.parse_rows r lines number_of_rows current_row rows = Returns res →
  number_of_rows ≤ expected →
  dom current_row = keys →
  ∃ new, res.1 = rows ++ new
    ∧ length new = (expected - number_of_rows) `min` counted_lines skip lines
    ∧ Forall (λ row, dom row = keys) new.
Proof.
  induction lines as [|line lines IH]; intros nr cur rows res; simpl.
  { intros [= <-] _ _. exists []. rewrite app_nil_r.
    split_and!; [done|unfold counted_lines; simpl; lia|done]. }
  destruct (Nat.eqb_spec nr expected) as [->|Hne].
  { intros [= <-] _ _. exists []. rewrite app_nil_r.
    split_and!; [done|simpl; lia|done]. }
  rewrite counted_lines_cons.
  destruct (Reader.counted _ _).
  - destruct (Reader.split r _) as [split_result|]; [|done].
    destruct (Reader.bind_row _ _ _ _ _ _) as [cur'|] eqn:Hbind; [|done].
    intros Hres Hnr Hdom.
    assert (dom cur' = keys) as Hdom'.
    { eapply bind_row_dom; [exact enabled_if_any|exact Hbind|exact Hdom]. }
    destruct (IH _ _ _ _ Hres) as (new & Hrows & Hlen & Hkeys); [lia|done|].
    exists (cur' :: new). split_and!.
    + by rewrite Hrows, <- app_assoc.
    + simpl. lia.
    + by constructor.
  - intros Hres Hnr Hdom.
    destruct (IH _ _ _ _ Hres) as (new & Hrows & Hlen & Hkeys); [lia|done|].
    exists new. split_and!; [done|simpl; lia|done].
Qed.

(** The row loop throws nothing and has fuel enough. *)
Lemma parse_rows_outcome lines : ∀ number_of_rows current_row rows,
  match Reader.parse_rows r lines number_of_rows current_row rows with
  | Returns _ | Undefined => True
  | Throws _ _ | OutOfFuel => False
  end.
Proof.
  induction lines as [|line lines IH]; intros nr cur rows; simpl; [done|].
  destruct (nr =? expected); [done|].
  destruct (Reader.counted _ _); [|apply IH].
  destruct (split_total r (Reader.strip_cr line)) as [split_result ->].
  destruct (Reader.bind_row _ _ _ _ _ _); [apply IH|done].
Qed.

(** With a header of [k > 0] columns every field finds its column. *)
Lemma parse_rows_defined lines : ∀ number_of_rows current_row rows,
  Reader.columns_ r = length (Reader.headers_ r) →
  0 < Reader.columns_ r →
  ∃ res, Reader.parse_rows r lines number_of_rows current_row rows = Returns res.
Proof.
  induction lines as [|line lines IH]; intros nr cur rows Hk Hpos; simpl; [eauto|].
  destruct (nr =? expected); [eauto|].
  destruct (Reader.counted _ _); [|by apply IH].
  destruct (split_total r (Reader.strip_cr line)) as [split_result Hsplit].
  rewrite Hsplit.
  destruct (bind_row_defined (Reader.headers_ r) (Reader.ignore_columns_enabled_ r)
              (ignore_columns_ (Reader.current_dialect_ r)) split_result 0 cur)
    as [cur' ->]; [|by apply IH].
  apply split_length in Hsplit; [|done]. simpl. lia.
Qed.
End ParseRows.

Lemma derive_headers_total r lines : is_Some (Reader.derive_headers r lines).
Proof.
  unfold Reader.derive_headers.
  destruct (split_total r (Reader.strip_cr (hd [] lines))) as [x ->]. simpl. eauto.
Qed.

(** A pass that returns has pushed one row per counted data line up to the
    expected count, each with the header's names less the ignored ones. *)
Lemma read_internal_returns lines r r' :
  (Reader.ignore_columns_enabled_ r = false →
   ignore_columns_ (Reader.current_dialect_ r) = ∅) →
  Reader.read_internal lines r = Returns r' →
  ∃ headers new,
    Reader.derive_headers r lines = Some headers
    ∧ r' = Reader.with_rows (Reader.with_headers r headers) (Reader.rows_ r ++ new)
    ∧ length new
      = Reader.expected_number_of_rows_ r
        `min` counted_lines (skip_empty_rows_ (Reader.current_dialect_ r))
                (Reader.data_lines r lines)
    ∧ Forall (λ row, dom row
                     = row_keys headers (ignore_columns_ (Reader.current_dialect_ r)))
        new.
Proof.
  intros Hinv. unfold Reader.read_internal.
  destruct (Reader.derive_headers r lines) as [headers|]; [|done].
  destruct (Reader.parse_rows _ _ _ _ _) as [[rows nr]| | |] eqn:Hparse; try done.
  intros [= <-].
  apply parse_rows_returns in Hparse as (new & Hrows & Hlen & Hkeys); simpl in *.
  - exists headers, new. rewrite Nat.sub_0_r in Hlen. by subst rows.
  - done.
  - lia.
  - by apply row_template_dom.
Qed.

Lemma read_internal_defined lines r headers :
  Reader.derive_headers r lines = Some headers → headers ≠ [] →
  ∃ r', Reader.read_internal lines r = Returns r'.
Proof.
  intros Hh Hne. unfold Reader.read_internal. rewrite Hh.
  edestruct (parse_rows_defined (Reader.with_headers r headers)) as [[rows nr] ->];
    [done|simpl; destruct headers; [done|simpl; lia]|eauto].
Qed.

Lemma prepare_enabled lines rows r :
  Reader.ignore_columns_enabled_ (Reader.prepare lines rows r) = false →
  ignore_columns_ (Reader.current_dialect_ (Reader.prepare lines rows r)) = ∅.
Proof.
  unfold Reader.prepare, Reader.enable_flags, Reader.count_rows. simpl.
  destruct (Nat.ltb_spec 0 (size (ignore_columns_ (Reader.current_dialect_
                                                    (Reader.load_dialect r))))); [done|].
  intros _. apply map_size_empty_inv. lia.
Qed.

Lemma prepare_rows lines rows r :
  Reader.rows_ (Reader.prepare lines rows r) = Reader.rows_ r.
Proof.
  unfold Reader.prepare, Reader.enable_flags, Reader.count_rows, Reader.load_dialect.
  by destruct (subscript _ _).
Qed.

(** The expected row count [read] leaves, for any count it starts from. *)
Lemma prepare_expected lines rows r :
  Reader.expected_number_of_rows_ (Reader.prepare lines rows r)
  = if 0 <? rows then rows
    else
      let d := Reader.current_dialect_ (Reader.load_dialect r) in
      let e := Reader.expected_number_of_rows_ r
               + counted_lines (skip_empty_rows_ d) lines in
      if header_ d && (0 <? e) then e - 1 else e.
Proof.
  unfold Reader.prepare, Reader.enable_flags, Reader.count_rows. simpl.
  rewrite prescan_count.
  unfold Reader.load_dialect. by destruct (subscript _ _).
Qed.

Lemma read_internal_outcome lines r :
  match Reader.read_internal lines r with
  | Returns _ | Undefined => True
  | Throws _ _ | OutOfFuel => False
  end.
Proof.
  unfold Reader.read_internal.
  destruct (derive_headers_total r lines) as [headers ->].
  match goal with |- context [Reader.parse_rows ?a ?b ?c ?d ?e] =>
    pose proof (parse_rows_outcome a b c d e) as H;
    destruct (Reader.parse_rows a b c d e) as [[]| | |] end; done.
Qed.

(** * Properties of the parse pass *)

(** C3. When the pass establishes a header of [k > 0] columns, [read]
    returns, and every row the pass has pushed has exactly the header's
    names less the ignored columns as keys, however many fields its line had:
    [split] then gives [k] fields for every line, the first [k] of the
    tokenized fields padded with empty strings. With header [a,b,c] and [b]
    ignored the keys of every row of the pass are [a] and [c]. *)
Theorem rows_keyed_by_header fs filename rows (r : Reader.t) bytes headers :
  fs filename = Some bytes →
  Reader.derive_headers (Reader.prepare (Reader.stream_lines bytes) rows r)
    (Reader.stream_lines bytes) = Some headers →
  headers ≠ [] →
  let r0 := Reader.prepare (Reader.stream_lines bytes) rows r in
  let d := Reader.current_dialect_ r0 in
  let k := length headers in
  ∃ r',
    Reader.read fs filename rows r = Returns r'
    ∧ Reader.cols r' = headers
    ∧ Forall (λ row, dom row = list_to_set headers ∖ dom (ignore_columns_ d))
        (pass_rows r r')
    ∧ (∀ line, ∃ fields,
         Reader.split_fields d (Reader.trimming_enabled_ r0) k line = Some fields
         ∧ Reader.split r' line
           = Some (take k fields ++ replicate (k - length fields) []))
    ∧ (headers = [txt "a"; txt "b"; txt "c"] →
       dom (ignore_columns_ d) = {[txt "b"]} →
       Forall (λ row, dom row = {[txt "a"; txt "c"]}) (pass_rows r r')).
Proof.
  intros Hfile Hheaders Hne r0 d k.
  destruct (read_internal_defined _ _ _ Hheaders Hne) as [r' Hread].
  pose proof Hread as Hret.
  apply read_internal_returns in Hret as (headers' & new & Hh' & -> & _ & Hkeys);
    [|apply prepare_enabled].
  rewrite Hheaders in Hh'. injection Hh' as <-.
  eexists. split; [|split; [|split; [|split]]].
  - unfold Reader.read. rewrite Hfile. cbv zeta. exact Hread.
  - reflexivity.
  - rewrite (pass_rows_app r _ new); [exact Hkeys|].
    unfold Reader.with_rows. cbn [Reader.rows_]. by rewrite prepare_rows.
  - intros line.
    apply (split_pads_truncates (Reader.with_headers r0 headers) line).
    simpl. destruct headers; [done|simpl; lia].
  - intros -> Hign.
    rewrite (pass_rows_app r _ new).
    2:{ unfold Reader.with_rows. cbn [Reader.rows_]. by rewrite prepare_rows. }
    eapply Forall_impl; [exact Hkeys|].
    intros row Hrow. subst d r0. cbv beta in Hrow. rewrite Hrow. unfold row_keys.
    rewrite Hign.
    apply set_eq. intros x. rewrite elem_of_difference, !elem_of_list_to_set.
    rewrite !elem_of_cons, elem_of_union, !elem_of_singleton, elem_of_nil.
    split.
    + intros [Hx Hnb]. destruct Hx as [-> | [-> | [-> | Hf]]]; [by left|done|by right|done].
    + intros [-> | ->]; (split; [|done]); [by left|by right; right; left].
Qed.

(** C3 on a file of a header and two rows, with column [b] ignored: the
    reader ends with two rows, each with the keys [a] and [c]. *)
Lemma rows_keyed_by_header_witness :
  ∃ r',
    Reader.read (one_file abc_file) (txt "abc.csv") 0
      (configured_reader (add_ignore_columns [txt "b"] Dialect_default))
    = Returns r'
    ∧ length (Reader.rows r') = 2
    ∧ Forall (λ row, dom row = {[txt "a"; txt "c"]}) (Reader.rows r').
Proof.
  destruct (rows_keyed_by_header (one_file abc_file) (txt "abc.csv") 0
              (configured_reader (add_ignore_columns [txt "b"] Dialect_default))
              abc_file [txt "a"; txt "b"; txt "c"])
    as (r' & Hread & _ & _ & _ & Hscenario).
  - reflexivity.
  - vm_compute. reflexivity.
  - discriminate.
  - assert (∃ r2, Reader.read (one_file abc_file) (txt "abc.csv") 0
                    (configured_reader (add_ignore_columns [txt "b"] Dialect_default))
                  = Returns r2
                  ∧ length (Reader.rows r2) = 2)
      as (r2 & Hread2 & Hlen) by (eexists; split; vm_compute; reflexivity).
    rewrite Hread in Hread2. injection Hread2 as <-.
    exists r'. split; [exact Hread|]. split; [exact Hlen|].
    apply Hscenario; [reflexivity|]. vm_compute. reflexivity.
Defined.

(** C7, amended. On a reader whose expected row count is 0, as after
    construction, [read] without a row count takes for the expected row
    count the number of lines of the whole file that it takes into account
    (every line, or with [skip_empty_rows_] the lines that are not blank),
    less one when a header row is configured and the number is positive. A
    pass that returns has pushed exactly the smaller of that count and the
    number of data lines taken into account, and the pass does return
    whenever it establishes a non-empty header; it never throws. *)
Theorem prescan_bounds_rows fs filename (r : Reader.t) bytes :
  fs filename = Some bytes →
  Reader.expected_number_of_rows_ r = 0 →
  let lines := Reader.stream_lines bytes in
  let d := Reader.current_dialect_ (Reader.load_dialect r) in
  let counted := length (lines_taken (skip_empty_rows_ d) lines) in
  let expected := if header_ d && (0 <? counted) then counted - 1 else counted in
  let data := if header_ d then tl lines else lines in
  (∀ r', Reader.read fs filename 0 r = Returns r' →
     (Reader.shape r').1 = expected
     ∧ length (pass_rows r r')
       = expected `min` length (lines_taken (skip_empty_rows_ d) data))
  ∧ (∀ headers,
       Reader.derive_headers (Reader.prepare lines 0 r) lines = Some headers →
       headers ≠ [] →
       ∃ r', Reader.read fs filename 0 r = Returns r')
  ∧ match Reader.read fs filename 0 r with
    | Returns _ | Undefined => True
    | Throws _ _ | OutOfFuel => False
    end.
Proof.
  intros Hfile Hzero lines d counted expected data.
  assert (Reader.expected_number_of_rows_ (Reader.prepare lines 0 r) = expected)
    as Hexp.
  { rewrite prepare_expected, Hzero. simpl. by rewrite counted_lines_taken. }
  unfold Reader.read. rewrite Hfile. cbv zeta. fold lines.
  split_and!.
  - intros r' Hread.
    apply read_internal_returns in Hread as (headers & new & _ & -> & Hlen & _);
      [|apply prepare_enabled].
    split; [exact Hexp|].
    rewrite (pass_rows_app r _ new).
    + rewrite Hlen, Hexp, counted_lines_taken. done.
    + unfold Reader.with_rows. cbn [Reader.rows_]. by rewrite prepare_rows.
  - intros headers Hh Hne. by eapply read_internal_defined.
  - apply read_internal_outcome.
Qed.

(** C7, amended, on a file of a header, an empty line, a row, a line of a
    lone carriage return and a last row: two rows when empty rows are
    skipped, four when they are not. *)
Lemma prescan_bounds_rows_witness :
  (∃ r',
     Reader.read (one_file gaps_file) (txt "gaps.csv") 0
       (configured_reader (set_skip_empty_rows true Dialect_default))
     = Returns r'
     ∧ (Reader.shape r').1 = 2
     ∧ length (Reader.rows r') = 2)
  ∧ (∃ r',
       Reader.read (one_file gaps_file) (txt "gaps.csv") 0 Reader.new = Returns r'
       ∧ (Reader.shape r').1 = 4
       ∧ length (Reader.rows r') = 4).
Proof.
  split.
  - destruct (prescan_bounds_rows (one_file gaps_file) (txt "gaps.csv")
                (configured_reader (set_skip_empty_rows true Dialect_default))
                gaps_file eq_refl eq_refl) as (Hrows & Hreturns & _).
    destruct (Hreturns [txt "a"; txt "b"; txt "c"]) as [r' Hread].
    + vm_compute. reflexivity.
    + discriminate.
    + exists r'. split; [exact Hread|].
      destruct (Hrows r' Hread) as (Hexpected & Hlen).
      split; [exact Hexpected|]. exact Hlen.
  - destruct (prescan_bounds_rows (one_file gaps_file) (txt "gaps.csv") Reader.new
                gaps_file eq_refl eq_refl) as (Hrows & Hreturns & _).
    destruct (Hreturns [txt "a"; txt "b"; txt "c"]) as [r' Hread].
    + vm_compute. reflexivity.
    + discriminate.
    + exists r'. split; [exact Hread|].
      destruct (Hrows r' Hread) as (Hexpected & Hlen).
      split; [exact Hexpected|]. exact Hlen.
Defined.

(** C7 as stated fails on a reader that has read before: the pre-scan adds
    to the count the reader holds. Reading the file of a header and two rows
    twice leaves the expected row count 4, not the 3 lines less one. *)
Lemma prescan_bounds_rows_counterexample :
  ∃ r1 r2,
    Reader.read (one_file abc_file) (txt "abc.csv") 0 Reader.new = Returns r1
    ∧ Reader.read (one_file abc_file) (txt "abc.csv") 0 r1 = Returns r2
    ∧ length (lines_taken false (Reader.stream_lines abc_file)) = 3
    ∧ (Reader.shape r1).1 = 2
    ∧ (Reader.shape r2).1 = 4
    ∧ (Reader.shape r2).1
      ≠ length (lines_taken false (Reader.stream_lines abc_file)) - 1.
Proof.
  eexists _, _.
  split; [vm_compute; reflexivity|].
  split; [vm_compute; reflexivity|].
  split; [vm_compute; reflexivity|].
  split; [vm_compute; reflexivity|].
  split; [vm_compute; reflexivity|].
  vm_compute. discriminate.
Qed.

(** * The writer *)

Lemma subscript_stable (dialects : gmap text Dialect) name :
  subscript (subscript dialects name).2 name
  = ((subscript dialects name).1, (subscript dialects name).2).
Proof.
  unfold subscript. destruct (dialects !! name) as [d|] eqn:Hd; simpl.
  - by rewrite Hd.
  - by rewrite lookup_insert_eq.
Qed.

(** [write_row()] on an open stream: the header line first if no row was
    written before, then the current entries; the writer is left open, with
    the header marked as written, the same dialect and no entries. *)
Lemma write_current_row_spec (w : Writer.t) :
  Writer.is_open (Writer.stream_ w) = true →
  let w' := Writer.write_current_row w in
  Writer.written (Writer.stream_ w')
  = Writer.written (Writer.stream_ w)
    ++ (if Writer.header_written_ w then [] else header_line (writer_dialect w))
    ++ written_line (writer_dialect w) (Writer.current_row_entries_ w)
  ∧ Writer.is_open (Writer.stream_ w') = true
  ∧ Writer.header_written_ w' = true
  ∧ writer_dialect w' = writer_dialect w
  ∧ Writer.current_row_entries_ w' = [].
Proof.
  intros Hopen. unfold Writer.write_current_row, writer_dialect.
  pose proof (subscript_stable (Writer.dialects_ w) (Writer.current_dialect_name_ w))
    as Hst.
  destruct (Writer.header_written_ w) eqn:Hhw; cbn [negb].
  - destruct (subscript (Writer.dialects_ w) (Writer.current_dialect_name_ w))
      as [d ds] eqn:Hsub.
    cbn [Writer.header_written_ Writer.stream_ Writer.current_row_entries_
         Writer.current_dialect_name_ Writer.dialects_ fst snd] in *.
    unfold Writer.insert_text. rewrite Hopen, Hst. done.
  - unfold Writer.write_header.
    destruct (subscript (Writer.dialects_ w) (Writer.current_dialect_name_ w))
      as [d ds] eqn:Hsub.
    cbn [fst snd] in Hst.
    unfold header_line, written_line. cbn [fst].
    destruct (column_names_ d) as [|name names] eqn:Hnames;
      cbn [length Nat.eqb Writer.header_written_ Writer.stream_
           Writer.current_row_entries_ Writer.current_dialect_name_ Writer.dialects_];
      rewrite Hst;
      cbn [Writer.header_written_ Writer.stream_ Writer.current_row_entries_
           Writer.current_dialect_name_ Writer.dialects_ fst];
      unfold Writer.insert_text; rewrite ?Hopen; cbn [Writer.is_open Writer.written];
      rewrite ?Hst; rewrite <- ?app_assoc; done.
Qed.

Lemma write_row_spec (w : Writer.t) (entries : list text) :
  Writer.is_open (Writer.stream_ w) = true →
  let w' := Writer.write_row entries w in
  Writer.written (Writer.stream_ w')
  = Writer.written (Writer.stream_ w)
    ++ (if Writer.header_written_ w then [] else header_line (writer_dialect w))
    ++ written_line (writer_dialect w) entries
  ∧ Writer.is_open (Writer.stream_ w') = true
  ∧ Writer.header_written_ w' = true
  ∧ writer_dialect w' = writer_dialect w.
Proof.
  intros Hopen. unfold Writer.write_row.
  edestruct (write_current_row_spec
               (Writer.mk (Writer.header_written_ w) (Writer.stream_ w) entries
                  (Writer.current_dialect_name_ w) (Writer.dialects_ w)))
    as (Hw & Ho & Hh & Hd & _); [exact Hopen|].
  split_and!; done.
Qed.

(** C9. On an open stream, [write_row()] emits the current entries joined
    by the configured delimiter and ended by the line terminator, each entry
    as it is, after the header line if no row was written before; over any
    sequence of rows handed to [write_row] by a writer that has written none,
    the output is the header line (the column names joined the same way,
    nothing when no column names are configured), then one line per row:
    the header is written once, before the first row. *)
Theorem write_row_joins_fields (w : Writer.t) (rows : list (list text)) :
  Writer.is_open (Writer.stream_ w) = true →
  Writer.written (Writer.stream_ (Writer.write_current_row w))
  = Writer.written (Writer.stream_ w)
    ++ (if Writer.header_written_ w then [] else header_line (writer_dialect w))
    ++ Writer.join (delimiter_ (writer_dialect w)) (Writer.current_row_entries_ w)
    ++ [line_terminator_ (writer_dialect w)]
  ∧ Writer.written
      (Writer.stream_ (foldl (λ w entries, Writer.write_row entries w) w rows))
    = Writer.written (Writer.stream_ w)
      ++ (if Writer.header_written_ w || bool_decide (rows = []) then []
          else header_line (writer_dialect w))
      ++ concat (written_line (writer_dialect w) <$> rows).
Proof.
  intros Hopen. split.
  { by destruct (write_current_row_spec w Hopen) as (-> & _). }
  revert w Hopen. induction rows as [|entries rows IH]; intros w Hopen.
  - simpl. by rewrite orb_true_r, app_nil_r.
  - cbn [foldl].
    destruct (write_row_spec w entries Hopen) as (Hw & Hopen' & Hhw & Hd).
    rewrite IH by done. rewrite Hw, Hhw, Hd. cbn [orb].
    rewrite bool_decide_eq_false_2 by done. rewrite orb_false_r.
    csimpl. by rewrite <- !app_assoc.
Qed.

(** C9 on two rows written under column names [x] and [y]; the fields that
    hold a comma or quote characters are written as they are. *)
Lemma write_row_joins_fields_witness :
  Writer.written
    (Writer.stream_
       (foldl (λ w entries, Writer.write_row entries w)
          (configured_writer (add_column_names [txt "x"; txt "y"] Dialect_default))
          [[txt "1"; txt "a,b"]; [quoted (txt "q"); []]]))
  = txt "x,y" ++ [NEWLINE] ++ txt "1,a,b" ++ [NEWLINE]
    ++ quoted (txt "q") ++ txt "," ++ [NEWLINE].
Proof.
  rewrite (proj2 (write_row_joins_fields
                    (configured_writer
                       (add_column_names [txt "x"; txt "y"] Dialect_default))
                    [[txt "1"; txt "a,b"]; [quoted (txt "q"); []]] eq_refl)).
  reflexivity.
Defined.

(** * The dialect registry *)

(** C10. [use_dialect] stores the name before it looks it up: for a name
    not in the registry it throws, and the reader it leaves has that name as
    its current dialect name and is otherwise unchanged; for a registered
    name it returns, with the same update. *)
Theorem use_dialect_sets_name_first (r : Reader.t) (dialect_name : text) :
  let r' :=
    Reader.mk (Reader.headers_ r) (Reader.rows_ r) (Reader.columns_ r)
      (Reader.expected_number_of_rows_ r) dialect_name (Reader.dialects_ r)
      (Reader.current_dialect_ r) (Reader.ignore_columns_enabled_ r)
      (Reader.trimming_enabled_ r) in
  Reader.current_dialect_name_ r' = dialect_name
  ∧ (Reader.dialects_ r !! dialect_name = None →
     Reader.use_dialect dialect_name r
     = Throws (txt "error: Dialect " ++ dialect_name ++ txt " not found") r')
  ∧ (is_Some (Reader.dialects_ r !! dialect_name) →
     Reader.use_dialect dialect_name r = Returns r').
Proof.
  intros r'. unfold Reader.use_dialect. split_and!.
  - done.
  - by intros ->.
  - by intros [d ->].
Qed.

(** C10 on a new reader, with a name that is not registered and one that
    is. *)
Lemma use_dialect_sets_name_first_witness :
  (∃ what r', Reader.use_dialect (txt "nope") Reader.new = Throws what r'
              ∧ Reader.current_dialect_name_ r' = txt "nope"
              ∧ Reader.current_dialect_name_ Reader.new = txt "excel")
  ∧ (∃ r', Reader.use_dialect (txt "unix") Reader.new = Returns r'
           ∧ Reader.current_dialect_name_ r' = txt "unix").
Proof.
  destruct (use_dialect_sets_name_first Reader.new (txt "nope")) as (Hname & Hthrows & _).
  destruct (use_dialect_sets_name_first Reader.new (txt "unix")) as (Hname' & _ & Hreturns).
  split.
  - eexists _, _. split; [apply Hthrows; reflexivity|]. split; reflexivity.
  - eexists. split; [apply Hreturns; vm_compute; eauto|]. reflexivity.
Defined.

(** * Trimming: [ltrim], [rtrim], [trim] *)

Lemma drop_while_split {A} (p : A → bool) (l : list A) :
  ∃ pre, l = pre ++ drop_while p l
    ∧ Forall (λ x, p x = true) pre
    ∧ ∀ x, head (drop_while p l) = Some x → p x = false.
Proof.
  induction l as [|a l (pre & Hl & Hpre & Hhd)]; simpl.
  - exists []. split_and!; [done|constructor|done].
  - destruct (p a) eqn:Hp.
    + exists (a :: pre). split_and!; [by rewrite <- app_comm_cons, <- Hl|by constructor|done].
    + exists []. split_and!; [done|constructor|]. simpl. by intros x [= <-].
Qed.

Lemma drop_while_fixed {A} (p : A → bool) (l : list A) :
  (∀ x, head l = Some x → p x = false) → drop_while p l = l.
Proof.
  destruct l as [|a l]; [done|]. simpl. intros H. by rewrite (H a eq_refl).
Qed.

Lemma drop_while_suffix_last {A} (p : A → bool) (l : list A) x :
  last (drop_while p l) = Some x → last l = Some x.
Proof.
  destruct (drop_while_split p l) as (pre & Hl & _ & _).
  intros H. rewrite Hl. rewrite last_app. by rewrite H.
Qed.

Lemma head_rev {A} (l : list A) : head (rev l) = last l.
Proof. rewrite rev_alt. apply head_reverse. Qed.

Lemma is_trim_character_true d c :
  is_trim_character d c = true ↔ c ∈ trim_characters_ d.
Proof. unfold is_trim_character. by rewrite bool_decide_eq_true. Qed.

Lemma is_trim_character_false d c :
  is_trim_character d c = false ↔ c ∉ trim_characters_ d.
Proof. unfold is_trim_character. by rewrite bool_decide_eq_false. Qed.

Lemma ltrim_split d s :
  ∃ pre, s = pre ++ ltrim d s
    ∧ Forall (λ c, c ∈ trim_characters_ d) pre
    ∧ ∀ c, head (ltrim d s) = Some c → c ∉ trim_characters_ d.
Proof.
  destruct (drop_while_split (is_trim_character d) s) as (pre & Hs & Hpre & Hhd).
  exists pre. split_and!; [done| |].
  - eapply Forall_impl; [exact Hpre|]. intros c. apply is_trim_character_true.
  - intros c Hc. apply is_trim_character_false. by apply Hhd.
Qed.

Lemma rtrim_split d s :
  ∃ post, s = rtrim d s ++ post
    ∧ Forall (λ c, c ∈ trim_characters_ d) post
    ∧ ∀ c, last (rtrim d s) = Some c → c ∉ trim_characters_ d.
Proof.
  destruct (drop_while_split (is_trim_character d) (rev s)) as (pre & Hs & Hpre & Hhd).
  exists (rev pre). unfold rtrim. split_and!.
  - rewrite <- rev_app_distr, <- Hs. by rewrite rev_involutive.
  - apply Forall_rev. eapply Forall_impl; [exact Hpre|].
    intros c. apply is_trim_character_true.
  - intros c Hc. apply is_trim_character_false, Hhd.
    by rewrite <- head_rev, rev_involutive in Hc.
Qed.

Lemma trim_split d s :
  trim_characters_ d ≠ [] →
  ∃ pre post,
    s = pre ++ trim d s ++ post
    ∧ Forall (λ c, c ∈ trim_characters_ d) pre
    ∧ Forall (λ c, c ∈ trim_characters_ d) post
    ∧ (∀ c, head (trim d s) = Some c → c ∉ trim_characters_ d)
    ∧ (∀ c, last (trim d s) = Some c → c ∉ trim_characters_ d).
Proof.
  intros Hne. unfold trim.
  destruct (trim_characters_ d) as [|t ts] eqn:Hts; [done|]. simpl. rewrite <- Hts.
  destruct (rtrim_split d s) as (post & Hs & Hpost & Hlast).
  destruct (ltrim_split d (rtrim d s)) as (pre & Hr & Hpre & Hhd).
  exists pre, post. split_and!; try done.
  - rewrite app_assoc, <- Hr. exact Hs.
  - intros c Hc. apply Hlast. by apply drop_while_suffix_last in Hc.
Qed.

Lemma trim_fixed d s :
  (∀ c, head s = Some c → c ∉ trim_characters_ d) →
  (∀ c, last s = Some c → c ∉ trim_characters_ d) →
  trim d s = s.
Proof.
  intros Hhd Hlast. unfold trim. case_match; [done|].
  assert (rtrim d s = s) as ->.
  { unfold rtrim. rewrite drop_while_fixed; [apply rev_involutive|].
    intros c Hc. apply is_trim_character_false, Hlast.
    by rewrite <- head_rev. }
  apply drop_while_fixed. intros c Hc. by apply is_trim_character_false, Hhd.
Qed.

Lemma trim_trimmed d s : trimmed d (trim d s).
Proof.
  destruct (decide (trim_characters_ d = [])) as [He|Hne].
  - intros c _. rewrite He. apply not_elem_of_nil.
  - destruct (trim_split d s Hne) as (pre & post & _ & _ & _ & Hhd & Hlast).
    intros c [Hc|Hc]; [by apply Hhd|by apply Hlast].
Qed.

Lemma trimmed_nil d : trimmed d [].
Proof. by intros c [?|?]. Qed.

(** X1. With trim characters configured, [trim] removes a run of trim
    characters from the front of the text and a run from its back and nothing
    else: the input is the result between two runs of trim characters, and the
    result neither begins nor ends with a trim character. *)
Theorem trim_strips_both_ends (d : Dialect) (s : text) :
  trim_characters_ d ≠ [] →
  ∃ pre post,
    s = pre ++ trim d s ++ post
    ∧ Forall (λ c, c ∈ trim_characters_ d) pre
    ∧ Forall (λ c, c ∈ trim_characters_ d) post
    ∧ trimmed d (trim d s).
Proof.
  intros Hne. destruct (trim_split d s Hne) as (pre & post & Hs & Hpre & Hpost & _).
  exists pre, post. split_and!; try done. apply trim_trimmed.
Qed.

(** X1 on a text with spaces at both ends, the space being the trim
    character. *)
Lemma trim_strips_both_ends_witness :
  ∃ pre post,
    txt "  a b " = pre ++ trim (add_trim_characters [SPACE] Dialect_default) (txt "  a b ")
                   ++ post
    ∧ Forall (λ c, c ∈ [SPACE]) pre
    ∧ Forall (λ c, c ∈ [SPACE]) post
    ∧ trimmed (add_trim_characters [SPACE] Dialect_default)
        (trim (add_trim_characters [SPACE] Dialect_default) (txt "  a b ")).
Proof.
  apply (trim_strips_both_ends (add_trim_characters [SPACE] Dialect_default)
           (txt "  a b ")).
  discriminate.
Defined.

(** X2. [trim] is idempotent, for every dialect and text. *)
Theorem trim_idempotent (d : Dialect) (s : text) : trim d (trim d s) = trim d s.
Proof.
  apply trim_fixed; intros c Hc; apply (trim_trimmed d s c); eauto.
Qed.

Section Trimmed.
Variable d : Dialect.
Variable input_string : text.

Local Abbreviation inner := (Reader.delimiter_loop d true input_string).
Local Abbreviation body := (Reader.split_body d true input_string).
Local Abbreviation loop := (Reader.split_loop d true input_string).

Lemma delimiter_loop_trimmed fuel : ∀ j st,
  Forall (trimmed d) (Reader.result st) →
  Forall (trimmed d) (Reader.result (inner fuel j st)).
Proof.
  induction fuel as [|fuel IH]; intros j st Hst; [done|].
  simpl. case_match; [|done].
  unfold Reader.delimiter_body.
  repeat case_match; simplify_eq; simpl; try done; try (apply IH; simpl; try done).
  all: apply Forall_app; split; [done|]; constructor; [|constructor];
    apply trim_trimmed.
Qed.

Lemma split_body_trimmed st :
  Forall (trimmed d) (Reader.result st) → Forall (trimmed d) (Reader.result (body st)).
Proof. intros Hst. unfold Reader.split_body. simpl. by apply delimiter_loop_trimmed. Qed.

Lemma split_loop_trimmed fuel : ∀ st st',
  Forall (trimmed d) (Reader.result st) →
  loop fuel st = Some st' →
  Forall (trimmed d) (Reader.result st').
Proof.
  induction fuel as [|fuel IH]; intros st st' Hst; simpl.
  - case_match; [done|]. by intros [= <-].
  - case_match; [|by intros [= <-]]. apply IH. by apply split_body_trimmed.
Qed.
End Trimmed.

Lemma split_with_trimmed d columns line fields :
  Reader.split_with d true columns line = Some fields →
  Forall (trimmed d) fields.
Proof.
  unfold Reader.split_with, Reader.split_fields. intros H.
  destruct (Reader.split_loop d true line (length line) (Reader.split_init columns line))
    as [st|] eqn:Hloop; [|done].
  simpl in H. injection H as <-.
  apply split_loop_trimmed in Hloop.
  2:{ unfold Reader.split_init. simpl. case_match; [|constructor].
      apply Forall_replicate, trimmed_nil. }
  assert (Forall (trimmed d) (Reader.flush_last d true st)) as Hfl.
  { unfold Reader.flush_last. case_match; [|done].
    apply Forall_app; split; [done|]. constructor; [|constructor]. apply trim_trimmed. }
  unfold Reader.pad_truncate. repeat case_match; try done.
  - apply Forall_app; split; [done|]. apply Forall_replicate, trimmed_nil.
  - by apply Forall_take.
Qed.

Section StaleTrimming.
Variable d : Dialect.
Variable input_string : text.
Hypothesis Hnone : trim_characters_ d = [].

Lemma flushed_no_trim b s : Reader.flushed d b s = s.
Proof. unfold Reader.flushed, trim. rewrite Hnone. by destruct b. Qed.

Lemma delimiter_body_no_trim b j st :
  Reader.delimiter_body d b input_string j st
  = Reader.delimiter_body d false input_string j st.
Proof. unfold Reader.delimiter_body. by rewrite !flushed_no_trim. Qed.

Lemma delimiter_loop_no_trim b fuel : ∀ j st,
  Reader.delimiter_loop d b input_string fuel j st
  = Reader.delimiter_loop d false input_string fuel j st.
Proof.
  induction fuel as [|fuel IH]; intros j st; [done|].
  simpl. rewrite delimiter_body_no_trim.
  case_match; [|done]. by repeat case_match.
Qed.

Lemma split_body_no_trim b st :
  Reader.split_body d b input_string st = Reader.split_body d false input_string st.
Proof. unfold Reader.split_body. by rewrite delimiter_loop_no_trim. Qed.

Lemma split_loop_no_trim b fuel : ∀ st,
  Reader.split_loop d b input_string fuel st
  = Reader.split_loop d false input_string fuel st.
Proof.
  induction fuel as [|fuel IH]; intros st; simpl; [done|].
  case_match; [|done]. by rewrite split_body_no_trim.
Qed.

Lemma split_with_no_trim b columns :
  Reader.split_with d b columns input_string
  = Reader.split_with d false columns input_string.
Proof.
  unfold Reader.split_with, Reader.split_fields.
  rewrite split_loop_no_trim.
  destruct (Reader.split_loop d false input_string _ _) as [st|]; [|done].
  simpl. unfold Reader.flush_last. by rewrite !flushed_no_trim.
Qed.
End StaleTrimming.

(** * A space after the delimiter *)

Lemma char_at_app (a b : text) k : char_at (a ++ b) (length a + k) = char_at b k.
Proof. unfold char_at. apply app_nth2_plus. Qed.

Section ScanSpaced.
Variable d : Dialect.
Variable trimming_enabled : bool.
Variable input_string : text.

Local Abbreviation n := (length input_string).
Local Abbreviation body := (Reader.split_body d trimming_enabled input_string).
Local Abbreviation split_step := (split_step d trimming_enabled input_string).
Local Abbreviation flushed := (Reader.flushed d trimming_enabled).
Local Abbreviation quote := (quote_character_ d).

(** Fields separated by the delimiter and one space, under
    [skip_initial_space_]: the space after each delimiter is passed over. *)
Lemma scan_fields_spaced fs : ∀ f pre st,
  skip_initial_space_ d = true →
  delimiter_ d ≠ [] →
  quote ≠ SPACE →
  input_string = pre ++ f ++ concat (map (app (delimiter_ d ++ [SPACE])) fs) →
  Reader.idx st = length pre →
  Reader.sub_result st = [] →
  Reader.quotes_encountered st = 0 →
  scannable_field d f →
  Forall (scannable_field d) fs →
  ∃ st', rtc split_step st st'
    ∧ Reader.idx st' = n
    ∧ Reader.sub_result st' = List.last fs f
    ∧ Reader.result st' = Reader.result st ++ (flushed <$> removelast (f :: fs)).
Proof.
  induction fs as [|g fs IH];
    intros f pre st Hskip HD Hq Hin Hidx Hsub Hq0 Hf Hfs.
  - destruct (scan_field d trimming_enabled input_string f pre [] st Hf Hin Hidx Hsub Hq0)
      as (q & b & _ & Hb & Hrun).
    eexists. split; [exact Hrun|]. simpl.
    split_and!; try done.
    + rewrite Hin, Hidx, !length_app. simpl. lia.
    + by rewrite app_nil_r.
  - apply Forall_cons in Hfs as [Hg Hfs]. simpl in Hin.
    rewrite <- !app_assoc in Hin.
    destruct (scan_field d trimming_enabled input_string f pre _ st Hf Hin Hidx Hsub Hq0)
      as (q & b & Heven & _ & Hrun1).
    set (st1 := Reader.mkSplit _ _ _ _ _) in Hrun1.
    assert (0 < length (delimiter_ d)) as HDlen.
    { destruct (delimiter_ d); [done|simpl; lia]. }
    assert (Reader.idx st1 + length (delimiter_ d) < n) as Hn1.
    { subst st1; simpl. rewrite Hin, Hidx, !length_app. simpl. lia. }
    assert (∀ k, k < length (delimiter_ d) →
              char_at input_string (Reader.idx st1 + k) = char_at (delimiter_ d) k)
      as Hmatch.
    { intros k Hk. subst st1; simpl. rewrite Hin, Hidx.
      rewrite (app_assoc pre f), <- length_app. by apply char_at_middle. }
    assert (char_at input_string (Reader.idx st1 + length (delimiter_ d)) = SPACE)
      as Hspace.
    { subst st1; simpl. rewrite Hin, Hidx, <- Nat.add_assoc.
      rewrite !char_at_app. simpl. apply char_at_head. }
    pose proof (body_delimiter_accept d trimming_enabled input_string st1 HD Hmatch
                  ltac:(lia) Heven) as Hacc.
    cbv zeta in Hacc.
    replace (Reader.idx st1 + length (delimiter_ d) - 1 + 1)
      with (Reader.idx st1 + length (delimiter_ d)) in Hacc by lia.
    rewrite (proj2 (Nat.ltb_lt _ _) Hn1), Hskip, Hspace in Hacc.
    rewrite bool_decide_eq_true_2 in Hacc by done. cbn [andb] in Hacc.
    rewrite Hspace in Hacc.
    rewrite bool_decide_eq_false_2 in Hacc by done.
    set (st2 := Reader.mkSplit _ _ _ _ _) in Hacc.
    destruct (IH g (pre ++ f ++ delimiter_ d ++ [SPACE]) st2)
      as (st' & Hrun & Hi & Hs & Hr); try done.
    { by rewrite Hin, <- !app_assoc. }
    { subst st2 st1; simpl. rewrite Hidx, !length_app. simpl. lia. }
    exists st'. split_and!; try done.
    + eapply rtc_trans; [exact Hrun1|].
      eapply rtc_l; [|exact Hrun]. split; [|done]. lia.
    + by rewrite Hs, last_cons_default.
    + rewrite Hr. simpl. by rewrite <- app_assoc.
Qed.
End ScanSpaced.

Lemma split_fields_spaced d trimming_enabled columns f fs :
  skip_initial_space_ d = true →
  delimiter_ d ≠ [] →
  quote_character_ d ≠ SPACE →
  scannable_field d f → Forall (scannable_field d) fs →
  fields_line (delimiter_ d ++ [SPACE]) f fs ≠ [] →
  Reader.split_fields d trimming_enabled columns
    (fields_line (delimiter_ d ++ [SPACE]) f fs)
  = Some (Reader.flushed d trimming_enabled <$> drop_last_empty (f :: fs)).
Proof.
  intros Hskip HD Hq Hf Hfs Hne.
  set (line := fields_line (delimiter_ d ++ [SPACE]) f fs) in *.
  destruct (scan_fields_spaced d trimming_enabled line fs f []
              (Reader.split_init columns line))
    as (st & Hrun & Hi & Hs & Hr); try done.
  unfold Reader.split_fields.
  rewrite (split_loop_steps d trimming_enabled line _ st Hrun ltac:(lia) (length line));
    [|unfold Reader.split_init; cbn [Reader.idx]; lia].
  simpl. f_equal.
  unfold Reader.flush_last, drop_last_empty.
  rewrite Hs, Hr, last_cons_default.
  unfold Reader.split_init; cbn [Reader.result].
  rewrite (bool_decide_eq_false_2 (line = [])) by done. rewrite app_nil_l.
  destruct (decide (List.last fs f = [])) as [Hl|Hl].
  - rewrite bool_decide_eq_false_2 by (by intros ?).
    by rewrite bool_decide_eq_true_2.
  - rewrite bool_decide_eq_true_2 by done.
    rewrite bool_decide_eq_false_2 by done.
    rewrite <- (removelast_snoc_last (f :: fs) []) at 2 by done.
    by rewrite fmap_app, last_cons_default.
Qed.

(** X3. With [skip_initial_space_] set, exactly one space after each
    delimiter is passed over: fields joined by the delimiter followed by one
    space tokenize to the fields themselves (trimmed as configured), also the
    fields that begin with more spaces, which they keep. The fields are free
    of delimiter and quote characters, or wrapped in quote characters. *)
Theorem skip_initial_space_skips_one_space (r : Reader.t) (fields : list text) :
  let d := Reader.current_dialect_ r in
  skip_initial_space_ d = true →
  delimiter_ d ≠ [] →
  quote_character_ d ≠ SPACE →
  Forall (scannable_field d) fields →
  Reader.columns_ r = length fields →
  Reader.split r (Writer.join (delimiter_ d ++ [SPACE]) fields)
  = Some (Reader.flushed d (Reader.trimming_enabled_ r) <$> fields).
Proof.
  intros d Hskip HD Hq Hfields Hk.
  destruct fields as [|f fs].
  { simpl. rewrite split_empty, Hk. done. }
  rewrite join_fields_line.
  destruct (decide (fields_line (delimiter_ d ++ [SPACE]) f fs = [])) as [Hnil|Hne].
  - rewrite Hnil, split_empty, Hk.
    unfold fields_line in Hnil. apply app_eq_nil in Hnil as [-> Hnil].
    destruct fs as [|g fs]; [|by destruct (delimiter_ d)].
    simpl. by rewrite flushed_nil.
  - apply Forall_cons in Hfields as [Hf Hfs].
    unfold Reader.split, Reader.split_with. fold d.
    rewrite split_fields_spaced by done. simpl. f_equal.
    rewrite pad_truncate_drop_last_empty by (rewrite Hk; simpl; lia).
    rewrite Hk, <- (length_fmap (Reader.flushed d (Reader.trimming_enabled_ r))).
    apply pad_truncate_exact.
Qed.

(** X3 on three fields, the second of which begins with a space of its
    own. *)
Lemma skip_initial_space_skips_one_space_witness :
  Reader.split
    (reader_with (set_skip_initial_space true Dialect_default) false
       [txt "x"; txt "y"; txt "z"])
    (txt "a,  b, c")
  = Some [txt "a"; txt " b"; txt "c"].
Proof.
  apply (skip_initial_space_skips_one_space
           (reader_with (set_skip_initial_space true Dialect_default) false
              [txt "x"; txt "y"; txt "z"])
           [txt "a"; txt " b"; txt "c"]).
  - reflexivity.
  - discriminate.
  - discriminate.
  - repeat constructor; discriminate.
  - reflexivity.
Defined.

(** * The values of the rows *)

Lemma counted_lines_eligible skip lines :
  counted_lines skip lines = length (eligible_lines skip lines).
Proof.
  unfold counted_lines, eligible_lines.
  induction lines as [|l lines IH]; [done|]. simpl.
  destruct (Reader.counted skip (Reader.strip_cr l)); simpl; by rewrite IH.
Qed.

Lemma foldl_insert_list_to_map (l : list (text * text)) : ∀ m : gmap text text,
  foldl (λ m hv, <[hv.1 := hv.2]> m) m l = list_to_map (reverse l) ∪ m.
Proof.
  induction l as [|[h v] l IH]; intros m; simpl.
  - by rewrite (left_id_L ∅ (∪)).
  - rewrite IH, reverse_cons, list_to_map_app. simpl.
    rewrite <- (assoc_L (∪)). f_equal.
    rewrite insert_empty, <- insert_union_singleton_l. done.
Qed.

Section RowOf.
Variable headers : list text.
Variable enabled : bool.
Variable ignore_columns : gmap text bool.
Hypothesis enabled_if_any : enabled = false → ignore_columns = ∅.

Lemma bind_row_foldl values : ∀ i m m',
  Reader.bind_row headers enabled ignore_columns i values m = Some m' →
  m' = foldl (λ m hv, <[hv.1 := hv.2]> m) m
         (filter (λ hv, hv.1 ∉ dom ignore_columns) (zip (drop i headers) values)).
Proof.
  induction values as [|v values IH]; intros i m m'; simpl.
  - intros [= <-]. by rewrite zip_with_nil_r.
  - destruct (headers !! i) as [h|] eqn:Hh; [|done].
    intros Hb. apply IH in Hb. rewrite (drop_S _ _ _ Hh). simpl.
    rewrite Nat.add_1_r in Hb. rewrite filter_cons. simpl.
    destruct (decide (h ∉ dom ignore_columns)) as [Hk|Hk].
    + simpl. rewrite bool_decide_eq_true_2 in Hb by done.
      by rewrite orb_true_r in Hb.
    + rewrite bool_decide_eq_false_2 in Hb by done.
      destruct enabled; [done|].
      rewrite enabled_if_any, dom_empty_L in Hk by done.
      destruct Hk. apply not_elem_of_empty.
Qed.

Lemma bind_row_row_of values m :
  length values = length headers →
  dom m = row_keys headers ignore_columns →
  Reader.bind_row headers enabled ignore_columns 0 values m
  = Some (row_of headers ignore_columns values).
Proof.
  intros Hlen Hdom.
  destruct (bind_row_defined headers enabled ignore_columns values 0 m) as [m' Hm'];
    [lia|].
  rewrite Hm'. f_equal. apply bind_row_foldl in Hm'. rewrite drop_0 in Hm'.
  rewrite foldl_insert_list_to_map in Hm'. subst m'. unfold row_of.
  apply map_eq. intros h. rewrite lookup_union.
  destruct (list_to_map _ !! h) as [v|] eqn:Hv; [by destruct (m !! h)|].
  rewrite (left_id_L None _).
  apply not_elem_of_list_to_map in Hv. apply not_elem_of_dom.
  rewrite Hdom. unfold row_keys. intros [Hin Hig]%elem_of_difference.
  apply Hv. apply elem_of_list_to_set in Hin.
  apply list_elem_of_lookup in Hin as [i Hi].
  destruct (lookup_lt_is_Some_2 values i) as [v Hvi].
  { rewrite Hlen. by eapply lookup_lt_Some. }
  apply list_elem_of_fmap. exists (h, v). split; [done|].
  apply elem_of_reverse, list_elem_of_filter. split; [done|].
  apply list_elem_of_lookup. exists i. apply lookup_zip_with_Some. eauto.
Qed.
End RowOf.

Lemma row_of_lookup headers ignore_columns fields i h v :
  NoDup headers → length headers ≤ length fields →
  headers !! i = Some h → fields !! i = Some v →
  h ∉ dom ignore_columns →
  row_of headers ignore_columns fields !! h = Some v.
Proof.
  intros Hnd Hlen Hh Hv Hig. unfold row_of.
  apply elem_of_list_to_map_1.
  - rewrite fmap_reverse, reverse_Permutation.
    eapply sublist_NoDup; [exact Hnd|].
    rewrite <- (fst_zip headers fields) at 2 by done.
    apply fmap_sublist, sublist_filter.
  - apply elem_of_reverse, list_elem_of_filter. split; [done|].
    apply list_elem_of_lookup. exists i. apply lookup_zip_with_Some. eauto.
Qed.

Lemma row_of_dom headers ignore_columns fields :
  length headers ≤ length fields →
  dom (row_of headers ignore_columns fields) = row_keys headers ignore_columns.
Proof.
  intros Hlen. unfold row_of, row_keys. rewrite dom_list_to_map_L.
  apply set_eq. intros h.
  rewrite elem_of_list_to_set, elem_of_difference, elem_of_list_to_set.
  rewrite list_elem_of_fmap. split.
  - intros ([h' v] & -> & [Hk Hin%elem_of_zip_l]%elem_of_reverse%list_elem_of_filter).
    done.
  - intros [Hin Hig]. apply list_elem_of_lookup in Hin as [i Hi].
    destruct (lookup_lt_is_Some_2 fields i) as [v Hvi].
    { eapply Nat.lt_le_trans; [by eapply lookup_lt_Some|done]. }
    exists (h, v). split; [done|].
    apply elem_of_reverse, list_elem_of_filter. split; [done|].
    apply list_elem_of_lookup. exists i. apply lookup_zip_with_Some. eauto.
Qed.

Section ParseRowsValues.
Variable r : Reader.t.
Hypothesis enabled_if_any :
  Reader.ignore_columns_enabled_ r = false →
  ignore_columns_ (Reader.current_dialect_ r) = ∅.
Hypothesis columns_headers : Reader.columns_ r = length (Reader.headers_ r).
Hypothesis columns_pos : 0 < Reader.columns_ r.

Local Abbreviation ignored := (ignore_columns_ (Reader.current_dialect_ r)).
Local Abbreviation keys := (row_keys (Reader.headers_ r) ignored).
Local Abbreviation skip := (skip_empty_rows_ (Reader.current_dialect_ r)).
Local Abbreviation expected := (Reader.expected_number_of_rows_ r).

(** The rows the loop pushes are the rows of the eligible lines, in order,
    up to the expected count; the reused row object carries nothing over. *)
Lemma parse_rows_values lines : ∀ number_of_rows current_row rows,
  number_of_rows ≤ expected →
  dom current_row = keys →
  ∃ new nr,
    Reader.parse_rows r lines number_of_rows current_row rows = Returns (rows ++ new, nr)
    ∧ Forall2 (λ row line, ∃ fields,
                 Reader.split r line = Some fields
                 ∧ length fields = length (Reader.headers_ r)
                 ∧ row = row_of (Reader.headers_ r) ignored fields)
        new (take (expected - number_of_rows) (eligible_lines skip lines)).
Proof.
  induction lines as [|line lines IH]; intros n cur rows Hn Hdom.
  - exists [], n. simpl. rewrite app_nil_r. split; [done|].
    unfold eligible_lines. simpl. rewrite take_nil. constructor.
  - simpl. destruct (Nat.eqb_spec n expected) as [->|Hne].
    { exists [], expected. rewrite app_nil_r, Nat.sub_diag. split; [done|constructor]. }
    unfold eligible_lines. simpl.
    destruct (Reader.counted skip (Reader.strip_cr line)) eqn:Hc.
    + destruct (split_total r (Reader.strip_cr line)) as [fields Hf]. rewrite Hf.
      pose proof (split_length r _ _ columns_pos Hf) as Hlen.
      rewrite columns_headers in Hlen.
      rewrite (bind_row_row_of _ _ _ enabled_if_any fields cur) by done.
      destruct (IH (n + 1) (row_of (Reader.headers_ r) ignored fields)
                  (rows ++ [row_of (Reader.headers_ r) ignored fields]))
        as (new & nr & -> & Hnew).
      { lia. }
      { apply row_of_dom. lia. }
      exists (row_of (Reader.headers_ r) ignored fields :: new), nr.
      split; [by rewrite <- app_assoc|].
      replace (expected - n) with (S (expected - (n + 1))) by lia. simpl.
      constructor; [eauto|done].
    + destruct (IH n cur rows Hn Hdom) as (new & nr & -> & Hnew). eauto.
Qed.
End ParseRowsValues.

Lemma read_internal_values lines r headers :
  (Reader.ignore_columns_enabled_ r = false →
   ignore_columns_ (Reader.current_dialect_ r) = ∅) →
  Reader.derive_headers r lines = Some headers → headers ≠ [] →
  ∃ new,
    Reader.read_internal lines r
    = Returns (Reader.with_rows (Reader.with_headers r headers) (Reader.rows_ r ++ new))
    ∧ Forall2 (λ row line, ∃ fields,
                 Reader.split (Reader.with_headers r headers) line = Some fields
                 ∧ length fields = length headers
                 ∧ row = row_of headers (ignore_columns_ (Reader.current_dialect_ r))
                           fields)
        new
        (take (Reader.expected_number_of_rows_ r)
           (eligible_lines (skip_empty_rows_ (Reader.current_dialect_ r))
              (Reader.data_lines r lines))).
Proof.
  intros Hinv Hh Hne. unfold Reader.read_internal. rewrite Hh.
  assert (0 < length headers) as Hpos by (destruct headers; [done|simpl; lia]).
  destruct (parse_rows_values (Reader.with_headers r headers) Hinv eq_refl Hpos
              (Reader.data_lines r lines) 0
              (Reader.row_template headers
                 (Reader.ignore_columns_enabled_ (Reader.with_headers r headers))
                 (ignore_columns_ (Reader.current_dialect_ (Reader.with_headers r headers))))
              (Reader.rows_ (Reader.with_headers r headers)))
    as (new & nr & Hparse & Hnew).
  - simpl. lia.
  - simpl. by apply row_template_dom.
  - rewrite Hparse. exists new. split; [done|].
    simpl in Hnew. rewrite Nat.sub_0_r in Hnew. exact Hnew.
Qed.

(** X4. When [read] establishes a non-empty header, it returns, and the rows
    the pass pushes are, in order, the rows of the first
    [expected_number_of_rows_] data lines that are counted: each row binds
    every header name that is not ignored to the field of its line at the
    name's position, and holds no ignored name. The row object that the loop
    reuses carries no value over from one line to the next. *)
Theorem read_rows_bind_line_fields fs filename rows (r : Reader.t) bytes headers :
  fs filename = Some bytes →
  Reader.derive_headers (Reader.prepare (Reader.stream_lines bytes) rows r)
    (Reader.stream_lines bytes) = Some headers →
  headers ≠ [] →
  let r0 := Reader.prepare (Reader.stream_lines bytes) rows r in
  let d := Reader.current_dialect_ r0 in
  ∃ r',
    Reader.read fs filename rows r = Returns r'
    ∧ Reader.cols r' = headers
    ∧ Forall2
        (λ row line, ∃ fields,
           Reader.split (Reader.with_headers r0 headers) line = Some fields
           ∧ length fields = length headers
           ∧ row = row_of headers (ignore_columns_ d) fields
           ∧ (∀ h, h ∈ dom (ignore_columns_ d) → row !! h = None)
           ∧ (NoDup headers →
              ∀ i h, headers !! i = Some h → h ∉ dom (ignore_columns_ d) →
                     row !! h = fields !! i))
        (pass_rows r r')
        (take (Reader.expected_number_of_rows_ r0)
           (eligible_lines (skip_empty_rows_ d)
              (Reader.data_lines r0 (Reader.stream_lines bytes)))).
Proof.
  intros Hfs Hh Hne r0 d. unfold Reader.read. rewrite Hfs. fold r0.
  destruct (read_internal_values (Reader.stream_lines bytes) r0 headers)
    as (new & Hread & Hnew); [apply prepare_enabled|done|done|].
  eexists. split; [exact Hread|]. split; [reflexivity|].
  rewrite (pass_rows_app r _ new).
  2:{ unfold Reader.with_rows. cbn [Reader.rows_]. subst r0. by rewrite prepare_rows. }
  eapply Forall2_impl; [exact Hnew|].
  intros row line (fields & Hsplit & Hlen & ->). exists fields.
  split_and!; try done.
  - intros h Hig. apply not_elem_of_dom. rewrite row_of_dom by lia.
    unfold row_keys. by intros [_ ?]%elem_of_difference.
  - intros Hnd i h Hi Hig.
    destruct (lookup_lt_is_Some_2 fields i) as [v Hv].
    { rewrite Hlen. by eapply lookup_lt_Some. }
    rewrite Hv. eapply row_of_lookup; try done. lia.
Qed.

(** X4 on the file of a header [a,b,c], the row [1,2,3] and the short row
    [4,5]: the second row binds [c] to the empty string. *)
Lemma read_rows_bind_line_fields_witness :
  ∃ r' row1 row2,
    Reader.read (one_file abc_file) (txt "abc.csv") 0 Reader.new = Returns r'
    ∧ Reader.rows r' = [row1; row2]
    ∧ row1 !! txt "b" = Some (txt "2")
    ∧ row2 !! txt "b" = Some (txt "5")
    ∧ row2 !! txt "c" = Some [].
Proof.
  destruct (read_rows_bind_line_fields (one_file abc_file) (txt "abc.csv") 0 Reader.new
              abc_file [txt "a"; txt "b"; txt "c"])
    as (r' & Hread & _ & Hnew).
  - reflexivity.
  - vm_compute. reflexivity.
  - discriminate.
  - set (r0 := Reader.prepare (Reader.stream_lines abc_file) 0 Reader.new) in *.
    assert (take (Reader.expected_number_of_rows_ r0)
              (eligible_lines (skip_empty_rows_ (Reader.current_dialect_ r0))
                 (Reader.data_lines r0 (Reader.stream_lines abc_file)))
            = [txt "1,2,3"; txt "4,5"]) as Hlines by (vm_compute; reflexivity).
    assert (ignore_columns_ (Reader.current_dialect_ r0) = ∅) as Hig
      by (vm_compute; reflexivity).
    assert (Reader.split (Reader.with_headers r0 [txt "a"; txt "b"; txt "c"])
              (txt "1,2,3") = Some [txt "1"; txt "2"; txt "3"]) as Hs1
      by (vm_compute; reflexivity).
    assert (Reader.split (Reader.with_headers r0 [txt "a"; txt "b"; txt "c"])
              (txt "4,5") = Some [txt "4"; txt "5"; []]) as Hs2
      by (vm_compute; reflexivity).
    assert (NoDup [txt "a"; txt "b"; txt "c"]) as Hnd.
    { apply (bool_decide_unpack _). vm_compute. exact I. }
    change (pass_rows Reader.new r') with (Reader.rows r') in Hnew.
    rewrite Hlines, Hig in Hnew. clearbody r0.
    apply Forall2_cons_inv_r in Hnew
      as (row1 & new' & (fields1 & Hsplit1 & _ & _ & _ & Hrow1) & Hnew & Hrows).
    apply Forall2_cons_inv_r in Hnew
      as (row2 & new'' & (fields2 & Hsplit2 & _ & _ & _ & Hrow2) & Hnew & ->).
    apply Forall2_nil_inv_r in Hnew as ->.
    rewrite Hs1 in Hsplit1. rewrite Hs2 in Hsplit2.
    injection Hsplit1 as <-. injection Hsplit2 as <-.
    assert (∀ h : text, h ∉ dom (∅ : gmap text bool)) as Hno.
    { intros h. rewrite dom_empty_L. apply not_elem_of_empty. }
    exists r', row1, row2. split; [exact Hread|].
    split; [exact Hrows|].
    split; [exact (Hrow1 Hnd 1 (txt "b") eq_refl (Hno _))|].
    split; [exact (Hrow2 Hnd 1 (txt "b") eq_refl (Hno _))|].
    exact (Hrow2 Hnd 2 (txt "c") eq_refl (Hno _)).
Defined.

Lemma prepare_dialect lines rows r :
  Reader.current_dialect_ (Reader.prepare lines rows r)
  = Reader.current_dialect_ (Reader.load_dialect r).
Proof. done. Qed.

Lemma prepare_columns lines rows r :
  Reader.columns_ (Reader.prepare lines rows r) = Reader.columns_ r.
Proof.
  unfold Reader.prepare, Reader.enable_flags, Reader.count_rows, Reader.load_dialect.
  by destruct (subscript _ _).
Qed.

Lemma read_returns fs filename rows r bytes r' :
  fs filename = Some bytes →
  Reader.read fs filename rows r = Returns r' →
  let lines := Reader.stream_lines bytes in
  let r0 := Reader.prepare lines rows r in
  ∃ headers new,
    Reader.derive_headers r0 lines = Some headers
    ∧ Reader.headers_ r' = headers
    ∧ Reader.columns_ r' = length headers
    ∧ Reader.expected_number_of_rows_ r' = Reader.expected_number_of_rows_ r0
    ∧ Reader.rows_ r' = Reader.rows_ r ++ new
    ∧ length new
      = Reader.expected_number_of_rows_ r0
        `min` counted_lines (skip_empty_rows_ (Reader.current_dialect_ r0))
                (Reader.data_lines r0 lines).
Proof.
  intros Hfs. unfold Reader.read. rewrite Hfs. intros Hread. cbv zeta.
  apply read_internal_returns in Hread as (headers & new & Hh & -> & Hlen & _);
    [|apply prepare_enabled].
  exists headers, new. split_and!; try done.
  unfold Reader.with_rows. cbn [Reader.rows_]. by rewrite prepare_rows.
Qed.

(** X5. With a row count [rows > 0] given by the caller, [read] does not scan
    the file first: [shape()] reports [rows] whatever the file holds and
    whatever count the reader held before, and [rows_] grows by the smaller of
    [rows] and the number of counted data lines. The call never throws when
    the file opens. *)
Theorem read_with_row_count fs filename rows (r : Reader.t) bytes :
  fs filename = Some bytes →
  0 < rows →
  let lines := Reader.stream_lines bytes in
  let d := Reader.current_dialect_ (Reader.load_dialect r) in
  (∀ r', Reader.read fs filename rows r = Returns r' →
     Reader.shape r' = (rows, length (Reader.cols r'))
     ∧ length (Reader.rows r')
       = length (Reader.rows r)
         + rows `min` counted_lines (skip_empty_rows_ d)
                        (if header_ d then tl lines else lines))
  ∧ match Reader.read fs filename rows r with
    | Returns _ | Undefined => True
    | Throws _ _ | OutOfFuel => False
    end.
Proof.
  intros Hfs Hrows lines d. split.
  - intros r' Hread.
    destruct (read_returns _ _ _ _ _ _ Hfs Hread)
      as (headers & new & _ & Hh & Hc & He & Hr & Hlen).
    rewrite prepare_expected in He, Hlen.
    destruct (Nat.ltb_spec 0 rows) as [_|?]; [|lia].
    unfold Reader.shape, Reader.cols, Reader.rows. rewrite He, Hc, Hh.
    split; [done|]. rewrite Hr, length_app, Hlen. done.
  - unfold Reader.read. rewrite Hfs. apply read_internal_outcome.
Qed.

(** X5 on the file of a header and two rows, read with the row count 1. *)
Lemma read_with_row_count_witness :
  ∃ r',
    Reader.read (one_file abc_file) (txt "abc.csv") 1 Reader.new = Returns r'
    ∧ Reader.shape r' = (1, length (Reader.cols r'))
    ∧ length (Reader.rows r') = 1.
Proof.
  destruct (read_with_row_count (one_file abc_file) (txt "abc.csv") 1 Reader.new abc_file
              eq_refl ltac:(lia)) as [Hrows _].
  assert (∃ r', Reader.read (one_file abc_file) (txt "abc.csv") 1 Reader.new = Returns r')
    as [r' Hread] by (eexists; vm_compute; reflexivity).
  exists r'. split; [exact Hread|].
  destruct (Hrows r' Hread) as (Hshape & Hlen).
  split; [exact Hshape|]. exact Hlen.
Defined.

(** X6. [read] never resets [expected_number_of_rows_] nor [rows_]: on a
    reader that has read before, the pre-scan adds the file's counted lines to
    the count the reader already holds, and [rows_] grows by the rows of the
    pass, the smaller of the new count and the number of counted data
    lines. *)
Theorem read_accumulates_on_reuse fs filename (r : Reader.t) bytes r' :
  fs filename = Some bytes →
  Reader.read fs filename 0 r = Returns r' →
  let lines := Reader.stream_lines bytes in
  let d := Reader.current_dialect_ (Reader.load_dialect r) in
  let counted := Reader.expected_number_of_rows_ r + counted_lines (skip_empty_rows_ d) lines in
  let expected := if header_ d && (0 <? counted) then counted - 1 else counted in
  (Reader.shape r').1 = expected
  ∧ length (Reader.rows r')
    = length (Reader.rows r)
      + expected `min` counted_lines (skip_empty_rows_ d)
                         (if header_ d then tl lines else lines).
Proof.
  intros Hfs Hread lines d counted expected.
  destruct (read_returns _ _ _ _ _ _ Hfs Hread)
    as (headers & new & _ & Hh & Hc & He & Hr & Hlen).
  rewrite prepare_expected in He, Hlen. simpl in He, Hlen.
  split; [exact He|]. unfold Reader.rows. rewrite Hr, length_app, Hlen. done.
Qed.

(** X6 on the file of a header and two rows, read by a reader that holds
    the row count 2 from an earlier call: the count becomes 4. *)
Lemma read_accumulates_on_reuse_witness :
  ∃ r',
    Reader.read (one_file abc_file) (txt "abc.csv") 0
      (Reader.count_rows [] 2 (reader_with Dialect_default false [txt "a"; txt "b"; txt "c"]))
    = Returns r'
    ∧ (Reader.shape r').1 = 4
    ∧ length (Reader.rows r') = 2.
Proof.
  assert (∃ r', Reader.read (one_file abc_file) (txt "abc.csv") 0
                  (Reader.count_rows [] 2
                     (reader_with Dialect_default false [txt "a"; txt "b"; txt "c"]))
                = Returns r')
    as [r' Hread] by (eexists; vm_compute; reflexivity).
  exists r'. split; [exact Hread|].
  destruct (read_accumulates_on_reuse (one_file abc_file) (txt "abc.csv") _
              abc_file r' eq_refl Hread) as (Hshape & Hlen).
  split; [exact Hshape|]. exact Hlen.
Defined.

(** * Empty headers and empty files *)

Section NonEmpty.
Variable d : Dialect.
Variable trimming_enabled : bool.
Variable input_string : text.

Local Abbreviation n := (length input_string).
Local Abbreviation body := (Reader.split_body d trimming_enabled input_string).
Local Abbreviation loop := (Reader.split_loop d trimming_enabled input_string).
Local Abbreviation inner := (Reader.delimiter_loop d trimming_enabled input_string).

(** An accepted delimiter has pushed a field. *)
Lemma delimiter_loop_pushed fuel : ∀ j st,
  Reader.delimiter_detected st = false →
  Reader.delimiter_detected (inner fuel j st) = true →
  Reader.result (inner fuel j st) ≠ [].
Proof.
  induction fuel as [|fuel IH]; intros j st Hdet; simpl; [congruence|].
  destruct (j <? length (delimiter_ d)); [|congruence].
  unfold Reader.delimiter_body.
  destruct (negb _); [done|].
  destruct (Nat.eqb_spec (j + 1) (length (delimiter_ d))) as [Hlast|Hmore].
  - destruct (_ =? 0).
    + intros _. destruct fuel; simpl.
      * by destruct (Reader.result st).
      * destruct (Nat.ltb_spec (j + 1) (length (delimiter_ d))); [lia|].
        by destruct (Reader.result st).
    + destruct (_ =? n); simpl; [congruence|]. by apply IH.
  - destruct (_ =? n); simpl; [congruence|]. by apply IH.
Qed.

(** Every iteration leaves a pushed field or a character in the
    accumulator. *)
Lemma body_holds_text st :
  Reader.result (body st) ≠ [] ∨ Reader.sub_result (body st) ≠ [].
Proof.
  unfold Reader.split_body. simpl.
  destruct (Reader.delimiter_detected (inner _ _ _)) eqn:Hdet; simpl.
  - left. by apply delimiter_loop_pushed.
  - right. intros Hnil. by apply app_eq_nil in Hnil as [_ ?].
Qed.

Lemma split_fields_nonempty columns fields :
  input_string ≠ [] →
  Reader.split_fields d trimming_enabled columns input_string = Some fields →
  fields ≠ [].
Proof.
  intros Hne. unfold Reader.split_fields.
  destruct (loop _ _) as [st|] eqn:Hloop; [|done]. simpl. intros [= <-].
  apply split_loop_last in Hloop as [prev ->].
  2:{ simpl. destruct input_string; [done|simpl; lia]. }
  unfold Reader.flush_last.
  destruct (body_holds_text prev) as [Hr|Hs].
  - case_bool_decide; [|done]. by destruct (Reader.result (body prev)).
  - rewrite bool_decide_eq_true_2 by done. by destruct (Reader.result (body prev)).
Qed.
End NonEmpty.

Lemma split_nonempty (r : Reader.t) line fields :
  line ≠ [] → Reader.columns_ r = 0 →
  Reader.split r line = Some fields → fields ≠ [].
Proof.
  intros Hne Hk. unfold Reader.split, Reader.split_with. rewrite Hk.
  destruct (Reader.split_fields _ _ _ _) as [fs|] eqn:Hfs; [|done].
  simpl. intros [= <-]. apply split_fields_nonempty in Hfs; [|done].
  unfold Reader.pad_truncate. simpl. by destruct fs.
Qed.

Lemma counted_nil skip : Reader.counted skip [] = negb skip.
Proof. unfold Reader.counted. by destruct skip. Qed.

Lemma counted_nonempty skip line : line ≠ [] → Reader.counted skip line = true.
Proof. intros H. unfold Reader.counted. by rewrite bool_decide_eq_true_2. Qed.

Lemma prepare_name lines rows r :
  Reader.current_dialect_name_ (Reader.prepare lines rows r)
  = Reader.current_dialect_name_ r.
Proof.
  unfold Reader.prepare, Reader.enable_flags, Reader.count_rows, Reader.load_dialect.
  by destruct (subscript _ _).
Qed.

Lemma derive_headers_empty_first r lines :
  Reader.strip_cr (hd [] lines) = [] →
  header_ (Reader.current_dialect_ r) = true →
  Reader.columns_ r = 0 →
  Reader.derive_headers r lines = Some [].
Proof.
  intros Hfirst Hheader Hk. unfold Reader.derive_headers.
  rewrite Hfirst, split_empty, Hk, Hheader. done.
Qed.

Lemma parse_rows_cons r row lines number_of_rows current_row rows :
  Reader.parse_rows r (row :: lines) number_of_rows current_row rows
  = if number_of_rows =? Reader.expected_number_of_rows_ r
    then Returns (rows, number_of_rows)
    else if Reader.counted (skip_empty_rows_ (Reader.current_dialect_ r))
              (Reader.strip_cr row)
    then match Reader.split r (Reader.strip_cr row) with
         | None => OutOfFuel
         | Some split_result =>
             match Reader.bind_row (Reader.headers_ r) (Reader.ignore_columns_enabled_ r)
                     (ignore_columns_ (Reader.current_dialect_ r)) 0 split_result
                     current_row with
             | None => Undefined
             | Some current_row' =>
                 Reader.parse_rows r lines (number_of_rows + 1) current_row'
                   (rows ++ [current_row'])
             end
         end
    else Reader.parse_rows r lines number_of_rows current_row rows.
Proof. done. Qed.

(** X7. A file whose first line is empty establishes an empty header; when
    the next line has text and the pass reads at least one row (empty rows are
    not skipped, or the caller gives a row count), [read_internal] indexes
    [headers_] at [0], out of its range. *)
Theorem empty_header_indexes_out_of_range fs filename rows (r : Reader.t) bytes
    first second rest :
  fs filename = Some bytes →
  Reader.stream_lines bytes = first :: second :: rest →
  header_ (Reader.current_dialect_ (Reader.load_dialect r)) = true →
  Reader.columns_ r = 0 →
  Reader.strip_cr first = [] →
  Reader.strip_cr second ≠ [] →
  skip_empty_rows_ (Reader.current_dialect_ (Reader.load_dialect r)) = false ∨ 0 < rows →
  Reader.read fs filename rows r = Undefined.
Proof.
  intros Hfs Hlines Hheader Hk Hfirst Hsecond Hcount.
  unfold Reader.read. rewrite Hfs, Hlines.
  set (lines := first :: second :: rest).
  set (r0 := Reader.prepare lines rows r).
  assert (0 < Reader.expected_number_of_rows_ r0) as Hexp.
  { subst r0. rewrite prepare_expected.
    destruct (Nat.ltb_spec 0 rows) as [|Hz]; [done|].
    destruct Hcount as [Hskip|]; [|lia]. cbv zeta. rewrite Hskip, Hheader.
    subst lines. rewrite !counted_lines_cons, Hfirst, counted_nil.
    rewrite (counted_nonempty _ _ Hsecond). simpl.
    destruct (Nat.ltb_spec 0 (Reader.expected_number_of_rows_ r
                              + S (S (counted_lines false rest)))); lia. }
  assert (Reader.current_dialect_ r0 = Reader.current_dialect_ (Reader.load_dialect r))
    as Hd0 by done.
  unfold Reader.read_internal.
  rewrite (derive_headers_empty_first r0 lines); try done.
  2:{ subst r0. by rewrite prepare_columns. }
  unfold Reader.data_lines. rewrite Hd0, Hheader. simpl tl.
  rewrite parse_rows_cons.
  destruct (Nat.eqb_spec 0 (Reader.expected_number_of_rows_ (Reader.with_headers r0 [])))
    as [Hz|_]; [change (0 = Reader.expected_number_of_rows_ r0) in Hz; lia|].
  rewrite (counted_nonempty _ _ Hsecond).
  destruct (split_total (Reader.with_headers r0 []) (Reader.strip_cr second))
    as [fields Hf].
  rewrite Hf. apply split_nonempty in Hf; [|done..].
  destruct fields; [done|]. done.
Qed.

(** X7 on the file of an empty line and the line [x]. *)
Lemma empty_header_indexes_out_of_range_witness :
  Reader.read (one_file ([NEWLINE] ++ txt "x" ++ [NEWLINE])) (txt "x.csv") 0 Reader.new
  = Undefined.
Proof.
  apply (empty_header_indexes_out_of_range
           (one_file ([NEWLINE] ++ txt "x" ++ [NEWLINE])) (txt "x.csv") 0 Reader.new
           ([NEWLINE] ++ txt "x" ++ [NEWLINE]) [] (txt "x") []).
  - reflexivity.
  - reflexivity.
  - vm_compute. reflexivity.
  - reflexivity.
  - reflexivity.
  - vm_compute. discriminate.
  - left. vm_compute. reflexivity.
Defined.

Lemma row_template_nil (enabled : bool) (ignore_columns : gmap text bool) :
  Reader.row_template [] enabled ignore_columns = ∅.
Proof.
  unfold Reader.row_template. simpl. destruct enabled; [|done].
  induction (map_to_list ignore_columns) as [|kv l IH]; [done|].
  simpl. by rewrite delete_empty.
Qed.

(** The row loop on blank lines under an empty header: one empty row for
    each line that is not skipped. *)
Lemma parse_rows_blank r lines : ∀ number_of_rows rows,
  Reader.headers_ r = [] → Reader.columns_ r = 0 →
  Forall (λ line, Reader.strip_cr line = []) lines →
  number_of_rows ≤ Reader.expected_number_of_rows_ r →
  ∃ nr,
    Reader.parse_rows r lines number_of_rows ∅ rows
    = Returns
        (rows ++ replicate
                   ((Reader.expected_number_of_rows_ r - number_of_rows)
                    `min` (if skip_empty_rows_ (Reader.current_dialect_ r) then 0
                           else length lines))
                   ∅,
         nr).
Proof.
  intros n rows Hh Hk Hblank. revert n rows.
  induction Hblank as [|line lines Hline _ IH]; intros n rows Hn.
  - exists n. simpl.
    destruct (skip_empty_rows_ _); rewrite Nat.min_0_r; simpl; by rewrite app_nil_r.
  - rewrite parse_rows_cons.
    destruct (Nat.eqb_spec n (Reader.expected_number_of_rows_ r)) as [->|Hne].
    { exists (Reader.expected_number_of_rows_ r). rewrite Nat.sub_diag. simpl.
      by rewrite app_nil_r. }
    rewrite Hline, counted_nil.
    destruct (skip_empty_rows_ (Reader.current_dialect_ r)) eqn:Hskip; simpl negb; cbv iota.
    + destruct (IH n rows Hn) as [nr ->]. exists nr. by rewrite !Nat.min_0_r.
    + rewrite split_empty, Hk, Hh. simpl.
      destruct (IH (n + 1) (rows ++ [∅])) as [nr ->]; [lia|]. exists nr.
      replace ((Reader.expected_number_of_rows_ r - n) `min` S (length lines))
        with (S ((Reader.expected_number_of_rows_ r - (n + 1)) `min` length lines))
        by lia.
      simpl. by rewrite <- app_assoc.
Qed.

Lemma counted_lines_blank skip lines :
  Forall (λ line, Reader.strip_cr line = []) lines →
  counted_lines skip lines = if skip then 0 else length lines.
Proof.
  induction 1 as [|line lines Hline _ IH].
  - by destruct skip.
  - rewrite counted_lines_cons, Hline, counted_nil, IH. by destruct skip.
Qed.

(** X8. A file in which every line is blank (the empty file too) reads
    without error on a fresh reader: no columns, and one empty row for each
    line after the first, or no row at all under [skip_empty_rows_]. *)
Theorem read_blank_lines fs filename (r : Reader.t) bytes :
  fs filename = Some bytes →
  Forall (λ line, Reader.strip_cr line = []) (Reader.stream_lines bytes) →
  header_ (Reader.current_dialect_ (Reader.load_dialect r)) = true →
  Reader.columns_ r = 0 →
  Reader.expected_number_of_rows_ r = 0 →
  let blank_rows :=
    if skip_empty_rows_ (Reader.current_dialect_ (Reader.load_dialect r)) then 0
    else length (Reader.stream_lines bytes) - 1 in
  ∃ r',
    Reader.read fs filename 0 r = Returns r'
    ∧ Reader.cols r' = []
    ∧ Reader.rows r' = Reader.rows r ++ replicate blank_rows ∅
    ∧ Reader.shape r' = (blank_rows, 0).
Proof.
  intros Hfs Hblank Hheader Hk He blank_rows.
  unfold Reader.read. rewrite Hfs.
  set (lines := Reader.stream_lines bytes) in *.
  set (r0 := Reader.prepare lines 0 r).
  assert (Reader.current_dialect_ r0 = Reader.current_dialect_ (Reader.load_dialect r))
    as Hd0 by done.
  assert (Reader.expected_number_of_rows_ r0 = blank_rows) as Hexp.
  { subst r0. rewrite prepare_expected. simpl. rewrite He, Hheader. simpl.
    rewrite (counted_lines_blank _ _ Hblank). subst blank_rows.
    destruct (skip_empty_rows_ _); [done|].
    destruct (Nat.ltb_spec 0 (length lines)); lia. }
  unfold Reader.read_internal.
  rewrite (derive_headers_empty_first r0 lines).
  2:{ destruct Hblank; [done|]. done. }
  2:{ by rewrite Hd0. }
  2:{ subst r0. by rewrite prepare_columns. }
  rewrite row_template_nil.
  destruct (parse_rows_blank (Reader.with_headers r0 []) (Reader.data_lines r0 lines) 0
              (Reader.rows_ (Reader.with_headers r0 []))) as [nr ->]; [done|done| |lia|].
  { unfold Reader.data_lines. destruct (header_ _); [|done].
    destruct Hblank; [constructor|done]. }
  eexists. split; [done|].
  unfold Reader.cols, Reader.rows, Reader.shape, Reader.with_rows, Reader.with_headers.
  cbn [Reader.headers_ Reader.rows_ Reader.expected_number_of_rows_ Reader.columns_
       Reader.current_dialect_].
  rewrite Hexp. split; [done|]. split; [|done].
  subst r0. rewrite prepare_rows. do 2 f_equal.
  rewrite Nat.sub_0_r, Hd0. unfold Reader.data_lines. rewrite Hd0, Hheader.
  subst blank_rows. destruct (skip_empty_rows_ _); [done|].
  destruct lines; simpl; lia.
Qed.

(** X8 on a file of three blank lines, the second ended by a carriage
    return. *)
Lemma read_blank_lines_witness :
  ∃ r',
    Reader.read (one_file [NEWLINE; CR; NEWLINE; NEWLINE]) (txt "blank.csv") 0 Reader.new
    = Returns r'
    ∧ Reader.cols r' = []
    ∧ Reader.rows r' = [∅; ∅]
    ∧ Reader.shape r' = (2, 0).
Proof.
  apply (read_blank_lines (one_file [NEWLINE; CR; NEWLINE; NEWLINE]) (txt "blank.csv")
           Reader.new [NEWLINE; CR; NEWLINE; NEWLINE]).
  - reflexivity.
  - repeat constructor.
  - vm_compute. reflexivity.
  - reflexivity.
  - reflexivity.
Defined.

(** * Reading without a header row, and the errors of [read] *)

Lemma derive_headers_eq r lines :
  Reader.derive_headers r lines
  = match Reader.split r (Reader.strip_cr (hd [] lines)) with
    | Some split_result =>
        Some (if header_ (Reader.current_dialect_ r) then split_result
              else if 0 <? length (column_names_ (Reader.current_dialect_ r))
                   then column_names_ (Reader.current_dialect_ r)
                   else Reader.to_string <$> seq 0 (length split_result))
    | None => None
    end.
Proof. unfold Reader.derive_headers. by destruct (Reader.split _ _). Qed.

(** X9. With [header(false)], a pass that returns names the columns by the
    configured column names or, when there are none, by the decimal numbers
    [0], [1], ... up to the number of fields of the first line; the first line
    is a data row as well, so that a reader that has counted no rows yet
    pushes one row for every counted line of the file. *)
Theorem read_without_header fs filename (r : Reader.t) bytes r' :
  fs filename = Some bytes →
  header_ (reader_dialect r) = false →
  Reader.expected_number_of_rows_ r = 0 →
  Reader.read fs filename 0 r = Returns r' →
  let lines := Reader.stream_lines bytes in
  let d := reader_dialect r in
  (∃ first,
     Reader.split (Reader.prepare lines 0 r) (Reader.strip_cr (hd [] lines)) = Some first
     ∧ Reader.cols r'
       = match column_names_ d with
         | [] => Reader.to_string <$> seq 0 (length first)
         | _ => column_names_ d
         end)
  ∧ length (Reader.rows r')
    = length (Reader.rows r) + counted_lines (skip_empty_rows_ d) lines
  ∧ Reader.shape r' = (counted_lines (skip_empty_rows_ d) lines, length (Reader.cols r')).
Proof.
  intros Hfs Hheader He Hread lines d.
  assert (Reader.current_dialect_ (Reader.load_dialect r) = d) as Hd.
  { unfold Reader.load_dialect, d, reader_dialect. by destruct (subscript _ _). }
  destruct (read_returns _ _ _ _ _ _ Hfs Hread)
    as (headers & new & Hh & Hcols & Hc & Hexp & Hr & Hlen).
  rewrite prepare_expected in Hexp, Hlen. simpl in Hexp, Hlen.
  rewrite Hd, He in Hexp, Hlen. fold d in Hheader. rewrite Hheader in Hexp, Hlen.
  simpl in Hexp, Hlen.
  unfold Reader.data_lines in Hlen. rewrite prepare_dialect, Hd, Hheader in Hlen.
  fold lines in Hlen. rewrite Nat.min_id in Hlen.
  split_and!.
  - rewrite derive_headers_eq in Hh. fold lines in Hh.
    destruct (Reader.split _ _) as [first|]; [|done].
    rewrite prepare_dialect, Hd, Hheader in Hh. injection Hh as <-.
    exists first. split; [done|]. unfold Reader.cols. rewrite Hcols.
    by destruct (column_names_ d).
  - unfold Reader.rows. rewrite Hr, length_app, Hlen. done.
  - unfold Reader.shape, Reader.cols. by rewrite Hexp, Hc, Hcols.
Qed.

(** X9 on a file of two lines of two fields, read without a header row. *)
Lemma read_without_header_witness :
  ∃ r',
    Reader.read (one_file (txt "1,2" ++ [NEWLINE] ++ txt "3,4" ++ [NEWLINE]))
      (txt "n.csv") 0 (configured_reader (set_header false Dialect_default))
    = Returns r'
    ∧ Reader.cols r' = [txt "0"; txt "1"]
    ∧ length (Reader.rows r') = 2
    ∧ Reader.shape r' = (2, 2).
Proof.
  assert (∃ r', Reader.read (one_file (txt "1,2" ++ [NEWLINE] ++ txt "3,4" ++ [NEWLINE]))
                  (txt "n.csv") 0 (configured_reader (set_header false Dialect_default))
                = Returns r')
    as [r' Hread] by (eexists; vm_compute; reflexivity).
  exists r'. split; [exact Hread|].
  destruct (read_without_header
              (one_file (txt "1,2" ++ [NEWLINE] ++ txt "3,4" ++ [NEWLINE])) (txt "n.csv")
              (configured_reader (set_header false Dialect_default))
              (txt "1,2" ++ [NEWLINE] ++ txt "3,4" ++ [NEWLINE]) r'
              eq_refl) as ((first & Hfirst & Hcols) & Hrows & Hshape).
  - vm_compute. reflexivity.
  - reflexivity.
  - exact Hread.
  - assert (Reader.cols r' = [txt "0"; txt "1"]) as Hc.
    { rewrite Hcols. revert Hfirst. vm_compute. by intros [= <-]. }
    split; [exact Hc|]. split; [exact Hrows|].
    rewrite Hshape, Hc. reflexivity.
Defined.

Lemma load_dialect_dialect r :
  Reader.current_dialect_ (Reader.load_dialect r) = reader_dialect r.
Proof. unfold Reader.load_dialect, reader_dialect. by destruct (subscript _ _). Qed.

(** X10. When the file cannot be opened, [read] throws the error that names
    the file; rows, columns and shape are as before the call, but the current
    dialect has already been loaded from the registry, and registered there
    if its name was not. *)
Theorem read_missing_file fs filename rows (r : Reader.t) :
  fs filename = None →
  ∃ r',
    Reader.read fs filename rows r
    = Throws (txt "error: Failed to open " ++ filename) r'
    ∧ Reader.rows r' = Reader.rows r
    ∧ Reader.cols r' = Reader.cols r
    ∧ Reader.shape r' = Reader.shape r
    ∧ Reader.current_dialect_name_ r' = Reader.current_dialect_name_ r
    ∧ Reader.current_dialect_ r' = reader_dialect r
    ∧ Reader.dialects_ r' !! Reader.current_dialect_name_ r = Some (reader_dialect r).
Proof.
  intros Hfs. unfold Reader.read. rewrite Hfs. eexists. split; [done|].
  unfold Reader.load_dialect, reader_dialect, subscript.
  destruct (Reader.dialects_ r !! Reader.current_dialect_name_ r) eqn:Hd; simpl;
    split_and!; try done.
  by rewrite lookup_insert_eq.
Qed.

(** X10 on a file system without files. *)
Lemma read_missing_file_witness :
  ∃ r',
    Reader.read (λ _, None) (txt "none.csv") 0 Reader.new
    = Throws (txt "error: Failed to open none.csv") r'
    ∧ Reader.rows r' = []
    ∧ Reader.cols r' = []
    ∧ Reader.shape r' = (0, 0)
    ∧ Reader.current_dialect_name_ r' = txt "excel"
    ∧ Reader.current_dialect_ r' = reader_dialect Reader.new
    ∧ Reader.dialects_ r' !! txt "excel" = Some (reader_dialect Reader.new).
Proof.
  apply (read_missing_file (λ _, None) (txt "none.csv") 0 Reader.new).
  reflexivity.
Defined.

(** X11. After [use_dialect] has thrown for a name that is not registered,
    [read] goes on under a default-constructed dialect: it behaves as [read]
    after [configure_dialect] of that name. *)
Theorem read_after_failed_use_dialect fs filename rows (r : Reader.t) dialect_name :
  Reader.dialects_ r !! dialect_name = None →
  ∃ what r1,
    Reader.use_dialect dialect_name r = Throws what r1
    ∧ reader_dialect r1 = Dialect_default
    ∧ Reader.read fs filename rows r1
      = Reader.read fs filename rows (Reader.configure_dialect dialect_name r).
Proof.
  intros Hnone. unfold Reader.use_dialect. rewrite Hnone.
  eexists _, _. split; [done|].
  unfold reader_dialect, Reader.configure_dialect, subscript. rewrite Hnone. simpl.
  rewrite Hnone. split; [done|].
  unfold Reader.read, Reader.prepare, Reader.load_dialect, subscript. simpl.
  by rewrite Hnone, lookup_insert_eq.
Qed.

(** X11 on a reader just constructed and the name [mine]. *)
Lemma read_after_failed_use_dialect_witness :
  ∃ what r1,
    Reader.use_dialect (txt "mine") Reader.new = Throws what r1
    ∧ reader_dialect r1 = Dialect_default
    ∧ Reader.read (one_file abc_file) (txt "abc.csv") 0 r1
      = Reader.read (one_file abc_file) (txt "abc.csv") 0
          (Reader.configure_dialect (txt "mine") Reader.new).
Proof.
  apply (read_after_failed_use_dialect (one_file abc_file) (txt "abc.csv") 0 Reader.new
           (txt "mine")).
  vm_compute. reflexivity.
Defined.

(** * Trimmed values *)

Section RowValues.
Variable P : text → Prop.
Hypothesis P_nil : P [].

Lemma row_template_values (headers : list text) (enabled : bool)
    (ignore_columns : gmap text bool) :
  map_Forall (λ _, P) (Reader.row_template headers enabled ignore_columns).
Proof.
  unfold Reader.row_template.
  assert (∀ m : gmap text text, map_Forall (λ _, P) m →
            map_Forall (λ _, P) (foldl (λ m header, <[header := []]> m) m headers))
    as Hins.
  { induction headers as [|h hs IH]; intros m Hm; [done|].
    simpl. apply IH. by apply map_Forall_insert_2. }
  assert (∀ (l : list (text * bool)) (m : gmap text text), map_Forall (λ _, P) m →
            map_Forall (λ _, P) (foldl (λ m kvpair, delete kvpair.1 m) m l))
    as Hdel.
  { induction l as [|kv l IH]; intros m Hm; [done|].
    simpl. apply IH. by apply map_Forall_delete. }
  destruct enabled; [apply Hdel|]; apply Hins, map_Forall_empty.
Qed.

Lemma bind_row_values (headers : list text) (enabled : bool)
    (ignore_columns : gmap text bool) values :
  ∀ i current_row current_row',
    Forall P values →
    map_Forall (λ _, P) current_row →
    Reader.bind_row headers enabled ignore_columns i values current_row
    = Some current_row' →
    map_Forall (λ _, P) current_row'.
Proof.
  induction values as [|v values IH]; intros i cur cur' Hvs Hcur; simpl.
  - by intros [= <-].
  - apply Forall_cons in Hvs as [Hv Hvs].
    destruct (headers !! i) as [h|]; [|done].
    apply IH; [done|]. case_match; [by apply map_Forall_insert_2|done].
Qed.

Lemma parse_rows_row_values (r : Reader.t) lines :
  (∀ line fields, Reader.split r line = Some fields → Forall P fields) →
  ∀ number_of_rows current_row rows res,
    map_Forall (λ _, P) current_row →
    Reader.parse_rows r lines number_of_rows current_row rows = Returns res →
    ∃ new, res.1 = rows ++ new ∧ Forall (map_Forall (λ _, P)) new.
Proof.
  intros Hsplit. induction lines as [|line lines IH]; intros n cur rows res Hcur.
  - simpl. intros [= <-]. exists []. by rewrite app_nil_r.
  - rewrite parse_rows_cons.
    destruct (n =? _).
    { intros [= <-]. exists []. by rewrite app_nil_r. }
    destruct (Reader.counted _ _); [|by apply IH].
    destruct (Reader.split r _) as [fields|] eqn:Hf; [|done].
    destruct (Reader.bind_row _ _ _ _ _ _) as [cur'|] eqn:Hb; [|done].
    assert (map_Forall (λ _, P) cur') as Hcur'.
    { eapply bind_row_values; [|exact Hcur|exact Hb]. by eapply Hsplit. }
    intros Hres. apply IH in Hres as (new & -> & Hnew); [|done].
    exists (cur' :: new). split; [by rewrite <- app_assoc|]. by constructor.
Qed.
End RowValues.

Lemma split_trimmed (r : Reader.t) line fields :
  (trim_characters_ (Reader.current_dialect_ r) ≠ [] →
   Reader.trimming_enabled_ r = true) →
  Reader.split r line = Some fields →
  Forall (trimmed (Reader.current_dialect_ r)) fields.
Proof.
  intros Hflag Hsplit.
  destruct (decide (trim_characters_ (Reader.current_dialect_ r) = [])) as [He|Hne].
  - apply Forall_forall. intros f _ c _. rewrite He. apply not_elem_of_nil.
  - unfold Reader.split in Hsplit. rewrite (Hflag Hne) in Hsplit.
    by eapply split_with_trimmed.
Qed.

Lemma prepare_trimming lines rows r :
  trim_characters_ (Reader.current_dialect_ (Reader.prepare lines rows r)) ≠ [] →
  Reader.trimming_enabled_ (Reader.prepare lines rows r) = true.
Proof.
  unfold Reader.prepare, Reader.enable_flags, Reader.count_rows. simpl.
  destruct (trim_characters_ _); [done|]. done.
Qed.

(** X12. No value of a row that a pass of [read] pushes begins or ends with
    a trim character of the dialect it read under, and with a header row no
    column name does. *)
Theorem read_values_are_trimmed fs filename rows (r : Reader.t) bytes r' :
  fs filename = Some bytes →
  Reader.read fs filename rows r = Returns r' →
  let d := reader_dialect r in
  (header_ d = true → Forall (trimmed d) (Reader.cols r'))
  ∧ Forall (λ row : gmap text text,
              ∀ name value, row !! name = Some value → trimmed d value)
      (pass_rows r r').
Proof.
  intros Hfs Hread d. unfold Reader.read in Hread. rewrite Hfs in Hread.
  set (lines := Reader.stream_lines bytes) in *.
  set (r0 := Reader.prepare lines rows r) in *.
  assert (Reader.current_dialect_ r0 = d) as Hd0.
  { subst r0. by rewrite prepare_dialect, load_dialect_dialect. }
  assert (Reader.rows_ r0 = Reader.rows_ r) as Hrows0.
  { subst r0. by rewrite prepare_rows. }
  assert (∀ headers line fields,
            Reader.split (Reader.with_headers r0 headers) line = Some fields →
            Forall (trimmed d) fields) as Hsplit.
  { intros headers line fields Hf. rewrite <- Hd0.
    apply (split_trimmed (Reader.with_headers r0 headers) line fields); [|done].
    apply prepare_trimming. }
  assert (∀ line fields, Reader.split r0 line = Some fields → Forall (trimmed d) fields)
    as Hsplit0.
  { intros line fields Hf. rewrite <- Hd0.
    apply (split_trimmed r0 line fields); [apply prepare_trimming|done]. }
  clearbody r0 lines d.
  unfold Reader.read_internal in Hread. rewrite derive_headers_eq in Hread.
  destruct (Reader.split r0 _) as [first|] eqn:Hfirst; [|done].
  destruct (Reader.parse_rows _ _ _ _ _) as [[rows' nr]| | |] eqn:Hparse; try done.
  injection Hread as <-.
  destruct (parse_rows_row_values (trimmed d) _ _ (Hsplit _) _ _ _ _
              (row_template_values (trimmed d) (trimmed_nil d) _ _ _) Hparse)
    as (new & Hnew & Hall).
  split.
  - intros Hheader. unfold Reader.cols. simpl. rewrite Hd0, Hheader.
    by eapply Hsplit0.
  - rewrite (pass_rows_app r _ new).
    + eapply Forall_impl; [exact Hall|]. intros row Hrow name value Hv.
      by apply (Hrow name value).
    + simpl in *. subst rows'. by rewrite Hrows0.
Qed.

(** X12 on a file whose names and values stand between spaces, the space
    being the trim character. *)
Lemma read_values_are_trimmed_witness :
  ∃ r',
    Reader.read (one_file (txt " a , b " ++ [NEWLINE] ++ txt " 1 ,2 " ++ [NEWLINE]))
      (txt "t.csv") 0 (configured_reader (add_trim_characters [SPACE] Dialect_default))
    = Returns r'
    ∧ length (Reader.rows r') = 1
    ∧ Forall (trimmed (add_trim_characters [SPACE] Dialect_default)) (Reader.cols r')
    ∧ Forall (λ row : gmap text text,
                ∀ name value, row !! name = Some value →
                  trimmed (add_trim_characters [SPACE] Dialect_default) value)
        (Reader.rows r').
Proof.
  assert (∃ r', Reader.read
                  (one_file (txt " a , b " ++ [NEWLINE] ++ txt " 1 ,2 " ++ [NEWLINE]))
                  (txt "t.csv") 0
                  (configured_reader (add_trim_characters [SPACE] Dialect_default))
                = Returns r'
                ∧ length (Reader.rows r') = 1)
    as (r' & Hread & Hlen) by (eexists; split; vm_compute; reflexivity).
  exists r'. split; [exact Hread|]. split; [exact Hlen|].
  destruct (read_values_are_trimmed
              (one_file (txt " a , b " ++ [NEWLINE] ++ txt " 1 ,2 " ++ [NEWLINE]))
              (txt "t.csv") 0
              (configured_reader (add_trim_characters [SPACE] Dialect_default))
              (txt " a , b " ++ [NEWLINE] ++ txt " 1 ,2 " ++ [NEWLINE]) r'
              eq_refl Hread) as (Hcols & Hvalues).
  split.
  - apply Hcols. vm_compute. reflexivity.
  - exact Hvalues.
Defined.

(** * The flags of the reader *)

Lemma forget_flags_inv r r2 :
  forget_flags r = forget_flags r2 →
  Reader.headers_ r = Reader.headers_ r2
  ∧ Reader.rows_ r = Reader.rows_ r2
  ∧ Reader.columns_ r = Reader.columns_ r2
  ∧ Reader.expected_number_of_rows_ r = Reader.expected_number_of_rows_ r2
  ∧ Reader.current_dialect_name_ r = Reader.current_dialect_name_ r2
  ∧ Reader.dialects_ r = Reader.dialects_ r2
  ∧ Reader.current_dialect_ r = Reader.current_dialect_ r2.
Proof. unfold forget_flags. intros [= ? ? ? ? ? ? ?]. done. Qed.

Lemma split_idle_flags r r2 line :
  same_but_idle_flags r r2 → Reader.split r line = Reader.split r2 line.
Proof.
  intros (Heq & Htrim & _).
  apply forget_flags_inv in Heq as (_ & _ & Hk & _ & _ & _ & Hd).
  unfold Reader.split. rewrite <- Hk, <- Hd.
  destruct Htrim as [<-|Hnone]; [done|].
  rewrite (split_with_no_trim _ _ Hnone (Reader.trimming_enabled_ r)).
  by rewrite (split_with_no_trim _ _ Hnone (Reader.trimming_enabled_ r2)).
Qed.

Lemma row_template_idle (headers : list text) (b b2 : bool) (ignore_columns : gmap text bool) :
  b = b2 ∨ ignore_columns = ∅ →
  Reader.row_template headers b ignore_columns
  = Reader.row_template headers b2 ignore_columns.
Proof.
  intros [->| ->]; [done|]. unfold Reader.row_template.
  rewrite map_to_list_empty. by destruct b, b2.
Qed.

Lemma bind_row_idle (headers : list text) (b b2 : bool) (ignore_columns : gmap text bool) values :
  b = b2 ∨ ignore_columns = ∅ →
  ∀ i current_row,
    Reader.bind_row headers b ignore_columns i values current_row
    = Reader.bind_row headers b2 ignore_columns i values current_row.
Proof.
  intros [->| ->]; [done|].
  induction values as [|v values IH]; intros i cur; simpl; [done|].
  destruct (headers !! i) as [h|]; [|done].
  rewrite dom_empty_L, bool_decide_eq_true_2 by apply not_elem_of_empty.
  by rewrite !orb_true_r.
Qed.

Lemma parse_rows_idle_flags r r2 lines :
  same_but_idle_flags r r2 →
  ∀ number_of_rows current_row rows,
    Reader.parse_rows r lines number_of_rows current_row rows
    = Reader.parse_rows r2 lines number_of_rows current_row rows.
Proof.
  intros Hsame. pose proof Hsame as (Heq & _ & Hig).
  apply forget_flags_inv in Heq as (Hh & _ & _ & He & _ & _ & Hd).
  induction lines as [|line lines IH]; intros n cur rows; [done|].
  rewrite !parse_rows_cons, <- He, <- Hd, <- Hh, (split_idle_flags r r2) by done.
  destruct (n =? _); [done|].
  destruct (Reader.counted _ _); [|done].
  destruct (Reader.split r2 _) as [fields|]; [|done].
  rewrite (bind_row_idle _ _ (Reader.ignore_columns_enabled_ r2)) by done.
  destruct (Reader.bind_row _ _ _ _ _ _); [|done]. apply IH.
Qed.

Lemma read_internal_idle_flags r r2 lines :
  same_but_idle_flags r r2 →
  outcome_map forget_flags (Reader.read_internal lines r)
  = outcome_map forget_flags (Reader.read_internal lines r2).
Proof.
  intros Hsame. pose proof Hsame as (Heq & Htrim & Hig).
  pose proof (forget_flags_inv _ _ Heq) as (Hh & Hr & Hk & He & Hn & Hds & Hd).
  unfold Reader.read_internal.
  rewrite !derive_headers_eq, <- Hd, (split_idle_flags r r2) by done.
  destruct (Reader.split r2 _) as [first|]; [|done].
  set (headers := if header_ _ then _ else _).
  assert (same_but_idle_flags (Reader.with_headers r headers)
            (Reader.with_headers r2 headers)) as Hsame'.
  { split_and!; [|done..]. unfold forget_flags, Reader.with_headers. simpl.
    by rewrite Hr, He, Hn, Hds, Hd. }
  rewrite (parse_rows_idle_flags _ _ _ Hsame').
  unfold Reader.data_lines. rewrite <- Hd.
  cbn [Reader.ignore_columns_enabled_ Reader.current_dialect_ Reader.rows_
       Reader.with_headers].
  rewrite <- Hd, <- Hr.
  rewrite (row_template_idle headers _ (Reader.ignore_columns_enabled_ r2)) by done.
  destruct (Reader.parse_rows _ _ _ _ _) as [[rows nr]|what [rows nr]| |]; simpl;
    try done.
  - unfold forget_flags. simpl. by rewrite He, Hn, Hds, Hd.
  - unfold forget_flags. simpl. by rewrite Hr, He, Hn, Hds, Hd.
Qed.

Lemma prepare_idle_flags lines rows r r2 :
  forget_flags r = forget_flags r2 →
  same_but_idle_flags (Reader.prepare lines rows r) (Reader.prepare lines rows r2).
Proof.
  intros Heq.
  pose proof (forget_flags_inv _ _ Heq) as (Hh & Hr & Hk & He & Hn & Hds & Hd).
  unfold same_but_idle_flags, Reader.prepare, Reader.enable_flags, Reader.count_rows,
    Reader.load_dialect, forget_flags.
  rewrite <- Hh, <- Hr, <- Hk, <- He, <- Hn, <- Hds.
  destruct (subscript _ _) as [d ds]. simpl. split_and!; [done| |].
  - destruct (trim_characters_ d); [by right|by left].
  - destruct (Nat.ltb_spec 0 (size (ignore_columns_ d))); [by left|right].
    apply map_size_empty_inv. lia.
Qed.

(** X13. The two flags [trimming_enabled_] and [ignore_columns_enabled_],
    which [read] sets and never clears, have no influence on a later [read]:
    two readers that differ in the flags only give the same outcome, flags
    apart. *)
Theorem read_ignores_stale_flags fs filename rows (r r2 : Reader.t) :
  forget_flags r = forget_flags r2 →
  outcome_map forget_flags (Reader.read fs filename rows r)
  = outcome_map forget_flags (Reader.read fs filename rows r2).
Proof.
  intros Heq. unfold Reader.read.
  destruct (fs filename) as [bytes|].
  - by apply read_internal_idle_flags, prepare_idle_flags.
  - pose proof (forget_flags_inv _ _ Heq) as (Hh & Hr & Hk & He & Hn & Hds & Hd).
    unfold Reader.load_dialect, forget_flags. rewrite Hn, Hds.
    destruct (subscript _ _). simpl. by rewrite Hh, Hr, Hk, He.
Qed.

(** X13 on a reader just constructed and the same reader with both flags
    set. *)
Lemma read_ignores_stale_flags_witness :
  outcome_map forget_flags
    (Reader.read (one_file abc_file) (txt "abc.csv") 0 Reader.new)
  = outcome_map forget_flags
      (Reader.read (one_file abc_file) (txt "abc.csv") 0
         (Reader.mk [] [] 0 0 (txt "excel") registered_dialects Dialect_default
            true true)).
Proof.
  apply (read_ignores_stale_flags (one_file abc_file) (txt "abc.csv") 0 Reader.new
           (Reader.mk [] [] 0 0 (txt "excel") registered_dialects Dialect_default
              true true)).
  reflexivity.
Defined.

(** * From the writer to the reader *)

(** ** getline *)

Lemma stream_lines_line (l rest : text) :
  NEWLINE ∉ l →
  Reader.stream_lines (l ++ NEWLINE :: rest) = l :: Reader.stream_lines rest.
Proof.
  induction l as [|c l IH]; intros Hnl; simpl.
  - done.
  - apply not_elem_of_cons in Hnl as [Hc Hl].
    rewrite bool_decide_eq_false_2 by done. by rewrite IH.
Qed.

Lemma stream_lines_terminated (ls : list text) :
  Forall (λ l, NEWLINE ∉ l) ls →
  Reader.stream_lines (concat ((λ l, l ++ [NEWLINE]) <$> ls)) = ls.
Proof.
  induction 1 as [|l ls Hl _ IH]; [done|].
  csimpl. rewrite <- app_assoc. csimpl. by rewrite stream_lines_line, IH.
Qed.

Lemma strip_cr_fixed (l : text) : CR ∉ l → Reader.strip_cr l = l.
Proof.
  intros Hcr. unfold Reader.strip_cr.
  destruct (Nat.ltb_spec 0 (length l)) as [Hlen|]; [|done]. simpl.
  rewrite bool_decide_eq_false_2; [done|].
  intros Heq. apply Hcr. rewrite <- Heq. unfold char_at.
  apply list_elem_of_In, nth_In. lia.
Qed.

Lemma elem_of_join (x : ascii) D fields :
  x ∈ Writer.join D fields → x ∈ D ∨ ∃ f, f ∈ fields ∧ x ∈ f.
Proof.
  induction fields as [|f fields IH]; simpl; [by intros ?%elem_of_nil|].
  rewrite !elem_of_app. intros [Hf|[HD|Hrest]].
  - right. exists f. split; [left|done].
  - left. by destruct (0 <? length fields); [|apply elem_of_nil in HD].
  - destruct (IH Hrest) as [?|(g & ? & ?)]; [by left|].
    right. exists g. split; [by right|done].
Qed.

Lemma flushed_trimmed d b f : trimmed d f → Reader.flushed d b f = f.
Proof.
  intros Ht. unfold Reader.flushed. destruct b; [|done].
  apply trim_fixed; intros c Hc; apply Ht; eauto.
Qed.

Lemma write_rows_written (rows : list (list text)) : ∀ w : Writer.t,
  Writer.is_open (Writer.stream_ w) = true →
  Writer.written
    (Writer.stream_ (foldl (λ w entries, Writer.write_row entries w) w rows))
  = Writer.written (Writer.stream_ w)
    ++ (if Writer.header_written_ w || bool_decide (rows = []) then []
        else header_line (writer_dialect w))
    ++ concat (written_line (writer_dialect w) <$> rows).
Proof.
  induction rows as [|entries rows IH]; intros w Hopen.
  - simpl. by rewrite orb_true_r, app_nil_r.
  - cbn [foldl].
    destruct (write_row_spec w entries Hopen) as (Hw & Hopen' & Hhw & Hd).
    rewrite IH by done. rewrite Hw, Hhw, Hd. cbn [orb].
    rewrite bool_decide_eq_false_2 by done. rewrite orb_false_r.
    csimpl. by rewrite <- !app_assoc.
Qed.

Lemma pad_truncate_zero (l : list text) : Reader.pad_truncate 0 l = l.
Proof. unfold Reader.pad_truncate. simpl. by rewrite andb_false_r. Qed.

Section RoundTrip.
Variable d : Dialect.
Hypothesis Hd : portable_dialect d.

Local Abbreviation D := (delimiter_ d).

Lemma portable_row_line fields c :
  c = NEWLINE ∨ c = CR →
  portable_row d fields → c ∉ Writer.join D fields.
Proof.
  destruct Hd as (_ & _ & _ & HnlD & HcrD & _).
  intros Hc [Hfields _] [HinD|(f & Hf & Hin)]%elem_of_join.
  - by destruct Hc as [-> | ->].
  - rewrite Forall_forall in Hfields. destruct (Hfields f Hf) as (_ & Hnl & Hcr & _).
    by destruct Hc as [-> | ->].
Qed.

Lemma portable_row_flushed b fields :
  portable_row d fields → Reader.flushed d b <$> fields = fields.
Proof.
  intros [Hfields _]. apply fmap_fixed. eapply Forall_impl; [exact Hfields|].
  intros f (_ & _ & _ & Ht). by apply flushed_trimmed.
Qed.

Lemma portable_row_scannable fields :
  portable_row d fields → Forall (scannable_field d) fields.
Proof.
  intros [Hfields _]. eapply Forall_impl; [exact Hfields|].
  intros f (Hp & _). by apply plain_field_scannable.
Qed.

(** A data line tokenizes to the row that was written. *)
Lemma split_portable_row (r : Reader.t) fields :
  Reader.current_dialect_ r = d →
  Reader.columns_ r = length fields →
  portable_row d fields →
  Reader.split r (Writer.join D fields) = Some fields.
Proof.
  intros Hr Hk Hrow.
  destruct Hd as (_ & _ & HD & _ & _ & Hlast).
  pose proof (split_join_fields r fields) as Hsplit. cbv zeta in Hsplit.
  rewrite Hr in Hsplit. rewrite Hsplit; try done.
  - by rewrite portable_row_flushed.
  - by destruct Hrow.
  - by apply portable_row_scannable.
Qed.

(** The header line tokenizes to the column names, before any column count
    is established. *)
Lemma split_portable_header (r : Reader.t) names :
  Reader.current_dialect_ r = d →
  Reader.columns_ r = 0 →
  portable_row d names →
  List.last names [] ≠ [] →
  Reader.split r (Writer.join D names) = Some names.
Proof.
  intros Hr Hk Hrow Hlast.
  destruct Hd as (_ & _ & HD & _ & _ & HlastD).
  destruct names as [|f fs]; [done|].
  rewrite join_fields_line.
  unfold Reader.split, Reader.split_with. rewrite Hr, Hk.
  rewrite split_fields_line; try done.
  - simpl. f_equal. unfold drop_last_empty.
    rewrite bool_decide_eq_false_2 by done.
    rewrite portable_row_flushed by done.
    apply pad_truncate_zero.
  - by destruct Hrow.
  - by right.
  - pose proof (portable_row_scannable _ Hrow) as Hs.
    by apply Forall_cons in Hs as [? ?].
  - pose proof (portable_row_scannable _ Hrow) as Hs.
    by apply Forall_cons in Hs as [? ?].
  - intros Hnil. apply Hlast.
    rewrite last_cons_default.
    unfold fields_line in Hnil. apply app_eq_nil in Hnil as [-> Hnil].
    destruct fs as [|g fs]; [done|]. simpl in Hnil.
    by destruct (delimiter_ d).
Qed.
End RoundTrip.

Lemma configured_writer_dialect d : writer_dialect (configured_writer d) = d.
Proof.
  unfold writer_dialect, configured_writer, subscript. simpl.
  by rewrite lookup_insert_eq.
Qed.

Lemma configured_reader_dialect d : reader_dialect (configured_reader d) = d.
Proof.
  unfold reader_dialect, configured_reader, subscript. simpl.
  by rewrite lookup_insert_eq.
Qed.

Lemma counted_lines_all skip (lines : list text) :
  Forall (λ l, CR ∉ l) lines →
  Forall (λ l, Reader.counted skip l = true) lines →
  eligible_lines skip lines = lines.
Proof.
  unfold eligible_lines. induction 1 as [|l lines Hcr _ IH]; [done|].
  intros [Hc Hcs]%Forall_cons. csimpl.
  rewrite strip_cr_fixed by done. simpl. rewrite Hc. f_equal. by apply IH.
Qed.

(** X14. What a writer writes, a reader reads back. Under a dialect with a
    header row, the newline as line terminator and a delimiter without line
    breaks that does not end with the quote character, with column names the
    last of which is not empty: the rows a fresh writer writes with
    [write_row], each with as many fields as there are column names, are read
    by a fresh reader as the column names and, row by row, the fields bound to
    them. The names and the fields are portable: free of characters that start
    the delimiter, of quote characters and of line breaks, with no trim
    character at either end and, under [skip_initial_space_], no space at the
    front of a field that follows a delimiter. *)
Theorem written_file_reads_back (d : Dialect) (rows : list (list text)) filename :
  portable_dialect d →
  portable_row d (column_names_ d) →
  List.last (column_names_ d) [] ≠ [] →
  rows ≠ [] →
  Forall (λ fields, length fields = length (column_names_ d) ∧ portable_row d fields)
    rows →
  (skip_empty_rows_ d = true → Forall (λ fields, fields ≠ [[]]) rows) →
  let w := foldl (λ w entries, Writer.write_row entries w) (configured_writer d) rows in
  ∃ r',
    Reader.read (one_file (Writer.written (Writer.stream_ w))) filename 0
      (configured_reader d)
    = Returns r'
    ∧ Reader.cols r' = column_names_ d
    ∧ Reader.rows r' = row_of (column_names_ d) (ignore_columns_ d) <$> rows
    ∧ Reader.shape r' = (length rows, length (column_names_ d)).
Proof.
  intros Hd Hnames Hlast Hrows Hall Hskip w.
  set (names := column_names_ d) in *.
  set (lines := Writer.join (delimiter_ d) names
                :: (Writer.join (delimiter_ d) <$> rows)).
  assert (names ≠ []) as Hne by (by destruct names).
  (* the file *)
  assert (Writer.written (Writer.stream_ w)
          = concat ((λ l, l ++ [NEWLINE]) <$> lines)) as Hbytes.
  { subst w. rewrite write_rows_written by done.
    rewrite configured_writer_dialect. simpl.
    rewrite bool_decide_eq_false_2 by done.
    destruct Hd as (_ & Hlt & _).
    unfold header_line, written_line. fold names. rewrite Hlt.
    destruct names as [|name names'] eqn:Hn; [done|]. rewrite <- Hn.
    subst lines. csimpl. do 2 f_equal.
    rewrite <- list_fmap_compose. done. }
  assert (Forall (λ l, NEWLINE ∉ l) lines ∧ Forall (λ l, CR ∉ l) lines) as [Hnl Hcr].
  { subst lines. split; (constructor; [apply portable_row_line; auto|]).
    all: apply Forall_fmap; eapply Forall_impl; [exact Hall|].
    all: intros fields [_ Hrow]; simpl; apply portable_row_line; auto. }
  assert (Reader.stream_lines (Writer.written (Writer.stream_ w)) = lines) as Hlines.
  { rewrite Hbytes. by apply stream_lines_terminated. }
  (* the reader before the pass *)
  set (r0 := Reader.prepare lines 0 (configured_reader d)).
  assert (Reader.current_dialect_ r0 = d) as Hd0.
  { subst r0. by rewrite prepare_dialect, load_dialect_dialect, configured_reader_dialect. }
  assert (Reader.columns_ r0 = 0) as Hk0 by (subst r0; by rewrite prepare_columns).
  assert (Forall (λ l, Reader.counted (skip_empty_rows_ d) l = true) lines) as Hcounted.
  { subst lines. constructor.
    - apply counted_nonempty. intros Hnil.
      pose proof (split_portable_header d Hd r0 names Hd0 Hk0 Hnames Hlast) as Hs.
      rewrite Hnil, split_empty, Hk0 in Hs. simpl in Hs. by injection Hs as <-.
    - apply Forall_fmap. destruct (skip_empty_rows_ d) eqn:Hsk.
      + specialize (Hskip eq_refl).
        apply Forall_forall. intros fields Hin. simpl.
        apply counted_nonempty. intros Hnil.
        rewrite Forall_forall in Hall, Hskip.
        destruct (Hall fields Hin) as [Hlen Hrow].
        pose proof (split_portable_row d Hd (Reader.with_headers r0 names) fields Hd0
                      (eq_sym Hlen) Hrow) as Hs.
        rewrite Hnil, split_empty in Hs. simpl in Hs. injection Hs as Hs.
        apply (Hskip fields Hin). rewrite <- Hs.
        destruct names as [|n1 [|n2 ns]]; simpl in *; try done.
        destruct fields as [|f1 [|f2 fields]]; simpl in *; try done.
        destruct (delimiter_ d) eqn:HD; [by destruct Hd as (_ & _ & ? & _)|].
        by destruct f1.
      + apply Forall_forall. intros fields _. simpl.
        destruct (decide (Writer.join (delimiter_ d) fields = [])) as [Hnil|Hnn].
        * rewrite Hnil. apply counted_nil.
        * by apply counted_nonempty. }
  assert (eligible_lines (skip_empty_rows_ d) lines = lines) as Helig
    by (by apply counted_lines_all).
  assert (Reader.expected_number_of_rows_ r0 = length rows) as Hexp.
  { subst r0. rewrite prepare_expected. simpl.
    rewrite load_dialect_dialect, configured_reader_dialect.
    rewrite counted_lines_eligible, Helig.
    destruct Hd as (-> & _). subst lines. simpl. by rewrite length_fmap, Nat.sub_0_r. }
  (* the pass *)
  unfold Reader.read, one_file. rewrite Hlines. fold r0.
  destruct (read_internal_values lines r0 names) as (new & Hread & Hnew); [| |done|].
  { subst r0. apply prepare_enabled. }
  { rewrite derive_headers_eq. subst lines. simpl hd.
    rewrite strip_cr_fixed by (by apply Forall_cons in Hcr as [? _]).
    rewrite (split_portable_header d Hd) by done.
    rewrite Hd0. by destruct Hd as (-> & _). }
  rewrite Hread. eexists. split; [done|].
  unfold Reader.cols, Reader.rows, Reader.shape, Reader.with_rows, Reader.with_headers.
  cbn [Reader.headers_ Reader.rows_ Reader.expected_number_of_rows_ Reader.columns_].
  rewrite Hexp. split; [done|]. split; [|done].
  assert (Reader.rows_ r0 = []) as -> by (subst r0; by rewrite prepare_rows).
  rewrite app_nil_l.
  rewrite Hexp, Hd0 in Hnew.
  unfold Reader.data_lines in Hnew. rewrite Hd0 in Hnew.
  pose proof Hd as (Hheader & _). rewrite Hheader in Hnew.
  assert (eligible_lines (skip_empty_rows_ d) (tl lines) = tl lines) as Helig'.
  { apply counted_lines_all; [by apply Forall_cons in Hcr as [_ ?]|].
    by apply Forall_cons in Hcounted as [_ ?]. }
  rewrite Helig' in Hnew. subst lines. simpl in Hnew.
  rewrite <- (length_fmap (Writer.join (delimiter_ d))), firstn_all in Hnew.
  clearbody r0. clear -Hnew Hall Hd0 Hd.
  revert new Hnew. induction Hall as [|fields rows [Hlen Hrow] _ IH]; intros new Hnew.
  - by apply Forall2_nil_inv_r in Hnew as ->.
  - csimpl in Hnew.
    apply Forall2_cons_inv_r in Hnew
      as (row & new' & (fields' & Hsplit & _ & ->) & Hrest & ->).
    rewrite (split_portable_row d Hd (Reader.with_headers r0 _) fields Hd0) in Hsplit
      by done.
    injection Hsplit as <-. csimpl. f_equal. by apply IH.
Qed.

(** X14 on two rows under the column names [x] and [y], the second row
    with an empty last field. *)
Lemma written_file_reads_back_witness :
  ∃ r',
    Reader.read
      (one_file
         (Writer.written
            (Writer.stream_
               (foldl (λ w entries, Writer.write_row entries w)
                  (configured_writer
                     (add_column_names [txt "x"; txt "y"] Dialect_default))
                  [[txt "1"; txt "2"]; [txt "3"; []]]))))
      (txt "xy.csv") 0
      (configured_reader (add_column_names [txt "x"; txt "y"] Dialect_default))
    = Returns r'
    ∧ Reader.cols r' = [txt "x"; txt "y"]
    ∧ Reader.rows r'
      = [row_of [txt "x"; txt "y"] ∅ [txt "1"; txt "2"];
         row_of [txt "x"; txt "y"] ∅ [txt "3"; []]]
    ∧ Reader.shape r' = (2, 2).
Proof.
  apply (written_file_reads_back (add_column_names [txt "x"; txt "y"] Dialect_default)
           [[txt "1"; txt "2"]; [txt "3"; []]] (txt "xy.csv")).
  - split_and!; try reflexivity; try discriminate.
    all: apply (bool_decide_unpack _); vm_compute; exact I.
  - split; [|left; reflexivity].
    repeat constructor; try discriminate.
    all: try (apply (bool_decide_unpack _); vm_compute; exact I).
    all: intros c [Hc|Hc]; apply not_elem_of_nil.
  - discriminate.
  - discriminate.
  - repeat constructor; try discriminate.
    all: try (apply (bool_decide_unpack _); vm_compute; exact I).
    all: try (intros c [Hc|Hc]; apply not_elem_of_nil).
    all: left; reflexivity.
  - discriminate.
Defined.

(** ** Carriage returns *)

(** The reader sees the lines of a stream only through [strip_cr]. *)
Section SameLines.
Variables lines lines2 : list text.
Hypothesis Hsame : Reader.strip_cr <$> lines = Reader.strip_cr <$> lines2.

Lemma same_lines_counted skip : counted_lines skip lines = counted_lines skip lines2.
Proof. rewrite !counted_lines_eligible. unfold eligible_lines. by rewrite Hsame. Qed.

Lemma same_lines_prepare rows r :
  Reader.prepare lines rows r = Reader.prepare lines2 rows r.
Proof.
  unfold Reader.prepare, Reader.count_rows. simpl.
  by rewrite !prescan_count, same_lines_counted.
Qed.

Lemma same_lines_derive_headers r :
  Reader.derive_headers r lines = Reader.derive_headers r lines2.
Proof.
  rewrite !derive_headers_eq.
  destruct lines as [|l ls], lines2 as [|l2 ls2]; try done.
  simpl. by injection Hsame as -> _.
Qed.
End SameLines.

Lemma same_lines_parse_rows r lines : ∀ lines2 number_of_rows current_row rows,
  Reader.strip_cr <$> lines = Reader.strip_cr <$> lines2 →
  Reader.parse_rows r lines number_of_rows current_row rows
  = Reader.parse_rows r lines2 number_of_rows current_row rows.
Proof.
  induction lines as [|l ls IH]; intros [|l2 ls2] n cur rows Hsame; try done.
  injection Hsame as Hl Hls. rewrite !parse_rows_cons, Hl.
  destruct (n =? _); [done|].
  destruct (Reader.counted _ _); [|by apply IH].
  destruct (Reader.split r _); [|done].
  destruct (Reader.bind_row _ _ _ _ _ _); [|done]. by apply IH.
Qed.

Lemma same_lines_read_internal r lines lines2 :
  Reader.strip_cr <$> lines = Reader.strip_cr <$> lines2 →
  Reader.read_internal lines r = Reader.read_internal lines2 r.
Proof.
  intros Hsame. unfold Reader.read_internal.
  rewrite (same_lines_derive_headers lines lines2 Hsame).
  destruct (Reader.derive_headers r lines2) as [headers|]; [|done].
  rewrite (same_lines_parse_rows _ (Reader.data_lines r lines)
             (Reader.data_lines r lines2)); [done|].
  unfold Reader.data_lines. destruct (header_ _); [|done].
  destruct lines, lines2; try done. simpl in *. by injection Hsame as _ ?.
Qed.

(** X15. A file whose lines end with carriage return and newline reads as
    the file with the same lines ended by a newline alone, for every reader
    and row count: [read] gives the same outcome on both. *)
Theorem crlf_file_reads_as_lf_file (lines : list text) filename rows (r : Reader.t) :
  Forall (λ l, (NEWLINE ∉ l) ∧ last l ≠ Some CR) lines →
  Reader.read (one_file (concat ((λ l, l ++ [CR; NEWLINE]) <$> lines))) filename rows r
  = Reader.read (one_file (concat ((λ l, l ++ [NEWLINE]) <$> lines))) filename rows r.
Proof.
  intros Hlines. unfold Reader.read, one_file.
  assert (concat ((λ l, l ++ [CR; NEWLINE]) <$> lines)
          = concat ((λ l, l ++ [NEWLINE]) <$> ((λ l, l ++ [CR]) <$> lines))) as ->.
  { rewrite <- list_fmap_compose. f_equal. apply list_fmap_ext.
    intros _ l _. simpl. by rewrite <- app_assoc. }
  rewrite !stream_lines_terminated.
  2:{ eapply Forall_impl; [exact Hlines|]. by intros l [? _]. }
  2:{ apply Forall_fmap. eapply Forall_impl; [exact Hlines|].
      intros l [Hnl _]. simpl. rewrite elem_of_app.
      intros [?|Hin]; [done|]. by apply list_elem_of_singleton in Hin. }
  assert (Reader.strip_cr <$> ((λ l, l ++ [CR]) <$> lines) = Reader.strip_cr <$> lines)
    as Hsame.
  { rewrite <- list_fmap_compose. apply Forall_fmap_ext_1.
    eapply Forall_impl; [exact Hlines|]. intros l [_ Hlast]. simpl.
    by rewrite strip_cr_snoc, strip_cr_no_cr. }
  rewrite (same_lines_prepare _ _ Hsame).
  by apply same_lines_read_internal.
Qed.

(** X15 on two lines. *)
Lemma crlf_file_reads_as_lf_file_witness :
  Reader.read
    (one_file (concat ((λ l, l ++ [CR; NEWLINE]) <$> [txt "a,b"; txt "1,2"])))
    (txt "ab.csv") 0 Reader.new
  = Reader.read
      (one_file (concat ((λ l, l ++ [NEWLINE]) <$> [txt "a,b"; txt "1,2"])))
      (txt "ab.csv") 0 Reader.new.
Proof.
  apply (crlf_file_reads_as_lf_file [txt "a,b"; txt "1,2"] (txt "ab.csv") 0 Reader.new).
  repeat constructor; try discriminate.
  all: apply (bool_decide_unpack _); vm_compute; exact I.
Defined.

(** * The registry of the reader, and the setters *)

(** X16. [configure_dialect] switches the current dialect only when the name
    is new. After the setters [f] are applied through the reference it
    returns, a [read] loads the configured dialect if the name was not
    registered (it is [f] of a default dialect) or is the current one; for
    another registered name the current dialect stays, and the configured
    entry is loaded once [use_dialect] selects it, which then does not
    throw. *)
Theorem configure_dialect_selects_new_names_only (r : Reader.t) dialect_name
    (f : Dialect → Dialect) :
  let r' := Reader.update_dialect dialect_name f (Reader.configure_dialect dialect_name r) in
  reader_dialect r'
  = match Reader.dialects_ r !! dialect_name with
    | None => f Dialect_default
    | Some dialect =>
        if decide (dialect_name = Reader.current_dialect_name_ r) then f dialect
        else reader_dialect r
    end
  ∧ Reader.dialects_ r' !! dialect_name
    = Some (f (default Dialect_default (Reader.dialects_ r !! dialect_name)))
  ∧ ∃ r'', Reader.use_dialect dialect_name r' = Returns r''
           ∧ reader_dialect r''
             = f (default Dialect_default (Reader.dialects_ r !! dialect_name)).
Proof.
  unfold Reader.configure_dialect, Reader.update_dialect, Reader.use_dialect,
    reader_dialect, subscript.
  destruct (Reader.dialects_ r !! dialect_name) as [dialect|] eqn:Hd; simpl.
  - rewrite !lookup_alter_eq, Hd. simpl. split; [|split; [done|]].
    + destruct (decide (dialect_name = Reader.current_dialect_name_ r)) as [<-|Hne].
      * by rewrite lookup_alter_eq, Hd.
      * rewrite lookup_alter_ne by done.
        by destruct (Reader.dialects_ r !! Reader.current_dialect_name_ r).
    + eexists. split; [done|]. simpl. by rewrite lookup_alter_eq, Hd.
  - rewrite !lookup_alter_eq, !lookup_insert_eq. simpl. split; [done|split; [done|]].
    eexists. split; [done|]. simpl. by rewrite lookup_alter_eq, lookup_insert_eq.
Qed.

(** X17. [get_dialect] on a name that is not registered registers it with a
    default-constructed dialect and returns that; it leaves the other entries
    and the current dialect name alone, and [use_dialect] of the name no
    longer throws. *)
Theorem get_dialect_registers (r : Reader.t) dialect_name :
  let (dialect, r') := Reader.get_dialect dialect_name r in
  dialect = default Dialect_default (Reader.dialects_ r !! dialect_name)
  ∧ Reader.dialects_ r' !! dialect_name = Some dialect
  ∧ (∀ name, name ≠ dialect_name →
       Reader.dialects_ r' !! name = Reader.dialects_ r !! name)
  ∧ Reader.current_dialect_name_ r' = Reader.current_dialect_name_ r
  ∧ ∃ r'', Reader.use_dialect dialect_name r' = Returns r''.
Proof.
  unfold Reader.get_dialect, Reader.use_dialect, subscript.
  destruct (Reader.dialects_ r !! dialect_name) as [dialect|] eqn:Hd; simpl.
  - rewrite Hd. split_and!; eauto.
  - rewrite lookup_insert_eq. split_and!; eauto.
    intros name Hne. by rewrite lookup_insert_ne.
Qed.

(** X18. [list_dialects] lists every registered name once: a name is listed
    exactly when [use_dialect] accepts it. A reader just constructed lists
    unix, excel and excel_tab, and [configure_dialect] adds its name when it
    is new. The order is that of the hash table. *)
Theorem list_dialects_lists_registry (r : Reader.t) :
  NoDup (Reader.list_dialects r)
  ∧ (∀ name, name ∈ Reader.list_dialects r
             ↔ ∃ r', Reader.use_dialect name r = Returns r')
  ∧ Reader.list_dialects Reader.new ≡ₚ [txt "unix"; txt "excel"; txt "excel_tab"]
  ∧ (∀ name,
       Reader.list_dialects (Reader.configure_dialect name r)
       ≡ₚ if decide (name ∈ Reader.list_dialects r) then Reader.list_dialects r
          else name :: Reader.list_dialects r).
Proof.
  assert (∀ m : gmap text Dialect, ∀ name,
            name ∈ (map_to_list m).*1 ↔ is_Some (m !! name)) as Hin.
  { intros m name. rewrite list_elem_of_fmap. split.
    - intros ([k v] & -> & Hkv%elem_of_map_to_list). eauto.
    - intros [v Hv]. exists (name, v). split; [done|]. by apply elem_of_map_to_list. }
  unfold Reader.list_dialects. split_and!.
  - apply NoDup_fst_map_to_list.
  - intros name. rewrite Hin. unfold Reader.use_dialect.
    destruct (_ !! name); split; eauto; intros [? ?]; done.
  - unfold Reader.new, registered_dialects. simpl.
    rewrite !map_to_list_insert; [|by vm_compute..].
    rewrite map_to_list_empty. simpl.
    exact (reverse_Permutation [txt "unix"; txt "excel"; txt "excel_tab"]).
  - intros name. unfold Reader.configure_dialect.
    destruct (decide _) as [Hi|Hi]; rewrite Hin in Hi.
    + destruct Hi as [v ->]. done.
    + apply eq_None_not_Some in Hi. rewrite Hi. simpl.
      by rewrite map_to_list_insert.
Qed.

(** X19. The setters that take a list add to what is configured and never
    replace it: a second call of [column_names] or [trim_characters] appends,
    and [ignore_columns] adds its names to the ignored set, each with the
    value [true]. *)
Theorem dialect_setters_accumulate (d : Dialect) (xs ys : list text) (cs cs2 : list ascii) :
  column_names_ (add_column_names ys (add_column_names xs d))
  = column_names_ d ++ xs ++ ys
  ∧ trim_characters_ (add_trim_characters cs2 (add_trim_characters cs d))
    = trim_characters_ d ++ cs ++ cs2
  ∧ dom (ignore_columns_ (add_ignore_columns xs d))
    = dom (ignore_columns_ d) ∪ list_to_set xs
  ∧ (∀ x, x ∈ xs → ignore_columns_ (add_ignore_columns xs d) !! x = Some true)
  ∧ add_ignore_columns ys (add_ignore_columns xs d) = add_ignore_columns (xs ++ ys) d.
Proof.
  split_and!.
  - simpl. by rewrite <- app_assoc.
  - simpl. by rewrite <- app_assoc.
  - simpl. generalize (ignore_columns_ d). induction xs as [|x xs' IH]; intros m; simpl.
    + by rewrite (right_id_L ∅ (∪)).
    + rewrite IH, dom_insert_L.
      by rewrite (comm_L (∪) {[x]}), <- (assoc_L (∪)), (comm_L (∪) {[x]}).
  - simpl. generalize (ignore_columns_ d). induction xs as [|x' xs' IH]; intros m x Hx.
    + by apply elem_of_nil in Hx.
    + simpl. destruct (decide (x ∈ xs')) as [Hin|Hnin]; [by apply IH|].
      apply elem_of_cons in Hx as [->|?]; [|done].
      clear IH. revert m. induction xs' as [|y ys' IH]; intros m; simpl.
      * by rewrite lookup_insert_eq.
      * apply not_elem_of_cons in Hnin as [Hne Hnin].
        rewrite insert_insert_ne by done. by apply IH.
  - unfold add_ignore_columns. simpl. by rewrite foldl_app.
Qed.

(** * The overloads of [write_row] and the registry of the writer *)

Lemma push_entries_lookup column_names : ∀ row_map entries,
  Writer.push_entries column_names row_map entries
  = entries ++ ((λ name, default [] (row_map !! name)) <$> column_names).
Proof.
  induction column_names as [|name names IH]; intros row_map entries; simpl.
  - by rewrite app_nil_r.
  - unfold Writer.map_subscript.
    destruct (row_map !! name) as [value|] eqn:Hv; simpl.
    + by rewrite IH, <- app_assoc.
    + rewrite IH, <- app_assoc. simpl. do 2 f_equal.
      apply list_fmap_ext. intros _ name' _.
      destruct (decide (name' = name)) as [->|Hne].
      * by rewrite lookup_insert_eq, Hv.
      * by rewrite lookup_insert_ne.
Qed.

Lemma writer_dialect_subscript (w : Writer.t) :
  writer_dialect
    (Writer.mk (Writer.header_written_ w) (Writer.stream_ w)
       (Writer.current_row_entries_ w) (Writer.current_dialect_name_ w)
       (subscript (Writer.dialects_ w) (Writer.current_dialect_name_ w)).2)
  = writer_dialect w.
Proof. unfold writer_dialect. simpl. by rewrite subscript_stable. Qed.

Lemma write_row_map_spec (w : Writer.t) row_map :
  Writer.is_open (Writer.stream_ w) = true →
  let w' := Writer.write_row_map row_map w in
  Writer.written (Writer.stream_ w')
  = Writer.written (Writer.stream_ w)
    ++ (if Writer.header_written_ w then [] else header_line (writer_dialect w))
    ++ written_line (writer_dialect w)
         (Writer.current_row_entries_ w ++ map_entries (writer_dialect w) row_map)
  ∧ Writer.is_open (Writer.stream_ w') = true
  ∧ Writer.header_written_ w' = true
  ∧ writer_dialect w' = writer_dialect w
  ∧ Writer.current_row_entries_ w' = [].
Proof.
  intros Hopen. unfold Writer.write_row_map.
  pose proof (subscript_stable (Writer.dialects_ w) (Writer.current_dialect_name_ w))
    as Hst.
  unfold map_entries, writer_dialect.
  destruct (subscript (Writer.dialects_ w) (Writer.current_dialect_name_ w))
    as [d ds] eqn:Hsub.
  cbn [fst snd] in *. rewrite push_entries_lookup.
  edestruct (write_current_row_spec
               (Writer.mk (Writer.header_written_ w) (Writer.stream_ w)
                  (Writer.current_row_entries_ w
                   ++ ((λ name, default [] (row_map !! name)) <$> column_names_ d))
                  (Writer.current_dialect_name_ w) ds))
    as (Hw & Ho & Hh & Hd & He); [exact Hopen|].
  unfold writer_dialect in Hw, Hd.
  cbn [Writer.header_written_ Writer.stream_ Writer.current_row_entries_
       Writer.current_dialect_name_ Writer.dialects_] in Hw, Hd.
  rewrite Hst in Hw, Hd. cbn [fst] in Hw, Hd.
  split_and!; done.
Qed.

Lemma write_row_entries_spec (w : Writer.t) entries :
  Writer.is_open (Writer.stream_ w) = true →
  let w' := Writer.write_row_entries entries w in
  Writer.written (Writer.stream_ w')
  = Writer.written (Writer.stream_ w)
    ++ (if Writer.header_written_ w then [] else header_line (writer_dialect w))
    ++ written_line (writer_dialect w) (Writer.current_row_entries_ w ++ entries)
  ∧ Writer.is_open (Writer.stream_ w') = true
  ∧ Writer.header_written_ w' = true
  ∧ writer_dialect w' = writer_dialect w
  ∧ Writer.current_row_entries_ w' = [].
Proof.
  intros Hopen. unfold Writer.write_row_entries.
  edestruct (write_current_row_spec
               (Writer.mk (Writer.header_written_ w) (Writer.stream_ w)
                  (Writer.current_row_entries_ w ++ entries)
                  (Writer.current_dialect_name_ w) (Writer.dialects_ w)))
    as (Hw & Ho & Hh & Hd & He); [exact Hopen|].
  split_and!; done.
Qed.

Lemma call_spec (w : Writer.t) c :
  Writer.is_open (Writer.stream_ w) = true →
  Writer.current_row_entries_ w = [] →
  Writer.written (Writer.stream_ (call w c))
  = Writer.written (Writer.stream_ w)
    ++ (if Writer.header_written_ w then [] else header_line (writer_dialect w))
    ++ written_line (writer_dialect w) (call_entries (writer_dialect w) c)
  ∧ Writer.is_open (Writer.stream_ (call w c)) = true
  ∧ Writer.header_written_ (call w c) = true
  ∧ writer_dialect (call w c) = writer_dialect w
  ∧ Writer.current_row_entries_ (call w c) = [].
Proof.
  intros Hopen Hnil. destruct c as [es|es|m]; simpl.
  - destruct (write_row_spec w es Hopen) as (? & ? & ? & ?). split_and!; try done.
    unfold Writer.write_row.
    by edestruct (write_current_row_spec
                    (Writer.mk (Writer.header_written_ w) (Writer.stream_ w) es
                       (Writer.current_dialect_name_ w) (Writer.dialects_ w)))
      as (_ & _ & _ & _ & ?).
  - destruct (write_row_entries_spec w es Hopen) as (Hw & ? & ? & ? & ?).
    rewrite Hnil in Hw. split_and!; done.
  - destruct (write_row_map_spec w m Hopen) as (Hw & ? & ? & ? & ?).
    rewrite Hnil in Hw. split_and!; done.
Qed.

(** X20. Over any sequence of calls of the three overloads of [write_row]
    (vector, parameter pack, map) on an open stream, starting with no pending
    entries: the output is the header line once if there is a call at all,
    then one line per call, and no entry is left pending. *)
Theorem write_row_overloads_write_lines (w : Writer.t) (calls : list write_call) :
  Writer.is_open (Writer.stream_ w) = true →
  Writer.current_row_entries_ w = [] →
  let d := writer_dialect w in
  let w' := foldl call w calls in
  Writer.written (Writer.stream_ w')
  = Writer.written (Writer.stream_ w)
    ++ (if Writer.header_written_ w || bool_decide (calls = []) then []
        else header_line d)
    ++ concat ((λ c, written_line d (call_entries d c)) <$> calls)
  ∧ Writer.current_row_entries_ w' = []
  ∧ writer_dialect w' = d.
Proof.
  revert w. induction calls as [|c calls IH]; intros w Hopen Hnil; cbn zeta.
  - simpl. by rewrite orb_true_r, app_nil_r.
  - cbn [foldl].
    destruct (call_spec w c Hopen Hnil) as (Hw & Hopen' & Hhw & Hd & Hnil').
    destruct (IH (call w c) Hopen' Hnil') as (IHw & IHnil & IHd).
    rewrite IHw, IHnil, IHd, Hw, Hhw, Hd. cbn [orb].
    rewrite bool_decide_eq_false_2 by done. rewrite orb_false_r.
    split_and!; try done. csimpl. by rewrite <- !app_assoc.
Qed.

(** X20 on one call of each overload, under the column names [x] and [y]:
    the map has no value for [x], and its key [z] is not written. *)
Lemma write_row_overloads_write_lines_witness :
  Writer.written
    (Writer.stream_
       (foldl call
          (configured_writer (add_column_names [txt "x"; txt "y"] Dialect_default))
          [WriteVector [txt "1"; txt "2"]; WriteEntries [txt "3"; txt "4"];
           WriteMap {[ txt "y" := txt "6"; txt "z" := txt "7" ]}]))
  = txt "x,y" ++ [NEWLINE] ++ txt "1,2" ++ [NEWLINE] ++ txt "3,4" ++ [NEWLINE]
    ++ txt ",6" ++ [NEWLINE].
Proof.
  destruct (write_row_overloads_write_lines
              (configured_writer (add_column_names [txt "x"; txt "y"] Dialect_default))
              [WriteVector [txt "1"; txt "2"]; WriteEntries [txt "3"; txt "4"];
               WriteMap {[ txt "y" := txt "6"; txt "z" := txt "7" ]}]
              eq_refl eq_refl) as (Hw & _).
  rewrite Hw. vm_compute. reflexivity.
Defined.

(** X21. [write_row] of a map writes one value per configured column name, in
    the order of the column names: the map's value at the name, the empty
    string when the map does not hold the name; keys that are no column names
    are not written. With no column names configured the line is empty. *)
Theorem write_row_map_takes_column_values (w : Writer.t) (row_map : gmap text text) :
  Writer.is_open (Writer.stream_ w) = true →
  let d := writer_dialect w in
  let w' := Writer.write_row_map row_map w in
  Writer.written (Writer.stream_ w')
  = Writer.written (Writer.stream_ w)
    ++ (if Writer.header_written_ w then [] else header_line d)
    ++ written_line d (Writer.current_row_entries_ w ++ map_entries d row_map)
  ∧ length (map_entries d row_map) = length (column_names_ d)
  ∧ (∀ i name, column_names_ d !! i = Some name →
       map_entries d row_map !! i = Some (default [] (row_map !! name)))
  ∧ (column_names_ d = [] → Writer.current_row_entries_ w = [] →
     Writer.written (Writer.stream_ w')
     = Writer.written (Writer.stream_ w) ++ [line_terminator_ d]).
Proof.
  intros Hopen d w'.
  destruct (write_row_map_spec w row_map Hopen) as (Hw & _).
  split_and!.
  - exact Hw.
  - unfold map_entries. by rewrite length_fmap.
  - intros i name Hi. unfold map_entries. by rewrite list_lookup_fmap, Hi.
  - intros Hnames Hnil. subst w'. rewrite Hw, Hnil. fold d.
    unfold map_entries, header_line, written_line. rewrite Hnames. simpl.
    by destruct (Writer.header_written_ w).
Qed.

(** X21 on a map that holds [y] and [z], under the column names [x] and
    [y]. *)
Lemma write_row_map_takes_column_values_witness :
  Writer.written
    (Writer.stream_
       (Writer.write_row_map {[ txt "y" := txt "6"; txt "z" := txt "7" ]}
          (configured_writer (add_column_names [txt "x"; txt "y"] Dialect_default))))
  = txt "x,y" ++ [NEWLINE] ++ txt ",6" ++ [NEWLINE].
Proof.
  destruct (write_row_map_takes_column_values
              (configured_writer (add_column_names [txt "x"; txt "y"] Dialect_default))
              {[ txt "y" := txt "6"; txt "z" := txt "7" ]} eq_refl) as (Hw & _).
  rewrite Hw. vm_compute. reflexivity.
Defined.

Lemma write_current_row_closed (w : Writer.t) :
  Writer.is_open (Writer.stream_ w) = false →
  Writer.stream_ (Writer.write_current_row w) = Writer.stream_ w
  ∧ Writer.header_written_ (Writer.write_current_row w) = true.
Proof.
  intros Hclosed. unfold Writer.write_current_row, Writer.write_header.
  destruct (Writer.header_written_ w) eqn:Hhw; cbn [negb].
  - destruct (subscript _ _) as [d ds]. simpl.
    unfold Writer.insert_text. by rewrite Hclosed.
  - destruct (subscript (Writer.dialects_ w) _) as [d ds].
    destruct (length (column_names_ d) =? 0); simpl;
      destruct (subscript _ _) as [d' ds']; simpl;
      unfold Writer.insert_text; simpl; rewrite ?Hclosed; simpl; rewrite ?Hclosed; done.
Qed.

Lemma call_closed (w : Writer.t) c :
  Writer.is_open (Writer.stream_ w) = false →
  Writer.stream_ (call w c) = Writer.stream_ w
  ∧ Writer.header_written_ (call w c) = true.
Proof.
  intros Hclosed. destruct c as [es|es|m]; simpl.
  - unfold Writer.write_row.
    exact (write_current_row_closed (Writer.mk _ (Writer.stream_ w) _ _ _) Hclosed).
  - unfold Writer.write_row_entries.
    exact (write_current_row_closed (Writer.mk _ (Writer.stream_ w) _ _ _) Hclosed).
  - unfold Writer.write_row_map. destruct (subscript _ _) as [d ds].
    exact (write_current_row_closed (Writer.mk _ (Writer.stream_ w) _ _ _) Hclosed).
Qed.

(** X22. A writer whose stream is not open discards what it is given without
    any error: no call of [write_row] changes the stream, though
    [header_written_] is set. So nothing reaches the file after [close], nor
    when the constructor could not open it. *)
Theorem closed_stream_discards_rows (w : Writer.t) (calls : list write_call) :
  (Writer.is_open (Writer.stream_ w) = false →
   Writer.stream_ (foldl call w calls) = Writer.stream_ w
   ∧ (calls ≠ [] → Writer.header_written_ (foldl call w calls) = true))
  ∧ Writer.written (Writer.stream_ (foldl call (Writer.close w) calls))
    = Writer.written (Writer.stream_ w)
  ∧ Writer.written (Writer.stream_ (foldl call (Writer.new false) calls)) = [].
Proof.
  assert (∀ w, Writer.is_open (Writer.stream_ w) = false →
            Writer.stream_ (foldl call w calls) = Writer.stream_ w
            ∧ (calls ≠ [] → Writer.header_written_ (foldl call w calls) = true))
    as Hclosed.
  { clear w. induction calls as [|c calls IH]; intros w Hw; [done|].
    cbn [foldl]. destruct (call_closed w c Hw) as [Hs Hh].
    destruct (IH (call w c)) as [IHs IHh]; [by rewrite Hs|].
    rewrite IHs, Hs. split; [done|]. intros _.
    destruct calls as [|c' calls]; [done|]. by apply IHh. }
  split_and!.
  - apply Hclosed.
  - by destruct (Hclosed (Writer.close w) eq_refl) as [-> _].
  - by destruct (Hclosed (Writer.new false) eq_refl) as [-> _].
Qed.

(** X23. The writer's [configure_dialect] switches the dialect rows are
    written under only when the name is new: after the setters [f] are applied
    through the reference it returns, [write_row] writes under [f] of a
    default dialect for a new name, under the updated entry for the current
    name, and under the unchanged current dialect for another registered
    name. *)
Theorem writer_configure_dialect_selects_new_names_only (w : Writer.t) dialect_name
    (f : Dialect → Dialect) (row_entries : list text) :
  let w' := Writer.update_dialect dialect_name f (Writer.configure_dialect dialect_name w) in
  writer_dialect w'
  = match Writer.dialects_ w !! dialect_name with
    | None => f Dialect_default
    | Some dialect =>
        if decide (dialect_name = Writer.current_dialect_name_ w) then f dialect
        else writer_dialect w
    end
  ∧ (Writer.is_open (Writer.stream_ w) = true →
     Writer.written (Writer.stream_ (Writer.write_row row_entries w'))
     = Writer.written (Writer.stream_ w)
       ++ (if Writer.header_written_ w then [] else header_line (writer_dialect w'))
       ++ written_line (writer_dialect w') row_entries).
Proof.
  intros w'. split.
  - unfold w', Writer.configure_dialect, Writer.update_dialect, writer_dialect, subscript.
    destruct (Writer.dialects_ w !! dialect_name) as [dialect|] eqn:Hd; simpl.
    + destruct (decide (dialect_name = Writer.current_dialect_name_ w)) as [<-|Hne].
      * by rewrite lookup_alter_eq, Hd.
      * rewrite lookup_alter_ne by done.
        by destruct (Writer.dialects_ w !! Writer.current_dialect_name_ w).
    + by rewrite lookup_alter_eq, lookup_insert_eq.
  - intros Hopen.
    assert (Writer.stream_ w' = Writer.stream_ w
            ∧ Writer.header_written_ w' = Writer.header_written_ w) as [Hs Hh].
    { unfold w', Writer.configure_dialect, Writer.update_dialect.
      by destruct (Writer.dialects_ w !! dialect_name). }
    destruct (write_row_spec w' row_entries) as (Hw & _); [by rewrite Hs|].
    by rewrite Hw, Hs, Hh.
Qed.

(** X24. The writer's [use_dialect] throws for a name that is not registered,
    with the name already current; a [write_row] after that registers the
    name with a default-constructed dialect and writes the entries joined by
    commas and ended by a newline, with no header line. *)
Theorem write_after_failed_use_dialect (w : Writer.t) dialect_name
    (row_entries : list text) :
  Writer.dialects_ w !! dialect_name = None →
  ∃ what w1,
    Writer.use_dialect dialect_name w = Throws what w1
    ∧ what = txt "error: Dialect " ++ dialect_name ++ txt " not found"
    ∧ Writer.current_dialect_name_ w1 = dialect_name
    ∧ writer_dialect w1 = Dialect_default
    ∧ Writer.dialects_ (Writer.write_row row_entries w1) !! dialect_name
      = Some Dialect_default
    ∧ (Writer.is_open (Writer.stream_ w) = true →
       Writer.written (Writer.stream_ (Writer.write_row row_entries w1))
       = Writer.written (Writer.stream_ w)
         ++ Writer.join [","] row_entries ++ [NEWLINE]).
Proof.
  intros Hnone. unfold Writer.use_dialect. rewrite Hnone.
  eexists _, _. split; [done|]. split; [done|]. split; [done|].
  set (w1 := Writer.mk _ _ _ _ _).
  assert (writer_dialect w1 = Dialect_default) as Hd.
  { unfold writer_dialect, subscript. simpl. by rewrite Hnone. }
  split_and!; [done| |].
  - unfold Writer.write_row, Writer.write_current_row, Writer.write_header, subscript.
    simpl. rewrite Hnone.
    destruct (Writer.header_written_ w); simpl;
      rewrite ?Hnone, ?lookup_insert_eq; simpl; rewrite ?lookup_insert_eq; simpl;
      by rewrite ?lookup_insert_eq.
  - intros Hopen. destruct (write_row_spec w1 row_entries Hopen) as (Hw & _).
    rewrite Hw, Hd. unfold header_line, written_line. simpl.
    by destruct (Writer.header_written_ w).
Qed.

(** X24 on a writer just constructed on an open stream and the name
    [mine]. *)
Lemma write_after_failed_use_dialect_witness :
  ∃ what w1,
    Writer.use_dialect (txt "mine") (Writer.new true) = Throws what w1
    ∧ what = txt "error: Dialect mine not found"
    ∧ Writer.current_dialect_name_ w1 = txt "mine"
    ∧ writer_dialect w1 = Dialect_default
    ∧ Writer.dialects_ (Writer.write_row [txt "1"; txt "2"] w1) !! txt "mine"
      = Some Dialect_default
    ∧ (Writer.is_open (Writer.stream_ (Writer.new true)) = true →
       Writer.written (Writer.stream_ (Writer.write_row [txt "1"; txt "2"] w1))
       = Writer.written (Writer.stream_ (Writer.new true))
         ++ Writer.join [","] [txt "1"; txt "2"] ++ [NEWLINE]).
Proof.
  apply (write_after_failed_use_dialect (Writer.new true) (txt "mine") [txt "1"; txt "2"]).
  vm_compute. reflexivity.
Defined.

(** * The tokenizer: the quotes that count, partial matches, termination *)

Section ScanCounted.
Variable d : Dialect.
Variable trimming_enabled : bool.
Variable input_string : text.

Local Abbreviation n := (length input_string).
Local Abbreviation body := (Reader.split_body d trimming_enabled input_string).
Local Abbreviation inner := (Reader.delimiter_loop d trimming_enabled input_string).
Local Abbreviation split_step := (split_step d trimming_enabled input_string).
Local Abbreviation quote := (quote_character_ d).

Lemma count_quote_last sub ch quotes :
  count_quote d ch (sub ++ [ch]) quotes
  = quotes
    + (if bool_decide (ch = quote)
          && negb (double_quote_ d && bool_decide (last sub = Some quote))
       then 1 else 0).
Proof.
  unfold count_quote.
  destruct (decide (ch = quote)) as [->|Hne].
  2:{ rewrite !(bool_decide_eq_false_2 (ch = quote)) by done. cbn [andb]. lia. }
  rewrite !(bool_decide_eq_true_2 (quote = quote)) by done. cbn [andb].
  destruct (double_quote_ d); cbn [andb negb]; [|done].
  destruct sub as [|y sub _] using rev_ind.
  { cbn. by rewrite bool_decide_eq_false_2. }
  rewrite !length_app. cbn [length].
  destruct (Nat.leb_spec 2 (length sub + 1 + 1)) as [_|?]; [|lia]. cbn [andb].
  replace (length sub + 1 + 1 - 2) with (length sub + 0) by lia.
  rewrite <- app_assoc, (char_at_middle sub [y] [quote] 0) by (simpl; lia).
  rewrite last_snoc. unfold char_at. cbn [nth].
  destruct (decide (y = quote)) as [->|Hy].
  - rewrite !bool_decide_eq_true_2 by done. cbn [negb]. lia.
  - rewrite (bool_decide_eq_false_2 (y = quote)) by done.
    rewrite bool_decide_eq_false_2 by congruence. cbn [negb]. lia.
Qed.

(** A run of characters none of which starts the delimiter goes to the
    accumulator, and the counter grows by the quote characters that count. *)
Lemma scan_counted f : ∀ pre rest st,
  input_string = pre ++ f ++ rest →
  Reader.idx st = length pre →
  Forall (λ c, hd_error (delimiter_ d) ≠ Some c) f →
  rtc split_step st
    (Reader.mkSplit (Reader.idx st + length f) (Reader.sub_result st ++ f)
       (Reader.quotes_encountered st
        + counted_quotes d (last (Reader.sub_result st)) f)
       (Reader.result st)
       (match f with [] => Reader.delimiter_detected st | _ => false end)).
Proof.
  induction f as [|c f IH]; intros pre rest st Hin Hidx Hclean.
  - simpl. rewrite !Nat.add_0_r, app_nil_r. destruct st; apply rtc_refl.
  - apply Forall_cons in Hclean as [Hc Hclean].
    assert (char_at input_string (Reader.idx st) = c) as Hch.
    { rewrite Hin, Hidx. apply char_at_head. }
    eapply rtc_l.
    { split; [|reflexivity]. rewrite Hin, Hidx, !length_app. simpl. lia. }
    rewrite body_no_delimiter, Hch, count_quote_last; try done.
    2:{ intros d0 D' HD. rewrite Hch. rewrite HD in Hc. simpl in Hc. congruence. }
    eapply rtc_trans.
    { apply (IH (pre ++ [c]) rest); simpl; [|rewrite length_app; simpl; lia|done].
      by rewrite Hin, <- app_assoc. }
    simpl. rewrite <- app_assoc, last_snoc. simpl.
    replace (Reader.idx st + 1 + length f) with (Reader.idx st + S (length f)) by lia.
    rewrite <- Nat.add_assoc.
    destruct f; apply rtc_refl.
Qed.

(** The first character of a longer delimiter, followed by a character that
    is not the delimiter's second: the first is dropped, the second goes to
    the accumulator. *)
Lemma body_partial_match st c1 c2 D' :
  delimiter_ d = c1 :: c2 :: D' →
  char_at input_string (Reader.idx st) = c1 →
  char_at input_string (Reader.idx st + 1) ≠ c2 →
  Reader.idx st + 1 < n →
  body st =
  Reader.mkSplit (Reader.idx st + 2)
    (Reader.sub_result st ++ [char_at input_string (Reader.idx st + 1)])
    (count_quote d (char_at input_string (Reader.idx st + 1))
       (Reader.sub_result st ++ [char_at input_string (Reader.idx st + 1)])
       (Reader.quotes_encountered st))
    (Reader.result st) false.
Proof.
  intros HD Hc1 Hc2 Hlt.
  assert (inner (length (delimiter_ d)) 0
            (Reader.mkSplit (Reader.idx st) (Reader.sub_result st)
               (Reader.quotes_encountered st) (Reader.result st) false)
          = Reader.mkSplit (Reader.idx st + 1) (Reader.sub_result st)
              (Reader.quotes_encountered st) (Reader.result st) false) as Hinner.
  { rewrite HD. cbn [length Reader.delimiter_loop].
    rewrite HD. cbn [length]. cbn [Nat.ltb Nat.leb].
    unfold Reader.delimiter_body at 1. cbn [Reader.idx]. rewrite HD, Hc1.
    unfold char_at at 1. cbn [nth].
    rewrite bool_decide_eq_true_2 by done. cbn [negb].
    cbn [length Nat.add Nat.eqb].
    destruct (Nat.eqb_spec (Reader.idx st + 1) n) as [|_]; [lia|].
    cbn [Reader.idx Reader.sub_result Reader.quotes_encountered Reader.result
         Reader.delimiter_detected].
    destruct (length D'); cbn [Nat.ltb Nat.leb Nat.add];
      unfold Reader.delimiter_body; cbn [Reader.idx]; rewrite HD;
      unfold char_at at 2; cbn [nth];
      rewrite bool_decide_eq_false_2 by done; done. }
  unfold Reader.split_body. rewrite Hinner.
  cbn [Reader.idx Reader.sub_result Reader.quotes_encountered Reader.result
       Reader.delimiter_detected negb].
  unfold count_quote.
  by replace (Reader.idx st + 1 + 1) with (Reader.idx st + 2) by lia.
Qed.

(** The same at the end of the line: the NUL past the end takes the place
    of the delimiter's first character. *)
Lemma body_partial_match_end st c1 c2 D' :
  delimiter_ d = c1 :: c2 :: D' →
  char_at input_string (Reader.idx st) = c1 →
  Reader.idx st + 1 = n →
  body st =
  Reader.mkSplit (n + 1) (Reader.sub_result st ++ [NUL])
    (count_quote d NUL (Reader.sub_result st ++ [NUL]) (Reader.quotes_encountered st))
    (Reader.result st) false.
Proof.
  intros HD Hc1 Hend.
  assert (inner (length (delimiter_ d)) 0
            (Reader.mkSplit (Reader.idx st) (Reader.sub_result st)
               (Reader.quotes_encountered st) (Reader.result st) false)
          = Reader.mkSplit n (Reader.sub_result st)
              (Reader.quotes_encountered st) (Reader.result st) false) as Hinner.
  { rewrite HD. cbn [length Reader.delimiter_loop].
    rewrite HD. cbn [length]. cbn [Nat.ltb Nat.leb].
    unfold Reader.delimiter_body at 1. cbn [Reader.idx]. rewrite HD, Hc1.
    unfold char_at at 1. cbn [nth].
    rewrite bool_decide_eq_true_2 by done. cbn [negb].
    cbn [length Nat.add Nat.eqb].
    rewrite Hend, Nat.eqb_refl. done. }
  unfold Reader.split_body. rewrite Hinner.
  cbn [Reader.idx Reader.sub_result Reader.quotes_encountered Reader.result
       Reader.delimiter_detected negb].
  assert (char_at input_string n = NUL) as ->.
  { unfold char_at. apply nth_overflow. lia. }
  done.
Qed.
End ScanCounted.

(** What [split] returns once the scan has reached the end of a line that
    is not empty. *)
Lemma split_of_run (r : Reader.t) line st :
  line ≠ [] →
  rtc (split_step (Reader.current_dialect_ r) (Reader.trimming_enabled_ r) line)
    (Reader.split_init (Reader.columns_ r) line) st →
  length line ≤ Reader.idx st →
  Reader.split r line
  = Some (Reader.pad_truncate (Reader.columns_ r)
            (Reader.flush_last (Reader.current_dialect_ r)
               (Reader.trimming_enabled_ r) st)).
Proof.
  intros Hne Hrun Hend. unfold Reader.split, Reader.split_with, Reader.split_fields.
  rewrite (split_loop_steps _ _ _ _ st Hrun Hend (length line)); [done|].
  unfold Reader.split_init. cbn [Reader.idx]. lia.
Qed.

(** X25. Under a one-character delimiter, whether the delimiter after a
    field cuts is decided by the quote characters of the field that count:
    all of them without double-quote escaping, and with it only those that do
    not follow a quote character. When their number is even, the line of the
    field, the delimiter and a second field tokenizes to the two fields; when
    it is odd, to the whole line as one field. So with escaping on, a field
    of two quote characters and nothing between them leaves the span open. *)
Theorem counted_quotes_decide_the_cut (r : Reader.t) (c : ascii) (f g : text) :
  let d := Reader.current_dialect_ r in
  delimiter_ d = [c] →
  c ≠ quote_character_ d →
  skip_initial_space_ d = false →
  Forall (λ ch, ch ≠ c) f →
  plain_field d g → g ≠ [] →
  Reader.split r (f ++ [c] ++ g)
  = Some (Reader.pad_truncate (Reader.columns_ r)
            (Reader.flushed d (Reader.trimming_enabled_ r)
               <$> (if counted_quotes d None f mod 2 =? 0 then [f; g]
                    else [f ++ [c] ++ g]))).
Proof.
  intros d HD Hcq Hskip Hf Hg Hgne.
  set (line := f ++ [c] ++ g).
  assert (line ≠ []) as Hne by (subst line; by destruct f).
  assert (Forall (λ ch, hd_error (delimiter_ d) ≠ Some ch) f) as Hf'.
  { eapply Forall_impl; [exact Hf|]. intros ch Hch. rewrite HD. simpl. congruence. }
  pose proof (scan_counted d (Reader.trimming_enabled_ r) line f [] ([c] ++ g)
                (Reader.split_init (Reader.columns_ r) line) eq_refl eq_refl Hf')
    as Hrun1.
  unfold Reader.split_init in Hrun1 at 2 3 4 5 6.
  cbn [Reader.idx Reader.sub_result Reader.quotes_encountered Reader.result
       Reader.delimiter_detected last app Nat.add] in Hrun1.
  rewrite (bool_decide_eq_false_2 (line = [])) in Hrun1 by done.
  set (st1 := Reader.mkSplit _ _ _ _ _) in Hrun1.
  assert (char_at line (length f) = c) as Hc.
  { subst line. apply char_at_head. }
  assert (length line = length f + 1 + length g) as Hlen.
  { subst line. rewrite !length_app. simpl. lia. }
  assert (Forall (λ ch, hd_error (delimiter_ d) ≠ Some ch ∧ ch ≠ quote_character_ d)
            (tl g)) as Htl.
  { destruct g; [done|]. by apply Forall_cons in Hg as [_ ?]. }
  destruct (Nat.eqb_spec (counted_quotes d None f mod 2) 0) as [Heven|Hodd].
  - (* the delimiter cuts *)
    assert (Reader.split_body d (Reader.trimming_enabled_ r) line st1
            = Reader.mkSplit (length f + 1) [] 0
                [Reader.flushed d (Reader.trimming_enabled_ r) f] true) as Hbody.
    { rewrite body_delimiter_accept.
      - rewrite HD. cbn [length]. cbv zeta.
        rewrite Hskip, andb_false_r. cbn [andb].
        replace (Reader.idx st1 + 1 - 1) with (length f) by (subst st1; simpl; lia).
        rewrite Hc, (bool_decide_eq_false_2 (c = quote_character_ d)) by done.
        done.
      - by rewrite HD.
      - rewrite HD. intros k Hk. simpl in Hk. replace k with 0 by lia.
        subst st1. simpl. rewrite Nat.add_0_r. exact Hc.
      - rewrite HD. subst st1. simpl. lia.
      - exact Heven. }
    pose proof (scan_plain d (Reader.trimming_enabled_ r) line g (f ++ [c]) []
                  (Reader.mkSplit (length f + 1) [] 0
                     [Reader.flushed d (Reader.trimming_enabled_ r) f] true))
      as Hrun2.
    cbn [Reader.idx Reader.sub_result Reader.quotes_encountered Reader.result
         Reader.delimiter_detected app] in Hrun2.
    assert (Reader.idx st1 < length line) as Hlt.
    { subst st1. cbn [Reader.idx]. lia. }
    specialize (Hrun2 ltac:(subst line; by rewrite app_nil_r, <- app_assoc)).
    specialize (Hrun2 ltac:(rewrite length_app; simpl; lia) Hg).
    pose proof (rtc_l _ _ _ _ (conj Hlt (eq_sym Hbody)) Hrun2) as Hrun3.
    rewrite (split_of_run r line _ Hne (transitivity Hrun1 Hrun3)).
    2:{ cbn [Reader.idx]. lia. }
    do 2 f_equal. unfold Reader.flush_last. simpl.
    by rewrite bool_decide_eq_true_2.
  - (* the delimiter is text *)
    assert (counted_quotes d None f mod 2 = 1) as Hodd'.
    { pose proof (Nat.mod_upper_bound (counted_quotes d None f) 2). lia. }
    destruct g as [|x g]; [done|]. apply Forall_cons in Hg as [[_ Hx] _].
    assert (char_at line (length f + 1) = x) as Hx1.
    { subst line. by rewrite char_at_app. }
    assert (Reader.split_body d (Reader.trimming_enabled_ r) line st1
            = Reader.mkSplit (length f + 2) (f ++ [c; x]) (counted_quotes d None f)
                [] false) as Hbody.
    { rewrite (body_delimiter_literal d _ line st1 c HD); [|exact Hc|exact Hodd'].
      subst st1. cbn [Reader.idx Reader.sub_result Reader.quotes_encountered
                      Reader.result Nat.add].
      rewrite Hx1, count_quote_other by done. done. }
    pose proof (scan_plain d (Reader.trimming_enabled_ r) line g (f ++ [c; x]) []
                  (Reader.mkSplit (length f + 2) (f ++ [c; x])
                     (counted_quotes d None f) [] false))
      as Hrun2.
    cbn [Reader.idx Reader.sub_result Reader.quotes_encountered Reader.result
         Reader.delimiter_detected] in Hrun2.
    assert (Reader.idx st1 < length line) as Hlt.
    { subst st1. cbn [Reader.idx]. lia. }
    specialize (Hrun2 ltac:(subst line; by rewrite app_nil_r, <- !app_assoc)).
    specialize (Hrun2 ltac:(rewrite length_app; simpl; lia) Htl).
    pose proof (rtc_l _ _ _ _ (conj Hlt (eq_sym Hbody)) Hrun2) as Hrun3.
    rewrite (split_of_run r line _ Hne (transitivity Hrun1 Hrun3)).
    2:{ cbn [Reader.idx]. rewrite Hlen. simpl. lia. }
    do 2 f_equal. unfold Reader.flush_last. cbn [Reader.sub_result Reader.result].
    rewrite bool_decide_eq_true_2 by (by destruct f).
    subst line. by rewrite <- !app_assoc.
Qed.

(** X25 on an empty quoted field and on a quoted [x], each followed by a
    comma and [b], under the default dialect: the two quote characters of the
    first count as one, and the comma after them does not cut. *)
Lemma counted_quotes_decide_the_cut_witness :
  Reader.split Reader.new (quoted [] ++ txt ",b") = Some [quoted [] ++ txt ",b"]
  ∧ Reader.split Reader.new (quoted (txt "x") ++ txt ",b")
    = Some [quoted (txt "x"); txt "b"].
Proof.
  split.
  - apply (counted_quotes_decide_the_cut Reader.new "," (quoted []) (txt "b")).
    + reflexivity.
    + discriminate.
    + reflexivity.
    + repeat constructor; discriminate.
    + repeat constructor; discriminate.
    + discriminate.
  - apply (counted_quotes_decide_the_cut Reader.new "," (quoted (txt "x")) (txt "b")).
    + reflexivity.
    + discriminate.
    + reflexivity.
    + repeat constructor; discriminate.
    + repeat constructor; discriminate.
    + discriminate.
Defined.

(** X26. Under a delimiter of two or more characters, its first character
    followed by a character that is not its second is dropped from the field,
    and the character after it is kept; at the end of the line the NUL read
    past the end takes its place. *)
Theorem partial_delimiter_match_drops_character (r : Reader.t) (c1 c2 x : ascii)
    (D' f g : text) :
  let d := Reader.current_dialect_ r in
  delimiter_ d = c1 :: c2 :: D' →
  plain_field d f → plain_field d g →
  x ≠ c2 → x ≠ quote_character_ d → quote_character_ d ≠ NUL →
  Reader.split r (f ++ [c1; x] ++ g)
  = Some (Reader.pad_truncate (Reader.columns_ r)
            [Reader.flushed d (Reader.trimming_enabled_ r) (f ++ [x] ++ g)])
  ∧ Reader.split r (f ++ [c1])
    = Some (Reader.pad_truncate (Reader.columns_ r)
              [Reader.flushed d (Reader.trimming_enabled_ r) (f ++ [NUL])]).
Proof.
  intros d HD Hf Hg Hx Hxq Hq. split.
  - set (line := f ++ [c1; x] ++ g).
    assert (line ≠ []) as Hne by (subst line; by destruct f).
    assert (length line = length f + 2 + length g) as Hlen.
    { subst line. rewrite !length_app. simpl. lia. }
    pose proof (scan_plain d (Reader.trimming_enabled_ r) line f [] ([c1; x] ++ g)
                  (Reader.split_init (Reader.columns_ r) line) eq_refl eq_refl Hf)
      as Hrun1.
    unfold Reader.split_init in Hrun1 at 2 3 4 5 6.
    cbn [Reader.idx Reader.sub_result Reader.quotes_encountered Reader.result
         Reader.delimiter_detected app Nat.add] in Hrun1.
    rewrite (bool_decide_eq_false_2 (line = [])) in Hrun1 by done.
    set (st1 := Reader.mkSplit _ _ _ _ _) in Hrun1.
    assert (Reader.split_body d (Reader.trimming_enabled_ r) line st1
            = Reader.mkSplit (length f + 2) (f ++ [x]) 0 [] false) as Hbody.
    { rewrite (body_partial_match d _ line st1 c1 c2 D' HD).
      - subst st1. cbn [Reader.idx Reader.sub_result Reader.quotes_encountered
                        Reader.result].
        subst line. rewrite char_at_app. cbn.
        by rewrite count_quote_other.
      - subst st1 line. cbn [Reader.idx]. apply char_at_head.
      - subst st1 line. cbn [Reader.idx]. by rewrite char_at_app.
      - subst st1. cbn [Reader.idx]. lia. }
    pose proof (scan_plain d (Reader.trimming_enabled_ r) line g (f ++ [c1; x]) []
                  (Reader.mkSplit (length f + 2) (f ++ [x]) 0 [] false)) as Hrun2.
    cbn [Reader.idx Reader.sub_result Reader.quotes_encountered Reader.result
         Reader.delimiter_detected] in Hrun2.
    assert (Reader.idx st1 < length line) as Hlt.
    { subst st1. cbn [Reader.idx]. lia. }
    specialize (Hrun2 ltac:(subst line; by rewrite app_nil_r, <- !app_assoc)).
    specialize (Hrun2 ltac:(rewrite length_app; simpl; lia) Hg).
    pose proof (rtc_l _ _ _ _ (conj Hlt (eq_sym Hbody)) Hrun2) as Hrun3.
    rewrite (split_of_run r line _ Hne (transitivity Hrun1 Hrun3)).
    2:{ cbn [Reader.idx]. lia. }
    do 2 f_equal. unfold Reader.flush_last. cbn [Reader.sub_result Reader.result].
    rewrite bool_decide_eq_true_2 by (by destruct f).
    by rewrite <- !app_assoc.
  - set (line := f ++ [c1]).
    assert (line ≠ []) as Hne by (subst line; by destruct f).
    assert (length line = length f + 1) as Hlen.
    { subst line. rewrite !length_app. simpl. lia. }
    pose proof (scan_plain d (Reader.trimming_enabled_ r) line f [] [c1]
                  (Reader.split_init (Reader.columns_ r) line) eq_refl eq_refl Hf)
      as Hrun1.
    unfold Reader.split_init in Hrun1 at 2 3 4 5 6.
    cbn [Reader.idx Reader.sub_result Reader.quotes_encountered Reader.result
         Reader.delimiter_detected app Nat.add] in Hrun1.
    rewrite (bool_decide_eq_false_2 (line = [])) in Hrun1 by done.
    set (st1 := Reader.mkSplit _ _ _ _ _) in Hrun1.
    assert (Reader.split_body d (Reader.trimming_enabled_ r) line st1
            = Reader.mkSplit (length line + 1) (f ++ [NUL]) 0 [] false) as Hbody.
    { rewrite (body_partial_match_end d _ line st1 c1 c2 D' HD).
      - subst st1. cbn [Reader.sub_result Reader.quotes_encountered Reader.result].
        by rewrite count_quote_other.
      - subst st1 line. cbn [Reader.idx]. apply char_at_head.
      - subst st1. cbn [Reader.idx]. lia. }
    assert (Reader.idx st1 < length line) as Hlt.
    { subst st1. cbn [Reader.idx]. lia. }
    pose proof (rtc_r _ _ _ Hrun1 (conj Hlt (eq_sym Hbody))) as Hrun3.
    rewrite (split_of_run r line _ Hne Hrun3).
    2:{ cbn [Reader.idx]. lia. }
    do 2 f_equal. unfold Reader.flush_last. cbn [Reader.sub_result Reader.result].
    by rewrite bool_decide_eq_true_2 by (by destruct f).
Qed.

(** X26 under the delimiter [::]: one colon between [a] and [b], and one
    colon at the end of the line. *)
Lemma partial_delimiter_match_drops_character_witness :
  Reader.split (reader_with (set_delimiter (txt "::") Dialect_default) false [txt "x"])
    (txt "a:b")
  = Some [txt "ab"]
  ∧ Reader.split (reader_with (set_delimiter (txt "::") Dialect_default) false [txt "x"])
      (txt "a:")
    = Some [txt "a" ++ [NUL]].
Proof.
  apply (partial_delimiter_match_drops_character
           (reader_with (set_delimiter (txt "::") Dialect_default) false [txt "x"])
           ":" ":" "b" [] (txt "a") []).
  - reflexivity.
  - repeat constructor; discriminate.
  - constructor.
  - discriminate.
  - discriminate.
  - discriminate.
Defined.

(** X27. [split] returns on every line: its loops end within as many
    iterations as the line has characters. With a column count established
    it gives exactly that many fields; with none, it gives no field exactly
    for the empty line. *)
Theorem split_always_returns (r : Reader.t) (line : text) :
  ∃ fields,
    Reader.split r line = Some fields
    ∧ (0 < Reader.columns_ r → length fields = Reader.columns_ r)
    ∧ (Reader.columns_ r = 0 → (fields = [] ↔ line = [])).
Proof.
  destruct (split_total r line) as [fields Hf]. exists fields.
  split; [done|]. split.
  - intros Hk. by eapply split_length.
  - intros Hk. split.
    + intros ->. destruct (decide (line = [])) as [|Hne]; [done|].
      by destruct (split_nonempty r line [] Hne Hk Hf).
    + intros ->. rewrite split_empty, Hk in Hf. by injection Hf as <-.
Qed.
